(** * Flecsa document vault: ingestion and retrieval pipeline

    A shallow embedding of the document router (upload handler, per-tenant
    AES-256-GCM helpers, OCR field parser, tag merge), of the storage-quota
    middleware and of the filtered-search handler, with the properties the
    specification states about them. *)

From Stdlib Require Import ZArith NArith QArith Qround List Bool Lia.
From Stdlib Require Import Strings.Ascii Strings.String Strings.Byte.
From Stdlib Require Import Numbers.DecimalString.
From Stdlib Require Import Sorting.Sorted Sorting.Permutation.
From stdpp Require Import gmap strings.

Set Default Proof Using "Type".
Local Open Scope N_scope.

(* ===================================================================== *)
(** * JavaScript strings

    A JavaScript string is a sequence of UTF-16 code units.  [str] keeps
    that view, so that [length] is the [.length] of the source and one
    regular-expression atom consumes one code unit. *)
(* ===================================================================== *)

Module Js.

Definition str := list N.

(** ASCII literals of the source, read as code units. *)
Definition lit (s : string) : str := map N_of_ascii (list_ascii_of_string s).

(** U+20AC, the euro sign of the amount pattern (one code unit). *)
Definition euro : N := 8364.

Definition str_eqb (a b : str) : bool :=
  bool_decide (a = b).

Definition in_range (lo hi c : N) : bool := (lo <=? c) && (c <=? hi).

Definition is_digit (c : N) : bool := in_range 48 57 c.
Definition is_upper (c : N) : bool := in_range 65 90 c.
Definition is_lower (c : N) : bool := in_range 97 122 c.

(** [\s] of ECMAScript: WhiteSpace and LineTerminator code units. *)
Definition is_space (c : N) : bool :=
  in_range 9 13 c || (c =? 32) || (c =? 160) || (c =? 5760)
  || in_range 8192 8202 c || (c =? 8232) || (c =? 8233) || (c =? 8239)
  || (c =? 8287) || (c =? 12288) || (c =? 65279).

(** [String.prototype.toLowerCase], on the ASCII letters; other code
    units are left as they are. *)
Definition lower_unit (c : N) : N := if is_upper c then c + 32 else c.
Definition toLowerCase (s : str) : str := map lower_unit s.

(** [s.startsWith(p)]. *)
Fixpoint startsWith (s p : str) : bool :=
  match p, s with
  | [], _ => true
  | _ :: _, [] => false
  | c :: p', d :: s' => (c =? d) && startsWith s' p'
  end.

(** [s.endsWith(p)]. *)
Definition endsWith (s p : str) : bool := startsWith (rev s) (rev p).

(** [s.includes(p)]. *)
Fixpoint includes (s p : str) : bool :=
  startsWith s p ||
  match s with
  | [] => false
  | _ :: s' => includes s' p
  end.

(** [s.trim()]. *)
Fixpoint trimStart (s : str) : str :=
  match s with
  | c :: s' => if is_space c then trimStart s' else s
  | [] => []
  end.
Definition trim (s : str) : str := rev (trimStart (rev (trimStart s))).

(** [s.replace(/\s+/g, ' ')]: every maximal run of white space becomes
    one space. *)
Fixpoint collapse_spaces (s : str) : str :=
  match s with
  | [] => []
  | c :: s' =>
      if is_space c then
        match s' with
        | d :: _ => if is_space d then collapse_spaces s' else 32 :: collapse_spaces s'
        | [] => [32]
        end
      else c :: collapse_spaces s'
  end.

(** [s.replace(a, b)] with a one-unit string pattern: the first occurrence
    only. *)
Fixpoint replace_first (a b : N) (s : str) : str :=
  match s with
  | [] => []
  | c :: s' => if c =? a then b :: s' else c :: replace_first a b s'
  end.

(** ** Regular expressions

    The patterns of the source use literals, classes, alternation, greedy
    repetition and a start anchor.  [exec] is the backtracking matcher of
    ECMAScript for this fragment: alternatives left to right, repetition
    greedy, an iteration that consumes nothing is not taken. *)

Inductive regex : Type :=
| Eps : regex
| Cls : (N -> bool) -> regex
| Cat : regex -> regex -> regex
| Alt : regex -> regex -> regex
| Star : regex -> regex.

Definition Plus (r : regex) : regex := Cat r (Star r).
Definition Opt (r : regex) : regex := Alt r Eps.
Definition Chr (c : N) : regex := Cls (N.eqb c).

(** A literal word; with the [i] flag an ASCII letter matches in both
    cases. *)
Definition unit_re (icase : bool) (c : N) : regex :=
  if icase then Cls (fun d => lower_unit d =? lower_unit c) else Chr c.
Definition Word (icase : bool) (w : string) : regex :=
  fold_right (fun c r => Cat (unit_re icase c) r) Eps (lit w).
Definition Words (icase : bool) (ws : list string) : regex :=
  match ws with
  | [] => Cls (fun _ => false)
  | w :: ws' => fold_left (fun r w' => Alt r (Word icase w')) ws' (Word icase w)
  end.

Fixpoint exec (r : regex) (s : str) (k : str -> option str) : option str :=
  match r with
  | Eps => k s
  | Cls p =>
      match s with
      | c :: s' => if p c then k s' else None
      | [] => None
      end
  | Cat a b => exec a s (fun s1 => exec b s1 k)
  | Alt a b =>
      match exec a s k with
      | Some t => Some t
      | None => exec b s k
      end
  | Star a =>
      (fix loop (fuel : nat) (s : str) {struct fuel} : option str :=
         match fuel with
         | O => k s
         | S fuel' =>
             match exec a s (fun s1 =>
                     if (List.length s1 <? List.length s)%nat then loop fuel' s1 else None) with
             | Some t => Some t
             | None => k s
             end
         end) (List.length s) s
  end.

(** A match anchored at the start of [s]: the matched text and the rest. *)
Definition match_here (r : regex) (s : str) : option (str * str) :=
  match exec r s Some with
  | Some rest => Some (firstn (List.length s - List.length rest)%nat s, rest)
  | None => None
  end.

(** The leftmost match: what [s.match(r)] has at index 0 when [r] carries
    the [g] flag, and [None] when [s.match(r)] is [null]. *)
Fixpoint match_first (r : regex) (s : str) : option str :=
  match match_here r s with
  | Some (m, _) => Some m
  | None =>
      match s with
      | [] => None
      | _ :: s' => match_first r s'
      end
  end.

(** [s.replace(/^r/, '')]. *)
Definition strip_prefix (r : regex) (s : str) : str :=
  match match_here r s with
  | Some (_, rest) => rest
  | None => s
  end.

End Js.

Import Js.

(* ===================================================================== *)
(** * Field parser ([extractDocumentData], documents router) *)
(* ===================================================================== *)

Module Fields.

(** The values a field of the untyped result object can hold. *)
Inductive jsval : Type :=
| JNum : Q -> jsval
| JStr : str -> jsval.

Record ExtractedData : Type := {
  amount : option jsval;
  issueDate : option jsval;
  invoiceNumber : option jsval;
  provider : option jsval
}.

(** Bounded greedy repetition [r{lo,lo+extra}]. *)
Fixpoint upto (extra : nat) (r : regex) : regex :=
  match extra with
  | O => Eps
  | S n => Opt (Cat r (upto n r))
  end.
Fixpoint times (lo extra : nat) (r : regex) : regex :=
  match lo with
  | O => upto extra r
  | S n => Cat r (times n extra r)
  end.

Definition digit : regex := Cls is_digit.
Definition space : regex := Cls is_space.
Definition one_of (s : string) : regex := Cls (fun c => existsb (N.eqb c) (lit s)).

(** [/(\d+[.,]\d{2})\s*€?/g] *)
Definition amountRegex : regex :=
  Cat (Cat (Plus digit) (Cat (one_of ".,") (times 2 0 digit)))
      (Cat (Star space) (Opt (Chr euro))).

(** [/(\d{1,2}[\/\-\.]\d{1,2}[\/\-\.]\d{2,4})/g] *)
Definition dateRegex : regex :=
  Cat (times 1 1 digit)
   (Cat (one_of "/-.")
     (Cat (times 1 1 digit)
       (Cat (one_of "/-.") (times 2 2 digit)))).

(** [/(?:factura|invoice|ticket|recibo)[\s\#\:]*(\d+)/gi] *)
Definition invoiceRegex : regex :=
  Cat (Words true ["factura"; "invoice"; "ticket"; "recibo"]%string)
   (Cat (Star (Cls (fun c => is_space c || (c =? 35) || (c =? 58))))
        (Plus digit)).

(** [[A-Z][a-z]+] *)
Definition capitalized : regex := Cat (Cls is_upper) (Plus (Cls is_lower)).
Definition space_or_colon : regex := Cls (fun c => is_space c || (c =? 58)).

(** [/(?:de|from|para|to)[\s:]+(W(?:\s+W)* )/g] with [W = [A-Z][a-z]+] *)
Definition providerRegex : regex :=
  Cat (Words false ["de"; "from"; "para"; "to"]%string)
   (Cat (Plus space_or_colon)
     (Cat capitalized (Star (Cat (Plus space) capitalized)))).

(** [/^(de|from|para|to)[\s:]+/i] *)
Definition providerPrefix : regex :=
  Cat (Words true ["de"; "from"; "para"; "to"]%string) (Plus space_or_colon).

Definition extractDocumentData (text : str) : ExtractedData :=
  {| amount :=
       match match_first amountRegex text with
       | Some m => Some (JStr (replace_first 44 46 m))
       | None => None
       end;
     issueDate :=
       match match_first dateRegex text with
       | Some m => Some (JStr m)
       | None => None
       end;
     invoiceNumber :=
       match match_first invoiceRegex text with
       | Some m => Some (JStr (filter is_digit m))
       | None => None
       end;
     provider :=
       match match_first providerRegex text with
       | Some m => Some (JStr (strip_prefix providerPrefix m))
       | None => None
       end |}.

(** The OCR text of the specification's example. *)
Definition invoice_line : str :=
  lit "Factura #4521 de Repsol, 45,67" ++ [euro] ++ lit ", 15/03/2024".

(** The parser only ever stores text in a field. *)
Lemma extract_amount_is_text (text : str) (q : Q) :
  amount (extractDocumentData text) <> Some (JNum q).
Proof.
  unfold extractDocumentData; cbn [amount].
  destruct (match_first amountRegex text); discriminate.
Qed.

(** The whole result on the example line: the amount keeps the euro sign
    that the pattern matched. *)
Example extract_invoice_line_value :
  extractDocumentData invoice_line =
  {| amount := Some (JStr (lit "45.67" ++ [euro]));
     issueDate := Some (JStr (lit "15/03/2024"));
     invoiceNumber := Some (JStr (lit "4521"));
     provider := Some (JStr (lit "Repsol")) |}.
Proof. vm_compute. reflexivity. Qed.

(** C5, as stated, fails: on the example line the amount is not a number
    near 45.67; the field holds text. *)
Lemma extract_invoice_line_amount_not_decimal :
  ~ (exists q : Q,
        amount (extractDocumentData invoice_line) = Some (JNum q) /\
        (4566 # 100 <= q)%Q /\ (q <= 4568 # 100)%Q).
Proof.
  intros [q [H _]]. revert H. apply extract_amount_is_text.
Qed.

(** C5 (amended): on the line "Factura #4521 de Repsol, 45,67€, 15/03/2024"
    the parser yields invoice number "4521", provider "Repsol", the date
    "15/03/2024", and as amount a text that begins with "45.67" (the first
    comma turned into a period, nothing parsed into a number). *)
Theorem extract_invoice_line :
  let d := extractDocumentData invoice_line in
  invoiceNumber d = Some (JStr (lit "4521")) /\
  (exists p, provider d = Some (JStr p) /\ includes p (lit "Repsol") = true) /\
  issueDate d = Some (JStr (lit "15/03/2024")) /\
  (exists a, amount d = Some (JStr a) /\ startsWith a (lit "45.67") = true).
Proof.
  cbv zeta. rewrite extract_invoice_line_value. cbn [invoiceNumber provider issueDate amount].
  split; [reflexivity|].
  split; [exists (lit "Repsol"); split; [reflexivity | vm_compute; reflexivity]|].
  split; [reflexivity|].
  exists (lit "45.67" ++ [euro]). split; [reflexivity | vm_compute; reflexivity].
Qed.

End Fields.

(* ===================================================================== *)
(** * Tag merge ([pickSimilarExisting], upload handler) *)
(* ===================================================================== *)

Module Tags.

(** A row of [SELECT id, name FROM tags]. *)
Record TagRow : Type := { tag_id : N; tag_name : str }.

(** [const singular = (s) => s.endsWith('s') ? s.slice(0, -1) : s] *)
Definition singular (s : str) : str :=
  if endsWith s (lit "s") then removelast s else s.

(** The loop over [existingTags]: the first row that passes one of the
    three tests is returned, the candidate when none does. *)
Fixpoint pickSimilarExisting (existingTags : list TagRow) (candidate : str) : str :=
  let cSing := singular candidate in
  match existingTags with
  | [] => candidate
  | row :: rest =>
      let n := tag_name row in
      if str_eqb n candidate then n
      else if str_eqb (singular n) cSing then n
      else if startsWith n cSing || startsWith cSing n then n
      else pickSimilarExisting rest candidate
  end.

(** [p] is a prefix of [s]. *)
Definition prefix_of (p s : str) : Prop := exists t, s = p ++ t.

(** The test the code applies to the stored name [n]. *)
Definition similar (candidate n : str) : Prop :=
  n = candidate \/
  singular n = singular candidate \/
  prefix_of (singular candidate) n \/
  prefix_of n (singular candidate).

(** The test as the specification words it: both names singularized
    before the prefix comparison. *)
Definition similar_spec (candidate n : str) : Prop :=
  n = candidate \/
  singular n = singular candidate \/
  prefix_of (singular candidate) (singular n) \/
  prefix_of (singular n) (singular candidate).

Definition row (i : N) (name : string) : TagRow := {| tag_id := i; tag_name := lit name |}.

Lemma startsWith_prefix_of (s p : str) :
  startsWith s p = true <-> prefix_of p s.
Proof.
  revert s. induction p as [|c p IH]; intros s.
  - split; [intros _; exists s; reflexivity | intros _; destruct s; reflexivity].
  - destruct s as [|d s]; cbn.
    + split; [discriminate | intros [t Ht]; discriminate].
    + rewrite andb_true_iff, N.eqb_eq, IH. split.
      * intros [-> [t ->]]. exists t. reflexivity.
      * intros [t Ht]. injection Ht as -> ->. split; [reflexivity | exists t; reflexivity].
Qed.

Lemma str_eqb_eq (a b : str) : str_eqb a b = true <-> a = b.
Proof. unfold str_eqb. apply bool_decide_eq_true. Qed.

Lemma singular_snoc (m : str) : singular (m ++ lit "s") = m.
Proof.
  unfold singular, endsWith. rewrite rev_app_distr. cbn [lit rev map list_ascii_of_string app].
  change (N_of_ascii "s") with 115. cbn [startsWith app]. rewrite N.eqb_refl.
  destruct (rev m); cbn [andb]; apply removelast_last.
Qed.

Lemma singular_cases (s : str) :
  (exists m, s = m ++ lit "s" /\ singular s = m) \/
  ((forall m, s <> m ++ lit "s") /\ singular s = s).
Proof.
  destruct (rev s) as [|c r] eqn:E.
  - right. apply (f_equal (@rev N)) in E. rewrite rev_involutive in E. subst s.
    split; [intros m H; destruct m; discriminate | reflexivity].
  - apply (f_equal (@rev N)) in E. rewrite rev_involutive in E. cbn in E. subst s.
    destruct (N.eq_dec c 115) as [->|Hc].
    + left. exists (rev r). split; [reflexivity | apply singular_snoc].
    + right. split.
      * intros m H. change (lit "s") with [115] in H.
        apply app_inj_tail in H. destruct H as [_ H]. congruence.
      * unfold singular, endsWith. rewrite rev_app_distr.
        change (rev (lit "s")) with [115]. cbn [rev app startsWith].
        destruct (N.eqb_spec 115 c); [congruence | reflexivity].
Qed.

Lemma singular_prefix (s : str) : prefix_of (singular s) s.
Proof.
  destruct (singular_cases s) as [[m [-> ->]] | [_ ->]].
  - exists (lit "s"). reflexivity.
  - exists []. symmetry. apply app_nil_r.
Qed.

Lemma prefix_of_trans (a b c : str) : prefix_of a b -> prefix_of b c -> prefix_of a c.
Proof. intros [t ->] [u ->]. exists (t ++ u). symmetry. apply app_assoc. Qed.

(** A prefix of [m ++ [x]] is a prefix of [m] or the whole. *)
Lemma prefix_of_snoc (p m : str) (x : N) :
  prefix_of p (m ++ [x]) -> prefix_of p m \/ p = m ++ [x].
Proof.
  intros [t Ht]. destruct t as [|y t] using rev_ind.
  - right. rewrite app_nil_r in Ht. symmetry. exact Ht.
  - left. rewrite app_assoc in Ht. apply app_inj_tail in Ht. destruct Ht as [-> _].
    exists t. reflexivity.
Qed.

Definition similar_b (candidate n : str) : bool :=
  str_eqb n candidate
  || str_eqb (singular n) (singular candidate)
  || (startsWith n (singular candidate) || startsWith (singular candidate) n).

Lemma similar_b_similar (candidate n : str) :
  similar_b candidate n = true <-> similar candidate n.
Proof.
  unfold similar_b, similar.
  rewrite !orb_true_iff, !str_eqb_eq, !startsWith_prefix_of. tauto.
Qed.

Lemma pickSimilarExisting_cons (r : TagRow) (rest : list TagRow) (candidate : str) :
  pickSimilarExisting (r :: rest) candidate =
  if similar_b candidate (tag_name r) then tag_name r
  else pickSimilarExisting rest candidate.
Proof.
  cbn [pickSimilarExisting]. unfold similar_b.
  destruct (str_eqb (tag_name r) candidate); [reflexivity|].
  destruct (str_eqb (singular (tag_name r)) (singular candidate)); [reflexivity|].
  reflexivity.
Qed.

(** Whatever the code accepts, the specification's wording accepts too. *)
Lemma similar_similar_spec (candidate n : str) :
  similar candidate n -> similar_spec candidate n.
Proof.
  intros [H | [H | [H | H]]].
  - left; exact H.
  - right; left; exact H.
  - destruct (singular_cases n) as [[m [Hn Hs]] | [_ Hs]].
    + rewrite Hn in H. change (lit "s") with [115] in H.
      apply prefix_of_snoc in H. destruct H as [H | H].
      * right; right; left. rewrite Hs. exact H.
      * right; right; right. rewrite Hs, H. exists [115]. reflexivity.
    + right; right; left. rewrite Hs. exact H.
  - right; right; right.
    apply prefix_of_trans with n; [apply singular_prefix | exact H].
Qed.

(** C7, as stated, fails: with the vocabulary ["notas"] the candidate
    "notarial" passes the specification's test ("nota" is a prefix of
    "notarial") and yet becomes a new tag. *)
Lemma pickSimilarExisting_not_similar_spec :
  ~ (forall (existingTags : list TagRow) (candidate : str) (r : TagRow),
        In r existingTags -> similar_spec candidate (tag_name r) ->
        exists r', In r' existingTags /\
                   pickSimilarExisting existingTags candidate = tag_name r').
Proof.
  intros H.
  destruct (H [row 1 "notas"] (lit "notarial") (row 1 "notas")) as [r' [Hin Hpick]].
  - left; reflexivity.
  - right; right; right. exists (lit "rial"). vm_compute. reflexivity.
  - destruct Hin as [<- | []]. vm_compute in Hpick. discriminate.
Qed.

(** C7 (amended): the merge step returns the first existing tag, in
    vocabulary order, that equals the candidate, or whose singularized form
    equals the candidate's singularized form, or that (as stored, not
    singularized) starts with the candidate's singularized form, or that
    (as stored) is a prefix of the candidate's singularized form; when no
    existing tag passes, the candidate itself is returned as a new tag. *)
Theorem pickSimilarExisting_first_similar (existingTags : list TagRow) (candidate : str) :
  (exists pre r post,
      existingTags = pre ++ r :: post /\
      Forall (fun x => ~ similar candidate (tag_name x)) pre /\
      similar candidate (tag_name r) /\
      pickSimilarExisting existingTags candidate = tag_name r)
  \/
  (Forall (fun x => ~ similar candidate (tag_name x)) existingTags /\
   pickSimilarExisting existingTags candidate = candidate).
Proof.
  induction existingTags as [|r rest IH].
  - right. split; [constructor | reflexivity].
  - rewrite pickSimilarExisting_cons.
    destruct (similar_b candidate (tag_name r)) eqn:E.
    + left. exists [], r, rest. apply similar_b_similar in E.
      repeat split; [constructor | exact E].
    + assert (Hr : ~ similar candidate (tag_name r)).
      { intros Hs. apply similar_b_similar in Hs. congruence. }
      destruct IH as [(pre & r0 & post & -> & Hpre & Hsim & Hpick) | [Hall Hpick]].
      * left. exists (r :: pre), r0, post.
        repeat split; [constructor; assumption | exact Hsim | exact Hpick].
      * right. split; [constructor; assumption | exact Hpick].
Qed.

End Tags.

(* ===================================================================== *)
(** * Filtered search ([POST /search], search router) *)
(* ===================================================================== *)

Module Search.

Local Open Scope Q_scope.

(** A document with its OCR text, as joined by the search queries. *)
Record StoredDoc : Type := {
  doc_id : N;
  user_id : N;
  filename : option str;
  provider : option str;
  invoice_number : option str;
  ocr_text : option str;
  created_at : Z
}.

(** A row of the result set: the joined columns and [relevance_score]. *)
Record ResultRow : Type := {
  doc : StoredDoc;
  relevance_score : option Q
}.

(** A processed document of the response ([{...doc, relevance_score}]). *)
Record Scored : Type := {
  row : StoredDoc;
  score : Q
}.

Record Filters : Type := {
  dateFrom : option str;
  dateTo : option str;
  f_provider : option str;
  minAmount : option Q;
  maxAmount : option Q;
  currency : option str
}.

Definition no_filters : Filters :=
  {| dateFrom := None; dateTo := None; f_provider := None;
     minAmount := None; maxAmount := None; currency := None |}.

(** The request body after JSON parsing.  Numbers are taken integral. *)
Record Body : Type := {
  b_query : option str;
  b_filters : option Filters;
  b_limit : option Z;
  b_offset : option Z
}.

(** The conjuncts that the handler pushes on [whereConditions]. *)
Inductive Cond : Type :=
| UserIs : N -> Cond
| TextLike : str -> Cond
| IssueDateGe : str -> Cond
| IssueDateLe : str -> Cond
| ProviderLike : str -> Cond
| AmountGe : Q -> Cond
| AmountLe : Q -> Cond
| CurrencyIs : str -> Cond.

Record Parsed : Type := {
  p_query : str;
  p_filters : Filters;
  p_limit : Z;
  p_offset : Z
}.

Record Pagination : Type := {
  limit : Z;
  offset : Z;
  total : Z;
  pages : Z
}.

Inductive Response : Type :=
| Ok (documents : list Scored) (pagination : Pagination)
| BadRequest.

(** [searchSchema.parse(req.body)]: [None] stands for the ZodError. *)
Definition searchSchema (b : Body) : option Parsed :=
  match b_query b with
  | None => None
  | Some q =>
      if (List.length q <? 1)%nat then None else
      let l := match b_limit b with Some l => l | None => 20%Z end in
      let o := match b_offset b with Some o => o | None => 0%Z end in
      if ((1 <=? l) && (l <=? 100) && (0 <=? o))%Z then
        Some {| p_query := q;
                p_filters := match b_filters b with Some f => f | None => no_filters end;
                p_limit := l; p_offset := o |}
      else None
  end.

(** A string filter is applied when it is truthy, that is not empty. *)
Definition truthy (s : option str) : list str :=
  match s with
  | Some (c :: t) => [c :: t]
  | _ => []
  end.
Definition defined {A : Type} (x : option A) : list A :=
  match x with
  | Some a => [a]
  | None => []
  end.

Definition whereConditions (userId : N) (q : str) (f : Filters) : list Cond :=
  [UserIs userId; TextLike q]
  ++ map IssueDateGe (truthy (dateFrom f))
  ++ map IssueDateLe (truthy (dateTo f))
  ++ map ProviderLike (truthy (f_provider f))
  ++ map AmountGe (defined (minAmount f))
  ++ map AmountLe (defined (maxAmount f))
  ++ map CurrencyIs (truthy (currency f)).

(** [Math.max(a, b)] *)
Definition Math_max (a b : Q) : Q := if Qle_bool a b then b else a.

(** [Math.ceil(total / limit)] *)
Definition Math_ceil_div (total limit : Z) : Z :=
  Qceiling (inject_Z total / inject_Z limit).

(** ** The runtime

    [String.prototype.toLowerCase] follows the Unicode tables of the
    runtime.  A score is a finite double, taken as the rational it
    denotes; [fl] is the rounding of a sum to the nearest double, so that
    [a + b] of the source is [fl (a + b)]. *)
Section Runtime.
Variable toLowerCase : str -> str.
Variable fl : Q -> Q.

(** [x?.toLowerCase().includes(q.toLowerCase())], false on [null]. *)
Definition includes_ci (field : option str) (q : str) : bool :=
  match field with
  | Some s => includes (toLowerCase s) (toLowerCase q)
  | None => false
  end.

(** [x?.includes(q)], false on [null]. *)
Definition includes_cs (field : option str) (q : str) : bool :=
  match field with
  | Some s => includes s q
  | None => false
  end.

(** [if (b) relevanceScore += boost] *)
Definition add_if (b : bool) (boost : Q) (s : Q) : Q := if b then fl (s + boost) else s.

(** The body of [documents.map(...)]: the boost pass on one row. *)
Definition process (searchQuery : str) (r : ResultRow) : Scored :=
  let s0 := match relevance_score r with Some s => s | None => 0 end in
  let s1 := add_if (includes_ci (filename (doc r)) searchQuery) 10 s0 in
  let s2 := add_if (includes_ci (provider (doc r)) searchQuery) 8 s1 in
  let s3 := add_if (includes_cs (invoice_number (doc r)) searchQuery) 12 s2 in
  let s4 := add_if (includes_ci (ocr_text (doc r)) searchQuery) 5 s3 in
  {| row := doc r; score := Math_max s4 0 |}.
End Runtime.

(** A stable sort: [x] moves past [y] only where [before y x] holds. *)
Section Sort.
Context {A : Type} (before : A -> A -> bool).

Fixpoint insert (x : A) (l : list A) : list A :=
  match l with
  | [] => [x]
  | y :: l' => if before y x then y :: insert x l' else x :: y :: l'
  end.

Definition sort (l : list A) : list A := fold_right insert [] l.
End Sort.

(** [processedDocuments.sort((a, b) => b.relevance_score - a.relevance_score)]:
    the difference of two finite doubles is negative exactly when the
    first is the smaller one, so [a] goes before [b] when its score is the
    higher. *)
Definition higher (a b : Scored) : bool := negb (Qle_bool (score a) (score b)).
Definition sort_by_score : list Scored -> list Scored := sort higher.

(** ** The database

    The two statements of the handler are evaluated by the database; what
    a condition means on a row and the full-text relevance are its
    business and enter as parameters. *)
Section Handler.
Variable toLowerCase : str -> str.
Variable fl : Q -> Q.
Variable sql_holds : Cond -> StoredDoc -> bool.
Variable sql_match_against : str -> StoredDoc -> Q.

Definition matching (conds : list Cond) (table : list StoredDoc) : list StoredDoc :=
  filter (fun d => forallb (fun c => sql_holds c d) conds) table.

(** [ORDER BY relevance_score DESC, d.created_at DESC] *)
Definition sql_before (q : str) (a b : StoredDoc) : bool :=
  negb (Qle_bool (sql_match_against q a) (sql_match_against q b))
  || (Qeq_bool (sql_match_against q a) (sql_match_against q b)
      && (created_at b <? created_at a)%Z).

(** The [SELECT ... ORDER BY ... LIMIT ? OFFSET ?] statement. *)
Definition select_page (table : list StoredDoc) (q : str) (conds : list Cond)
    (limit offset : Z) : list ResultRow :=
  map (fun d => {| doc := d; relevance_score := Some (sql_match_against q d) |})
    (firstn (Z.to_nat limit)
       (skipn (Z.to_nat offset) (sort (sql_before q) (matching conds table)))).

(** The [SELECT COUNT( * )] statement. *)
Definition select_count (table : list StoredDoc) (conds : list Cond) : Z :=
  Z.of_nat (List.length (matching conds table)).

(** The handler of [POST /search] for the authenticated [userId]. *)
Definition search (table : list StoredDoc) (userId : N) (body : Body) : Response :=
  match searchSchema body with
  | None => BadRequest
  | Some p =>
      let conds := whereConditions userId (p_query p) (p_filters p) in
      let documents := select_page table (p_query p) conds (p_limit p) (p_offset p) in
      let total := select_count table conds in
      let processedDocuments := map (process toLowerCase fl (p_query p)) documents in
      Ok (sort_by_score processedDocuments)
         {| limit := p_limit p; offset := p_offset p; total := total;
            pages := Math_ceil_div total (p_limit p) |}
  end.
End Handler.

(** ** Sorting lemmas *)
Section SortFacts.
Context {A : Type} (before : A -> A -> bool).

Lemma insert_perm (x : A) (l : list A) : Permutation (insert before x l) (x :: l).
Proof.
  induction l as [|y l IH]; cbn.
  - reflexivity.
  - destruct (before y x).
    + etransitivity; [apply perm_skip, IH | apply perm_swap].
    + reflexivity.
Qed.

Lemma sort_perm (l : list A) : Permutation (sort before l) l.
Proof.
  induction l as [|x l IH]; cbn.
  - constructor.
  - etransitivity; [apply insert_perm | apply perm_skip, IH].
Qed.


(** With an asymmetric [before], no element of the result is strictly
    before its predecessor. *)
Hypothesis before_asym : forall a b, before a b = true -> before b a = false.


End SortFacts.




(** ** Scores *)





Section Scores.
Variable toLowerCase : str -> str.
Variable fl : Q -> Q.






(** What is used of the rounding: it is monotone, and integers up to
    2^53 are doubles. *)
Hypothesis fl_monotone : forall x y, x <= y -> fl x <= fl y.
Hypothesis fl_integer :
  forall n : Z, (0 <= n <= 2 ^ 53)%Z -> fl (inject_Z n) == inject_Z n.





End Scores.


(** ** The handler's response *)


Definition or_default {A : Type} (d : A) (x : option A) : A :=
  match x with Some a => a | None => d end.

Lemma searchSchema_accepts (b : Body) (p : Parsed) :
  searchSchema b = Some p ->
  b_query b = Some (p_query p) /\
  p_filters p = or_default no_filters (b_filters b) /\
  p_limit p = or_default 20%Z (b_limit b) /\
  p_offset p = or_default 0%Z (b_offset b) /\
  (1 <= p_limit p <= 100)%Z /\ (0 <= p_offset p)%Z.
Proof.
  unfold searchSchema. destruct (b_query b) as [q|]; [|discriminate].
  destruct (List.length q <? 1)%nat; [discriminate|].
  destruct (_ && _ && _)%bool eqn:E; [|discriminate].
  intros [= <-]. cbn.
  apply andb_true_iff in E as [E E3]. apply andb_true_iff in E as [E1 E2].
  unfold or_default. repeat split; try reflexivity; lia.
Qed.

Section Response.
Variable toLowerCase : str -> str.
Variable fl : Q -> Q.
Variable sql_holds : Cond -> StoredDoc -> bool.
Variable sql_match_against : str -> StoredDoc -> Q.

Lemma search_ok (table : list StoredDoc) (userId : N) (body : Body)
    (documents : list Scored) (pagination : Pagination) :
  search toLowerCase fl sql_holds sql_match_against table userId body
    = Ok documents pagination ->
  exists p,
    searchSchema body = Some p /\
    documents =
      sort_by_score
        (map (process toLowerCase fl (p_query p))
           (select_page sql_holds sql_match_against table (p_query p)
              (whereConditions userId (p_query p) (p_filters p))
              (p_limit p) (p_offset p))) /\
    pagination =
      {| limit := p_limit p; offset := p_offset p;
         total := select_count sql_holds table
                    (whereConditions userId (p_query p) (p_filters p));
         pages := Math_ceil_div
                    (select_count sql_holds table
                       (whereConditions userId (p_query p) (p_filters p)))
                    (p_limit p) |}.
Proof.
  unfold search. destruct (searchSchema body) as [p|]; [|discriminate].
  intros [= <- <-]. exists p. repeat split.
Qed.



End Response.

(** Two stored documents that differ in the file name only, for the
    concrete runs below. *)
Definition doc_a : StoredDoc :=
  {| doc_id := 1; user_id := 7; filename := Some (lit "Repsol-marzo.pdf");
     provider := None; invoice_number := Some (lit "INV-7"); ocr_text := None;
     created_at := 100 |}.
Definition flat_relevance (_ : str) (_ : StoredDoc) : Q := 1.
Definition body_of (q : string) : Body :=
  {| b_query := Some (lit q); b_filters := None; b_limit := None; b_offset := None |}.




(** Sums taken exactly, for the concrete runs: on the integers that occur
    in them this is the rounding of the runtime. *)
Definition exact (x : Q) : Q := x.




End Search.

(* ===================================================================== *)
(** * Per-tenant encryption ([encryptBuffer], [decryptBuffer])

    The two helpers call Node's [crypto] module.  Its AES-256-GCM cipher is
    written out below after FIPS 197 and NIST SP 800-38D and checked on the
    standards' example vectors; [scryptSync] and the process environment
    enter as parameters. *)
(* ===================================================================== *)

Module Crypto.

Local Open Scope N_scope.

Definition bytes := list byte.

Definition byte_of_N (n : N) : byte :=
  match Byte.of_N (n mod 256) with
  | Some b => b
  | None => x00
  end.

(** Big-endian reading of a byte string, and its inverse on [len] bytes. *)
Definition N_of_bytes (bs : bytes) : N :=
  fold_left (fun acc b => acc * 256 + Byte.to_N b) bs 0.

Fixpoint bytes_of_N (len : nat) (n : N) : bytes :=
  match len with
  | O => []
  | S k => byte_of_N (N.shiftr n (8 * N.of_nat k)) :: bytes_of_N k n
  end.

Definition xor_byte (a b : byte) : byte := byte_of_N (N.lxor (Byte.to_N a) (Byte.to_N b)).

(** [Buffer.from(s, 'utf8')] for an ASCII literal. *)
Definition utf8 (s : string) : bytes := list_byte_of_string s.

(** ** AES-256 (FIPS 197) *)
Module AES.

Definition xtime (a : N) : N :=
  let d := a * 2 in if 256 <=? d then N.lxor (d - 256) 27 else d.

(** Multiplication in GF(2^8). *)
Fixpoint gf_mul_loop (n : nat) (a b acc : N) : N :=
  match n with
  | O => acc
  | S k => gf_mul_loop k (xtime a) (N.shiftr b 1)
             (if N.testbit b 0 then N.lxor acc a else acc)
  end.
Definition gf_mul (a b : N) : N := gf_mul_loop 8 a b 0.

(** The inverse as the 254th power (0 goes to 0). *)
Definition gf_inv (a : N) : N :=
  let a2 := gf_mul a a in
  let a4 := gf_mul a2 a2 in
  let a8 := gf_mul a4 a4 in
  let a16 := gf_mul a8 a8 in
  let a32 := gf_mul a16 a16 in
  let a64 := gf_mul a32 a32 in
  let a128 := gf_mul a64 a64 in
  gf_mul a128 (gf_mul a64 (gf_mul a32 (gf_mul a16 (gf_mul a8 (gf_mul a4 a2))))).

Definition rotl8 (a : N) (k : N) : N :=
  N.lor (N.shiftl a k mod 256) (N.shiftr a (8 - k)).

Definition sbox_of (a : N) : N :=
  let b := gf_inv a in
  N.lxor (N.lxor (N.lxor (N.lxor (N.lxor b (rotl8 b 1)) (rotl8 b 2)) (rotl8 b 3)) (rotl8 b 4)) 99.

Definition sbox_table : list N :=
  Eval vm_compute in map (fun i => sbox_of (N.of_nat i)) (seq 0 256).

Definition sbox (a : N) : N := nth (N.to_nat a) sbox_table 0.

(** A state is the 16 bytes of a block, column after column. *)
Definition state := list N.

Definition at_ (s : state) (i : nat) : N := nth i s 0.

Definition sub_bytes (s : state) : state := map sbox s.

Definition shift_rows (s : state) : state :=
  map (fun i => at_ s (i mod 4 + 4 * ((i / 4 + i mod 4) mod 4))%nat) (seq 0 16).

Definition mix_column (a0 a1 a2 a3 : N) : list N :=
  [ N.lxor (N.lxor (gf_mul 2 a0) (gf_mul 3 a1)) (N.lxor a2 a3);
    N.lxor (N.lxor a0 (gf_mul 2 a1)) (N.lxor (gf_mul 3 a2) a3);
    N.lxor (N.lxor a0 a1) (N.lxor (gf_mul 2 a2) (gf_mul 3 a3));
    N.lxor (N.lxor (gf_mul 3 a0) a1) (N.lxor a2 (gf_mul 2 a3)) ].

Definition mix_columns (s : state) : state :=
  flat_map (fun c => mix_column (at_ s (4 * c)) (at_ s (4 * c + 1))
                                (at_ s (4 * c + 2)) (at_ s (4 * c + 3)))%nat
           (seq 0 4).

Definition add_round_key (s k : state) : state :=
  map (fun i => N.lxor (at_ s i) (at_ k i)) (seq 0 16).

(** Key expansion for a 256-bit key: 60 words of four bytes. *)
Definition word := list N.
Definition xor_word (a b : word) : word :=
  map (fun i => N.lxor (nth i a 0) (nth i b 0)) (seq 0 4).
Definition rot_word (w : word) : word :=
  [nth 1%nat w 0; nth 2%nat w 0; nth 3%nat w 0; nth 0%nat w 0].
Definition sub_word (w : word) : word := map sbox w.

Fixpoint rcon (i : nat) : N :=
  match i with
  | O => 0
  | 1%nat => 1
  | S k => xtime (rcon k)
  end.

(** [ws] holds the words so far, the latest first. *)
Fixpoint expand (n : nat) (i : nat) (ws : list word) : list word :=
  match n with
  | O => ws
  | S k =>
      let prev := nth 0%nat ws [] in
      let temp :=
        if (i mod 8 =? 0)%nat then
          xor_word (sub_word (rot_word prev)) [rcon (i / 8); 0; 0; 0]
        else if (i mod 8 =? 4)%nat then sub_word prev
        else prev in
      expand k (S i) (xor_word (nth 7%nat ws []) temp :: ws)
  end.

Fixpoint chunks4 (n : nat) (l : list N) : list word :=
  match n with
  | O => []
  | S k => firstn 4 l :: chunks4 k (skipn 4 l)
  end.

Definition key_schedule (key : list N) : list word :=
  rev (expand 52 8 (rev (chunks4 8 key))).

Definition round_key (w : list word) (r : nat) : state :=
  concat (firstn 4 (skipn (4 * r) w)).

Fixpoint rounds (n : nat) (r : nat) (w : list word) (s : state) : state :=
  match n with
  | O => s
  | S k =>
      rounds k (S r) w
        (add_round_key (mix_columns (shift_rows (sub_bytes s))) (round_key w r))
  end.

(** The cipher on one block under a 32-byte key. *)
Definition cipher (key : list N) (block : list N) : list N :=
  let w := key_schedule key in
  let s := rounds 13 1 w (add_round_key block (round_key w 0)) in
  add_round_key (shift_rows (sub_bytes s)) (round_key w 14).

End AES.

(** The block cipher as a map on 128-bit numbers. *)
Definition aes256 (key : bytes) (block : N) : N :=
  N_of_bytes
    (map byte_of_N
       (AES.cipher (map Byte.to_N key) (map Byte.to_N (bytes_of_N 16 block)))).

(** ** Galois/Counter Mode (NIST SP 800-38D) over a block cipher [E] *)
Section GCM.
Variable E : N -> N.

Definition R_poly : N := N.shiftl 225 120.

Definition halve (v : N) : N :=
  if N.testbit v 0 then N.lxor (N.shiftr v 1) R_poly else N.shiftr v 1.

(** The product of two blocks in GF(2^128); bit 127 of the number is the
    coefficient the standard calls bit 0. *)
Fixpoint gf128_loop (n : nat) (x v z : N) : N :=
  match n with
  | O => z
  | S k => gf128_loop k x (halve v) (if N.testbit x (N.of_nat k) then N.lxor z v else z)
  end.
Definition gf128_mul (x y : N) : N := gf128_loop 128 x y 0.

(** GHASH over a byte string padded with zeros to whole blocks.  The
    state is the running hash, the block being filled and the number of its
    bytes read so far. *)
Definition absorb_byte (H : N) (st : N * N * nat) (b : byte) : N * N * nat :=
  let '(Y, cur, k) := st in
  let cur' := cur * 256 + Byte.to_N b in
  if (k =? 15)%nat then (gf128_mul (N.lxor Y cur') H, 0, O)
  else (Y, cur', S k).

Definition absorb_pad (H : N) (st : N * N * nat) : N :=
  let '(Y, cur, k) := st in
  match k with
  | O => Y
  | _ => gf128_mul (N.lxor Y (N.shiftl cur (8 * N.of_nat (16 - k)))) H
  end.

Definition absorb (H Y : N) (data : bytes) : N :=
  absorb_pad H (fold_left (absorb_byte H) data (Y, 0, O)).

Definition bit_length (data : bytes) : N := 8 * N.of_nat (List.length data).

Definition ghash (H : N) (aad ct : bytes) : N :=
  let Y := absorb H (absorb H 0 aad) ct in
  gf128_mul (N.lxor Y (N.shiftl (bit_length aad) 64 + bit_length ct)) H.

Definition inc32 (cb : N) : N :=
  N.shiftl (N.shiftr cb 32) 32 + (cb mod 2 ^ 32 + 1) mod 2 ^ 32.

(** The pre-counter block. *)
Definition J0 (H : N) (iv : bytes) : N :=
  if (List.length iv =? 12)%nat then N.shiftl (N_of_bytes iv) 32 + 1
  else gf128_mul (N.lxor (absorb H 0 iv) (bit_length iv)) H.

(** Counter mode: [ks] is the key-stream block [E cb] of the current
    counter block, [pos] the position in it. *)
Fixpoint gctr (cb ks : N) (pos : nat) (data : bytes) : bytes :=
  match data with
  | [] => []
  | b :: rest =>
      xor_byte b (byte_of_N (N.shiftr ks (8 * N.of_nat (15 - pos))))
      :: (if (pos =? 15)%nat then gctr (inc32 cb) (E (inc32 cb)) 0 rest
          else gctr cb ks (S pos) rest)
  end.

Definition gcm_tag (iv aad ct : bytes) : bytes :=
  let H := E 0 in
  bytes_of_N 16 (N.lxor (ghash H aad ct) (E (J0 H iv))).

Definition gcm_crypt (iv data : bytes) : bytes :=
  let cb := inc32 (J0 (E 0) iv) in gctr cb (E cb) 0 data.

End GCM.

Fixpoint bytes_eqb (a b : bytes) : bool :=
  match a, b with
  | [], [] => true
  | x :: a', y :: b' => Byte.eqb x y && bytes_eqb a' b'
  | _, _ => false
  end.

(** ** Node's cipher objects, as the helpers use them

    [None] stands for a thrown error. *)

(** [createCipheriv('aes-256-gcm', key, iv)], [setAAD], [update], [final],
    [getAuthTag]: the cipher text and the 16-byte tag. *)
Definition cipher_run (key iv aad plain : bytes) : option (bytes * bytes) :=
  if negb (List.length key =? 32)%nat then None
  else if (List.length iv =? 0)%nat then None
  else
    let ct := gcm_crypt (aes256 key) iv plain in
    Some (ct, gcm_tag (aes256 key) iv aad ct).

Definition valid_tag_length (n : nat) : bool :=
  (n =? 4)%nat || (n =? 8)%nat || ((12 <=? n)%nat && (n <=? 16)%nat).

(** [createDecipheriv], [setAAD], [setAuthTag], [update], [final]: the
    plain text, or an error when the tag does not authenticate. *)
Definition decipher_run (key iv aad tag ct : bytes) : option bytes :=
  if negb (List.length key =? 32)%nat then None
  else if (List.length iv =? 0)%nat then None
  else if negb (valid_tag_length (List.length tag)) then None
  else if bytes_eqb (firstn (List.length tag) (gcm_tag (aes256 key) iv aad ct)) tag
       then Some (gcm_crypt (aes256 key) iv ct)
       else None.

(** ** The helpers of the documents router *)
Section Helpers.

(** [crypto.scryptSync(password, salt, keylen)] and the value of
    [process.env.FILE_ENC_SECRET] (its UTF-8 bytes, [None] when unset). *)
Variable scryptSync : bytes -> bytes -> nat -> bytes.
Variable FILE_ENC_SECRET : option bytes.

(** [process.env.FILE_ENC_SECRET || 'dev-secret-change'] *)
Definition baseSecret : bytes :=
  match FILE_ENC_SECRET with
  | Some (b :: s) => b :: s
  | _ => utf8 "dev-secret-change"
  end.

(** The decimal text of a user id, as the template string renders it. *)
Definition number_to_string (userId : N) : bytes :=
  utf8 (NilZero.string_of_uint (N.to_uint userId)).

(** [crypto.scryptSync(`${baseSecret}:${userId}`, 'flecsa-salt', 32)] *)
Definition derive_key (userId : N) : bytes :=
  scryptSync (baseSecret ++ utf8 ":" ++ number_to_string userId) (utf8 "flecsa-salt") 32.

Definition aad : bytes := utf8 "flecsa-document".

(** [encryptBuffer(buffer, userId)]; [iv] is what [crypto.randomBytes(12)]
    returned in the call.  The result is [{ encrypted, iv, authTag }]. *)
Definition encryptBuffer (iv : bytes) (buffer : bytes) (userId : N)
    : option (bytes * bytes * bytes) :=
  match cipher_run (derive_key userId) iv aad buffer with
  | Some (encrypted, authTag) => Some (encrypted, iv, authTag)
  | None => None
  end.

(** [decryptBuffer(buffer, iv, authTag, userId)] *)
Definition decryptBuffer (buffer iv authTag : bytes) (userId : N) : option bytes :=
  decipher_run (derive_key userId) iv aad authTag buffer.

End Helpers.

(** A stand-in key derivation for the concrete runs: it returns [n] bytes,
    as [scryptSync] does. *)
Definition toy_kdf (password salt : bytes) (n : nat) : bytes :=
  firstn n (password ++ salt ++ repeat x00 n).

(** ** Known answers *)

(** FIPS 197, appendix C.3. *)
Example aes256_fips197 :
  aes256 (bytes_of_N 32 0x000102030405060708090a0b0c0d0e0f101112131415161718191a1b1c1d1e1f)
         0x00112233445566778899aabbccddeeff
  = 0x8ea2b7ca516745bfeafc49904b496089.
Proof. vm_compute. reflexivity. Qed.

(** The AES-256 case with associated data and a partial last block of the
    GCM specification's vectors (test case 16). *)
Example gcm_test_case_16 :
  cipher_run
    (bytes_of_N 32 0xfeffe9928665731c6d6a8f9467308308feffe9928665731c6d6a8f9467308308)
    (bytes_of_N 12 0xcafebabefacedbaddecaf888)
    (bytes_of_N 20 0xfeedfacedeadbeeffeedfacedeadbeefabaddad2)
    (bytes_of_N 60 0xd9313225f88406e5a55909c5aff5269a86a7a9531534f7da2e4c303d8a318a721c3c0c95956809532fcf0e2449a6b525b16aedf5aa0de657ba637b39)
  = Some
      (bytes_of_N 60 0x522dc1f099567d07f47f37a32a84427d643a8cdcbfe5c0c97598a2bd2555d1aa8cb08e48590dbb3da7b08b1056828838c5f61e6393ba7a0abcc9f662,
       bytes_of_N 16 0x76fc6ece0f4e1768cddf8853bb2d551b).
Proof. vm_compute. reflexivity. Qed.

(** ** Round trip *)

Lemma to_N_byte_of_N (n : N) : n < 256 -> Byte.to_N (byte_of_N n) = n.
Proof.
  intros H. unfold byte_of_N. rewrite N.mod_small by exact H.
  destruct (Byte.of_N n) as [b|] eqn:E.
  - apply Byte.to_of_N, E.
  - apply Byte.of_N_None_iff in E. lia.
Qed.

Lemma byte_of_N_to_N (b : byte) : byte_of_N (Byte.to_N b) = b.
Proof.
  unfold byte_of_N. pose proof (Byte.to_N_bounded b) as Hb.
  rewrite N.mod_small by lia. rewrite Byte.of_to_N. reflexivity.
Qed.

Lemma lxor_below_256 (a k : N) : a < 256 -> k < 256 -> N.lxor a k < 256.
Proof.
  intros Ha Hk.
  destruct (N.eq_dec (N.lxor a k) 0) as [E | E]; [rewrite E; lia|].
  change 256 with (2 ^ 8). apply N.log2_lt_pow2; [lia|].
  eapply N.le_lt_trans; [apply N.log2_lxor|].
  apply N.max_lub_lt.
  - destruct (N.eq_dec a 0) as [-> | Ha0]; [cbn; lia|].
    apply N.log2_lt_pow2; [lia | exact Ha].
  - destruct (N.eq_dec k 0) as [-> | Hk0]; [cbn; lia|].
    apply N.log2_lt_pow2; [lia | exact Hk].
Qed.

Lemma xor_byte_involutive (b k : byte) : xor_byte (xor_byte b k) k = b.
Proof.
  unfold xor_byte.
  pose proof (Byte.to_N_bounded b) as Hb. pose proof (Byte.to_N_bounded k) as Hk.
  rewrite to_N_byte_of_N by (apply lxor_below_256; lia).
  rewrite N.lxor_assoc, N.lxor_nilpotent, N.lxor_0_r.
  apply byte_of_N_to_N.
Qed.

Lemma gctr_involutive (E : N -> N) (data : bytes) :
  forall (cb ks : N) (pos : nat),
    gctr E cb ks pos (gctr E cb ks pos data) = data.
Proof.
  induction data as [|b rest IH]; intros cb ks pos; cbn [gctr].
  - reflexivity.
  - rewrite xor_byte_involutive. f_equal.
    destruct (pos =? 15)%nat; apply IH.
Qed.

Lemma gcm_crypt_involutive (E : N -> N) (iv data : bytes) :
  gcm_crypt E iv (gcm_crypt E iv data) = data.
Proof. unfold gcm_crypt. apply gctr_involutive. Qed.

Lemma bytes_of_N_length (len : nat) (n : N) : List.length (bytes_of_N len n) = len.
Proof. induction len as [|k IH]; cbn; [reflexivity | rewrite IH; reflexivity]. Qed.

Lemma gcm_tag_length (E : N -> N) (iv ad ct : bytes) :
  List.length (gcm_tag E iv ad ct) = 16%nat.
Proof. unfold gcm_tag. apply bytes_of_N_length. Qed.

Lemma bytes_eqb_refl (a : bytes) : bytes_eqb a a = true.
Proof.
  induction a as [|x a IH]; cbn; [reflexivity|].
  rewrite IH, andb_true_r. apply Byte.byte_dec_lb. reflexivity.
Qed.

Lemma bytes_eqb_eq (a b : bytes) : bytes_eqb a b = true -> a = b.
Proof.
  revert b. induction a as [|x a IH]; intros [|y b]; cbn; try discriminate; [reflexivity|].
  intros H. apply andb_true_iff in H as [Hx Hab].
  apply Byte.byte_dec_bl in Hx. rewrite Hx, (IH b Hab). reflexivity.
Qed.

(** What was encrypted under a key decrypts under the same key. *)
Lemma cipher_decipher (key iv ad plain ct tag : bytes) :
  cipher_run key iv ad plain = Some (ct, tag) ->
  decipher_run key iv ad tag ct = Some plain.
Proof.
  unfold cipher_run, decipher_run.
  destruct (negb (List.length key =? 32)%nat); [discriminate|].
  destruct (List.length iv =? 0)%nat; [discriminate|].
  intros [= <- <-].
  rewrite firstn_all, gcm_tag_length. cbn [valid_tag_length negb Nat.eqb Nat.leb orb andb].
  rewrite bytes_eqb_refl, gcm_crypt_involutive. reflexivity.
Qed.

Lemma toy_kdf_length (password salt : bytes) (n : nat) :
  List.length (toy_kdf password salt n) = n.
Proof.
  unfold toy_kdf. rewrite length_firstn, !length_app, repeat_length. lia.
Qed.

(** With a 32-byte key and a 12-byte iv the cipher does not throw. *)
Lemma encryptBuffer_succeeds
    (scryptSync : bytes -> bytes -> nat -> bytes) (FILE_ENC_SECRET : option bytes)
    (iv buffer : bytes) (userId : N) :
  (forall password salt n, List.length (scryptSync password salt n) = n) ->
  List.length iv = 12%nat ->
  exists encrypted authTag,
    encryptBuffer scryptSync FILE_ENC_SECRET iv buffer userId
      = Some (encrypted, iv, authTag) /\
    cipher_run (derive_key scryptSync FILE_ENC_SECRET userId) iv aad buffer
      = Some (encrypted, authTag).
Proof.
  intros Hkdf Hiv. unfold encryptBuffer.
  destruct (cipher_run (derive_key scryptSync FILE_ENC_SECRET userId) iv aad buffer)
    as [[ct tag]|] eqn:E.
  - exists ct, tag. split; reflexivity.
  - exfalso. unfold cipher_run, derive_key in E. rewrite Hkdf, Hiv in E. discriminate.
Qed.

(** C1: for every byte sequence and every tenant, what [encryptBuffer]
    returns (cipher text, iv, tag) is decrypted by [decryptBuffer], called
    with the same iv, tag and tenant, to exactly the original bytes.  The
    key derivation is any function that returns the requested number of
    bytes, the secret any value of the environment variable, the iv any 12
    bytes drawn by [randomBytes]. *)
Theorem encrypt_decrypt_roundtrip
    (scryptSync : bytes -> bytes -> nat -> bytes) (FILE_ENC_SECRET : option bytes)
    (iv buffer : bytes) (userId : N) :
  (forall password salt n, List.length (scryptSync password salt n) = n) ->
  List.length iv = 12%nat ->
  exists encrypted authTag,
    encryptBuffer scryptSync FILE_ENC_SECRET iv buffer userId
      = Some (encrypted, iv, authTag) /\
    decryptBuffer scryptSync FILE_ENC_SECRET encrypted iv authTag userId
      = Some buffer.
Proof.
  intros Hkdf Hiv.
  destruct (encryptBuffer_succeeds scryptSync FILE_ENC_SECRET iv buffer userId Hkdf Hiv)
    as (ct & tag & Henc & Hrun).
  exists ct, tag. split; [exact Henc|].
  unfold decryptBuffer. apply cipher_decipher, Hrun.
Qed.

(** The round trip on the four bytes of "hola" for tenant 42. *)
Lemma encrypt_decrypt_roundtrip_witness :
  (forall password salt n, List.length (toy_kdf password salt n) = n) /\
  List.length (bytes_of_N 12 7) = 12%nat /\
  exists encrypted authTag,
    encryptBuffer toy_kdf None (bytes_of_N 12 7) (utf8 "hola") 42
      = Some (encrypted, bytes_of_N 12 7, authTag) /\
    decryptBuffer toy_kdf None encrypted (bytes_of_N 12 7) authTag 42
      = Some (utf8 "hola").
Proof.
  split; [exact toy_kdf_length|]. split; [reflexivity|].
  exact (encrypt_decrypt_roundtrip toy_kdf None (bytes_of_N 12 7) (utf8 "hola") 42
           toy_kdf_length eq_refl).
Defined.

(** Decryption for another tenant stands or falls with the derived keys
    and the tag: it returns bytes exactly when the tag recomputed under the
    other tenant's key is the stored one.  Whether that can happen is a
    property of [scryptSync] and of the cipher, not of the helpers. *)
Lemma decrypt_accepts_iff_tag
    (scryptSync : bytes -> bytes -> nat -> bytes) (FILE_ENC_SECRET : option bytes)
    (buffer iv authTag : bytes) (userId : N) :
  List.length (derive_key scryptSync FILE_ENC_SECRET userId) = 32%nat ->
  List.length iv = 12%nat ->
  List.length authTag = 16%nat ->
  (exists plain,
      decryptBuffer scryptSync FILE_ENC_SECRET buffer iv authTag userId = Some plain)
  <-> gcm_tag (aes256 (derive_key scryptSync FILE_ENC_SECRET userId)) iv aad buffer = authTag.
Proof.
  intros Hk Hiv Htag. unfold decryptBuffer, decipher_run.
  rewrite Hk, Hiv, Htag. cbn [Nat.eqb negb valid_tag_length Nat.leb orb andb].
  rewrite firstn_all2 by (rewrite gcm_tag_length; lia). split.
  - intros [plain H].
    destruct (bytes_eqb _ authTag) eqn:E; [|discriminate].
    apply bytes_eqb_eq, E.
  - intros <-. rewrite bytes_eqb_refl. eexists. reflexivity.
Qed.

(** With a key derivation that ignores the password, every tenant reads
    every other tenant's files. *)
Example shared_key_crosses_tenants :
  let kdf := fun (_ _ : bytes) (n : nat) => repeat x00 n in
  exists encrypted authTag,
    encryptBuffer kdf None (bytes_of_N 12 7) (utf8 "hola") 1
      = Some (encrypted, bytes_of_N 12 7, authTag) /\
    decryptBuffer kdf None encrypted (bytes_of_N 12 7) authTag 2 = Some (utf8 "hola").
Proof.
  cbv zeta.
  destruct (encryptBuffer_succeeds (fun _ _ n => repeat x00 n) None (bytes_of_N 12 7)
              (utf8 "hola") 1 (fun _ _ n => repeat_length x00 n) eq_refl)
    as (ct & tag & Henc & Hrun).
  exists ct, tag. split; [exact Henc|].
  unfold decryptBuffer. apply cipher_decipher. exact Hrun.
Qed.

(** With a key derivation that separates the two passwords, decryption for
    the other tenant throws on the same four bytes. *)
Example distinct_keys_reject :
  match encryptBuffer toy_kdf None (bytes_of_N 12 7) (utf8 "hola") 1 with
  | Some (encrypted, iv, authTag) => decryptBuffer toy_kdf None encrypted iv authTag 2
  | None => None
  end = None.
Proof. vm_compute. reflexivity. Qed.

End Crypto.

(* ===================================================================== *)
(** * Storage quota and upload ([checkStorageLimit], [POST /upload]) *)
(* ===================================================================== *)

Module Upload.

Import Crypto Tags.
Local Open Scope Z_scope.

(** ** Requests *)

(** [req.user], as [authenticateToken] fills it. *)
Record User : Type := {
  id : N;
  storageUsed : Z;
  storageLimit : Z
}.

(** A text field of a multipart body after multer: a string, or the array
    or object that a bracketed field name produces. *)
Inductive FieldValue : Type :=
| FText : str -> FieldValue
| FNested : FieldValue.

(** [req.body] in the handler. *)
Record UploadBody : Type := {
  b_provider : option FieldValue;
  b_invoiceNumber : option FieldValue;
  b_currency : option FieldValue;
  b_amount : option FieldValue;
  b_issueDate : option FieldValue
}.

Definition empty_body : UploadBody :=
  {| b_provider := None; b_invoiceNumber := None; b_currency := None;
     b_amount := None; b_issueDate := None |}.

(** The result of [uploadSchema.parse]. *)
Record Metadata : Type := {
  m_provider : option str;
  m_invoiceNumber : option str;
  m_currency : option str;
  m_amount : option str;
  m_issueDate : option str
}.

(** [req.file], as multer's disk storage fills it. *)
Record File : Type := {
  originalname : str;
  mimetype : str;
  size : Z;
  filename : str;
  path : str
}.

(** ** Responses *)

Inductive Response : Type :=
| Created (documentId : N) (name : str) (fileSize : Z) (ocrText : str)
| NoFile
| InvalidData
| LimitExceeded (currentUsage limit requestedSize availableSpace : Z)
| Unauthenticated
| InternalError.

Definition status (r : Response) : Z :=
  match r with
  | Created _ _ _ _ => 201
  | NoFile => 400
  | InvalidData => 400
  | LimitExceeded _ _ _ _ => 413
  | Unauthenticated => 401
  | InternalError => 500
  end.

(** ** The quota middleware *)



(** ** The world the handler acts on *)

(** A row of [documents].  [d_amount] keeps the text that the handler
    hands to [parseFloat]; [d_meta] is the object behind
    [JSON.stringify(ocrJson || {})], [None] standing for the empty object. *)
Record Document : Type := {
  d_id : N;
  d_user_id : N;
  d_filename : str;
  d_mime_type : str;
  d_byte_size : Z;
  d_storage_path : str;
  d_iv : bytes;
  d_auth_tag : bytes;
  d_status : str;
  d_provider : option str;
  d_invoice_number : option str;
  d_currency : str;
  d_amount : option str;
  d_issue_date : option str;
  d_meta : option Fields.ExtractedData
}.

(** A row of [ocr_results]. *)
Record OcrRow : Type := {
  o_document_id : N;
  o_text : str;
  o_json : option Fields.ExtractedData
}.

(** The files on disk and the tables behind [query]. *)
Record World : Type := {
  fs : gmap str bytes;
  documents : list Document;
  ocr_results : list OcrRow;
  tags : list TagRow;
  document_tags : list (N * N);
  storage_used : gmap N Z;
  next_document_id : N;
  next_tag_id : N
}.

(** The statements of the handler that can fail. *)
Inductive Statement : Type :=
| InsertDocument
| InsertOcr
| SelectTags
| UpdateUsage.

(** What the surroundings decide in one request: the bytes drawn for the
    iv, the outcome of the OCR worker ([None] when it fails) and which
    statements the database rejects. *)
Record Env : Type := {
  random_iv : bytes;
  recognize : option str;
  db_fails : Statement -> bool
}.

Inductive Error : Type :=
| ZodError
| FsError
| CryptoError
| DbError.

(** ** A state and exception monad

    Effects that happened before a throw stay in the world. *)
Definition M (A : Type) : Type := World -> (Error + A) * World.

Definition ret {A : Type} (a : A) : M A := fun w => (inr a, w).
Definition throw {A : Type} (e : Error) : M A := fun w => (inl e, w).
Definition bind {A B : Type} (m : M A) (k : A -> M B) : M B :=
  fun w =>
    match m w with
    | (inl e, w') => (inl e, w')
    | (inr a, w') => k a w'
    end.

(** [try { m } catch (e) { console.error(...) }] *)
Definition attempt (m : M unit) : M unit :=
  fun w =>
    match m w with
    | (inl _, w') => (inr tt, w')
    | r => r
    end.

Notation "'let*' x := m 'in' k" := (bind m (fun x => k))
  (at level 10, x name, m at level 100, k at level 200).
Notation "'let*' ' p := m 'in' k" := (bind m (fun p => k))
  (at level 10, p strict pattern, m at level 100, k at level 200).

Definition set_fs (f : gmap str bytes -> gmap str bytes) (w : World) : World :=
  {| fs := f (fs w); documents := documents w; ocr_results := ocr_results w;
     tags := tags w; document_tags := document_tags w;
     storage_used := storage_used w;
     next_document_id := next_document_id w; next_tag_id := next_tag_id w |}.

(** [fs.unlink(p)] *)
Definition unlink (p : str) : M unit :=
  fun w =>
    match fs w !! p with
    | Some _ => (inr tt, set_fs (delete p) w)
    | None => (inl FsError, w)
    end.

(** [fs.readFile(p)] *)
Definition readFile (p : str) : M bytes :=
  fun w =>
    match fs w !! p with
    | Some content => (inr content, w)
    | None => (inl FsError, w)
    end.

(** [fs.writeFile(p, content)] *)
Definition writeFile (p : str) (content : bytes) : M unit :=
  fun w => (inr tt, set_fs (insert p content) w).

(** ** Paths

    Node's [path] functions on POSIX paths without a trailing slash. *)

Definition slash : N := 47.
Definition dot : N := 46.

(** The part after the last slash. *)
Fixpoint last_segment (p : str) : str :=
  match p with
  | [] => []
  | c :: p' => if existsb (N.eqb slash) p' then last_segment p'
               else if (c =? slash)%N then p' else p
  end.

(** From the last dot on, when there is one. *)
Fixpoint from_last_dot (s : str) : option str :=
  match s with
  | [] => None
  | c :: s' =>
      match from_last_dot s' with
      | Some e => Some e
      | None => if (c =? dot)%N then Some s else None
      end
  end.

(** [path.extname(p)] *)
Definition extname (p : str) : str :=
  match last_segment p with
  | [] => []
  | c :: rest =>
      if str_eqb (c :: rest) (lit "..") then []
      else match from_last_dot rest with
           | Some e => e
           | None => []
           end
  end.

(** [path.basename(p, ext)] *)
Definition basename (p ext : str) : str :=
  let b := last_segment p in
  if endsWith b ext && negb (str_eqb b ext) then
    firstn (List.length b - List.length ext) b
  else b.

(** [path.dirname(p)] *)
Definition dirname (p : str) : str :=
  let d := firstn (List.length p - List.length (last_segment p) - 1) p in
  if existsb (N.eqb slash) p then (match d with [] => [slash] | _ => d end)
  else lit ".".

(** [path.join(dir, name)] for a normalized [dir] and a plain [name]. *)
Definition join (dir name : str) : str := dir ++ [slash] ++ name.

(** Where the handler stores the encrypted blob. *)
Definition encryptedFilePath (f : File) : str :=
  let storedName := basename (filename f) (extname (filename f)) ++ lit ".encrypted" in
  join (dirname (path f)) storedName.

(** ** The handler *)

(** [uploadSchema.parse(req.body)]: every field is optional and must be a
    string when present. *)
Definition parse_field (v : option FieldValue) : M (option str) :=
  match v with
  | None => ret None
  | Some (FText s) => ret (Some s)
  | Some FNested => throw ZodError
  end.

Definition uploadSchema (body : UploadBody) : M Metadata :=
  let* provider := parse_field (b_provider body) in
  let* invoiceNumber := parse_field (b_invoiceNumber body) in
  let* currency := parse_field (b_currency body) in
  let* amount := parse_field (b_amount body) in
  let* issueDate := parse_field (b_issueDate body) in
  ret {| m_provider := provider; m_invoiceNumber := invoiceNumber;
         m_currency := currency; m_amount := amount; m_issueDate := issueDate |}.

(** [x || null] on an optional string: the empty string is falsy. *)
Definition or_null (x : option str) : option str :=
  match x with
  | Some (c :: s) => Some (c :: s)
  | _ => None
  end.

(** [processOCR]: the recognized text with the fields extracted from it,
    or the empty text and [null] when the worker fails. *)
Definition processOCR (env : Env) : str * option Fields.ExtractedData :=
  match recognize env with
  | Some text => (text, Some (Fields.extractDocumentData text))
  | None => ([], None)
  end.

Definition isImage (f : File) : bool := startsWith (mimetype f) (lit "image/").

(** The text that goes into the OCR record. *)
Definition stored_ocr_text (image : bool) (ocrText : str) : str :=
  let trimmedOcr := trim (collapse_spaces ocrText) in
  let hasMeaningfulText := (20 <=? List.length trimmedOcr)%nat in
  if image && negb hasMeaningfulText then [] else ocrText.

Definition query (env : Env) (s : Statement) : M unit :=
  if db_fails env s then throw DbError else ret tt.

(** [INSERT INTO documents ...], returning [insertId]. *)
Definition insert_document (env : Env) (mk : N -> Document) : M N :=
  let* _ := query env InsertDocument in
  fun w =>
    let i := next_document_id w in
    (inr i,
     {| fs := fs w; documents := documents w ++ [mk i]; ocr_results := ocr_results w;
        tags := tags w; document_tags := document_tags w;
        storage_used := storage_used w;
        next_document_id := N.succ i; next_tag_id := next_tag_id w |}).

(** [INSERT INTO ocr_results ...] *)
Definition insert_ocr (env : Env) (r : OcrRow) : M unit :=
  let* _ := query env InsertOcr in
  fun w =>
    (inr tt,
     {| fs := fs w; documents := documents w; ocr_results := ocr_results w ++ [r];
        tags := tags w; document_tags := document_tags w;
        storage_used := storage_used w;
        next_document_id := next_document_id w; next_tag_id := next_tag_id w |}).

(** [UPDATE users SET storage_used = storage_used + ? WHERE id = ?] *)
Definition update_usage (env : Env) (delta : Z) (userId : N) : M unit :=
  let* _ := query env UpdateUsage in
  fun w =>
    (inr tt,
     {| fs := fs w; documents := documents w; ocr_results := ocr_results w;
        tags := tags w; document_tags := document_tags w;
        storage_used := alter (Z.add delta) userId (storage_used w);
        next_document_id := next_document_id w; next_tag_id := next_tag_id w |}).

(** One round of the tagging loop: upsert the tag, look its id up, link. *)
Definition link_tag (documentId : N) (norm : str) : M unit :=
  fun w =>
    let known := find (fun r => str_eqb (tag_name r) norm) (tags w) in
    let tags' :=
      match known with
      | Some _ => tags w
      | None => tags w ++ [{| tag_id := next_tag_id w; tag_name := norm |}]
      end in
    let next' := match known with Some _ => next_tag_id w | None => N.succ (next_tag_id w) end in
    let tagId := match known with Some r => tag_id r | None => next_tag_id w end in
    let links :=
      if (tagId =? 0)%N then document_tags w
      else if existsb (fun l => (fst l =? documentId)%N && (snd l =? tagId)%N) (document_tags w)
           then document_tags w
           else document_tags w ++ [(documentId, tagId)] in
    (inr tt,
     {| fs := fs w; documents := documents w; ocr_results := ocr_results w;
        tags := tags'; document_tags := links;
        storage_used := storage_used w;
        next_document_id := next_document_id w; next_tag_id := next' |}).

Section Handler.

(** Node's [scryptSync] and the secret of the environment (see [Crypto]);
    the keyword battery [inferTags] and [normalizeTagName] of the router,
    on which nothing below depends. *)
Variable scryptSync : bytes -> bytes -> nat -> bytes.
Variable FILE_ENC_SECRET : option bytes.
Variable inferTags : str -> option str -> str -> bool -> list str.
Variable normalizeTagName : str -> str.

Definition encrypt (env : Env) (buffer : bytes) (userId : N) : M (bytes * bytes * bytes) :=
  match encryptBuffer scryptSync FILE_ENC_SECRET (random_iv env) buffer userId with
  | Some r => ret r
  | None => throw CryptoError
  end.

Fixpoint link_tags (documentId : N) (existingTags : list TagRow) (inferred : list str)
    : M unit :=
  match inferred with
  | [] => ret tt
  | tagName :: rest =>
      let norm := normalizeTagName (pickSimilarExisting existingTags tagName) in
      let* _ := link_tag documentId norm in
      link_tags documentId existingTags rest
  end.

(** The auto-tagging block. *)
Definition auto_tag (env : Env) (documentId : N) (ocrText : str)
    (provider : option str) (f : File) : M unit :=
  let inferred := inferTags ocrText provider (originalname f) (isImage f) in
  let* _ := query env SelectTags in
  let* existingTags := (fun w => (inr (tags w), w)) in
  link_tags documentId existingTags inferred.

(** The [try] block of the handler, from the schema check on. *)
Definition upload_try (env : Env) (user : User) (f : File) (body : UploadBody)
    : M Response :=
  let* meta := uploadSchema body in
  let userId := id user in
  let fileSize := size f in
  let newStorageUsed := storageUsed user + fileSize in
  if newStorageUsed >? storageLimit user then
    let* _ := unlink (path f) in
    ret (LimitExceeded (storageUsed user) (storageLimit user) fileSize
           (storageLimit user - storageUsed user))
  else
    let '(ocrText, ocrJson) := if isImage f then processOCR env else ([], None) in
    let* originalBuffer := readFile (path f) in
    let* '(encrypted, iv, authTag) := encrypt env originalBuffer userId in
    let* _ := writeFile (encryptedFilePath f) encrypted in
    let* _ := unlink (path f) in
    let* documentId :=
      insert_document env (fun i =>
        {| d_id := i; d_user_id := userId; d_filename := originalname f;
           d_mime_type := mimetype f; d_byte_size := fileSize;
           d_storage_path := encryptedFilePath f; d_iv := iv; d_auth_tag := authTag;
           d_status := lit "ready";
           d_provider := or_null (m_provider meta);
           d_invoice_number := or_null (m_invoiceNumber meta);
           d_currency := match or_null (m_currency meta) with
                         | Some c => c
                         | None => lit "EUR"
                         end;
           d_amount := or_null (m_amount meta);
           d_issue_date := or_null (m_issueDate meta);
           d_meta := ocrJson |}) in
    let* _ :=
      insert_ocr env {| o_document_id := documentId;
                        o_text := stored_ocr_text (isImage f) ocrText;
                        o_json := ocrJson |} in
    let* _ := attempt (auto_tag env documentId ocrText (or_null (m_provider meta)) f) in
    let* _ := update_usage env fileSize userId in
    ret (Created documentId (originalname f) fileSize ocrText).

(** The handler of [POST /upload]: the [try] block and its [catch]. *)
Definition upload (env : Env) (user : User) (file : option File) (body : UploadBody)
    (w : World) : Response * World :=
  match file with
  | None => (NoFile, w)
  | Some f =>
      match upload_try env user f body w with
      | (inr response, w') => (response, w')
      | (inl e, w') =>
          let w'' := snd (attempt (unlink (path f)) w') in
          (match e with ZodError => InvalidData | _ => InternalError end, w'')
      end
  end.

End Handler.

(** ** The route: middleware, multer, handler *)

(** The file part of a multipart request. *)
Record Part : Type := {
  p_originalname : str;
  p_mimetype : str;
  p_content : bytes
}.


(** The directory and the unique suffix that the disk storage picks. *)
Record Storage : Type := {
  uploadDir : str;
  uniqueSuffix : str
}.


(** [req.file] for a stored part. *)
Definition stored_file (st : Storage) (p : Part) : File :=
  let name := uniqueSuffix st ++ extname (p_originalname p) in
  {| originalname := p_originalname p; mimetype := p_mimetype p;
     size := Z.of_nat (List.length (p_content p));
     filename := name; path := join (uploadDir st) name |}.

Section Route.

Variable scryptSync : bytes -> bytes -> nat -> bytes.
Variable FILE_ENC_SECRET : option bytes.
Variable inferTags : str -> option str -> str -> bool -> list str.
Variable normalizeTagName : str -> str.


End Route.

(** ** Facts about the schema *)

Definition field_ok (v : option FieldValue) : bool :=
  match v with
  | Some FNested => false
  | _ => true
  end.

Definition body_ok (b : UploadBody) : bool :=
  field_ok (b_provider b) && field_ok (b_invoiceNumber b) && field_ok (b_currency b)
  && field_ok (b_amount b) && field_ok (b_issueDate b).

Definition text_of (v : option FieldValue) : option str :=
  match v with
  | Some (FText s) => Some s
  | _ => None
  end.

Definition metadata_of (b : UploadBody) : Metadata :=
  {| m_provider := text_of (b_provider b);
     m_invoiceNumber := text_of (b_invoiceNumber b);
     m_currency := text_of (b_currency b);
     m_amount := text_of (b_amount b);
     m_issueDate := text_of (b_issueDate b) |}.

Lemma uploadSchema_valid (b : UploadBody) (w : World) :
  body_ok b = true -> uploadSchema b w = (inr (metadata_of b), w).
Proof.
  unfold body_ok, uploadSchema, metadata_of, bind.
  destruct b as [[[?|]|] [[?|]|] [[?|]|] [[?|]|] [[?|]|]]; cbn; intros H;
    try discriminate; reflexivity.
Qed.

Lemma uploadSchema_invalid (b : UploadBody) (w : World) :
  body_ok b = false -> uploadSchema b w = (inl ZodError, w).
Proof.
  unfold body_ok, uploadSchema, bind.
  destruct b as [[[?|]|] [[?|]|] [[?|]|] [[?|]|] [[?|]|]]; cbn; intros H;
    try discriminate; reflexivity.
Qed.

Lemma unlink_present (p : str) (c : bytes) (w : World) :
  fs w !! p = Some c -> unlink p w = (inr tt, set_fs (delete p) w).
Proof. intros H. unfold unlink. rewrite H. reflexivity. Qed.

Lemma unlink_absent (p : str) (w : World) :
  fs w !! p = None -> attempt (unlink p) w = (inr tt, w).
Proof. intros H. unfold attempt, unlink. rewrite H. reflexivity. Qed.

(** ** Runs of the handler *)

Section Runs.

Variable scryptSync : bytes -> bytes -> nat -> bytes.
Variable FILE_ENC_SECRET : option bytes.
Variable inferTags : str -> option str -> str -> bool -> list str.
Variable normalizeTagName : str -> str.

Local Abbreviation handler :=
  (upload scryptSync FILE_ENC_SECRET inferTags normalizeTagName).
Local Abbreviation handler_try :=
  (upload_try scryptSync FILE_ENC_SECRET inferTags normalizeTagName).

(** Invalid metadata: the catch block removes the upload and answers 400,
    whatever the size. *)
Lemma upload_invalid (env : Env) (user : User) (f : File) (body : UploadBody)
    (w : World) (content : bytes) :
  fs w !! path f = Some content ->
  body_ok body = false ->
  handler env user (Some f) body w = (InvalidData, set_fs (delete (path f)) w).
Proof.
  intros Hfile Hbody. unfold upload, upload_try, bind.
  rewrite (uploadSchema_invalid body w Hbody).
  unfold attempt. rewrite (unlink_present _ _ _ Hfile). reflexivity.
Qed.

(** Valid metadata and a size over the remaining quota: the handler removes
    the upload and answers 413. *)
Lemma upload_over_quota (env : Env) (user : User) (f : File) (body : UploadBody)
    (w : World) (content : bytes) :
  fs w !! path f = Some content ->
  body_ok body = true ->
  storageUsed user + size f > storageLimit user ->
  handler env user (Some f) body w =
    (LimitExceeded (storageUsed user) (storageLimit user) (size f)
       (storageLimit user - storageUsed user),
     set_fs (delete (path f)) w).
Proof.
  intros Hfile Hbody Hover. unfold upload, upload_try, bind.
  rewrite (uploadSchema_valid body w Hbody).
  replace (storageUsed user + size f >? storageLimit user) with true
    by (symmetry; apply Z.gtb_lt; lia).
  rewrite (unlink_present _ _ _ Hfile). reflexivity.
Qed.

(** The persistence failure: the upload is valid and within quota, the
    blob is written, the original removed, and [INSERT INTO documents]
    throws.  The catch block finds nothing left at the upload's path. *)
Lemma upload_insert_fails (env : Env) (user : User) (f : File) (body : UploadBody)
    (w : World) (content encrypted iv authTag : bytes) :
  fs w !! path f = Some content ->
  body_ok body = true ->
  storageUsed user + size f <= storageLimit user ->
  encryptBuffer scryptSync FILE_ENC_SECRET (random_iv env) content (id user)
    = Some (encrypted, iv, authTag) ->
  db_fails env InsertDocument = true ->
  handler env user (Some f) body w =
    (InternalError,
     set_fs (delete (path f)) (set_fs (insert (encryptedFilePath f) encrypted) w)).
Proof.
  intros Hfile Hbody Hquota Henc Hdb. unfold upload, upload_try, bind.
  rewrite (uploadSchema_valid body w Hbody).
  replace (storageUsed user + size f >? storageLimit user) with false
    by (symmetry; rewrite Z.gtb_ltb; apply Z.ltb_ge; lia).
  destruct (if isImage f then processOCR env else ([], None)) as [ocrText ocrJson].
  unfold readFile. rewrite Hfile. unfold encrypt. rewrite Henc. unfold ret, writeFile.
  assert (Hstill : fs (set_fs (insert (encryptedFilePath f) encrypted) w) !! path f
                   = Some (if decide (encryptedFilePath f = path f) then encrypted else content)).
  { cbn [fs set_fs]. rewrite lookup_insert. destruct (decide _); [reflexivity | exact Hfile]. }
  rewrite (unlink_present _ _ _ Hstill).
  unfold insert_document, bind, query. rewrite Hdb. unfold throw.
  rewrite unlink_absent; [reflexivity|].
  cbn [fs set_fs]. apply lookup_delete_eq.
Qed.

End Runs.

(** ** The OCR record *)

Lemma bind_inv {A B : Type} (m : M A) (k : A -> M B) (w : World)
    (r : Error + B) (w' : World) :
  bind m k w = (r, w') ->
  (exists e, m w = (inl e, w') /\ r = inl e) \/
  (exists a w1, m w = (inr a, w1) /\ k a w1 = (r, w')).
Proof.
  unfold bind. destruct (m w) as [[e | a] w1]; intros H.
  - left. injection H as <- <-. exists e. split; reflexivity.
  - right. exists a, w1. split; [reflexivity | exact H].
Qed.

(** A computation that leaves the OCR table as it found it. *)
Definition keeps_ocr {A : Type} (m : M A) : Prop :=
  forall w r w', m w = (r, w') -> ocr_results w' = ocr_results w.

Lemma keeps_ret {A : Type} (a : A) : keeps_ocr (ret a).
Proof. intros w r w' [= _ <-]. reflexivity. Qed.

Lemma keeps_throw {A : Type} (e : Error) : keeps_ocr (@throw A e).
Proof. intros w r w' [= _ <-]. reflexivity. Qed.

Lemma keeps_bind {A B : Type} (m : M A) (k : A -> M B) :
  keeps_ocr m -> (forall a, keeps_ocr (k a)) -> keeps_ocr (bind m k).
Proof.
  intros Hm Hk w r w' H. apply bind_inv in H.
  destruct H as [(e & H & _) | (a & w1 & H1 & H2)].
  - exact (Hm _ _ _ H).
  - rewrite (Hk a _ _ _ H2). exact (Hm _ _ _ H1).
Qed.

Lemma keeps_attempt (m : M unit) : keeps_ocr m -> keeps_ocr (attempt m).
Proof.
  intros Hm w r w' H. unfold attempt in H.
  destruct (m w) as [[e | []] w1] eqn:E; injection H as _ <-; exact (Hm _ _ _ E).
Qed.

Lemma keeps_unlink (p : str) : keeps_ocr (unlink p).
Proof.
  intros w r w' H. unfold unlink in H.
  destruct (fs w !! p); injection H as _ <-; reflexivity.
Qed.

Lemma keeps_readFile (p : str) : keeps_ocr (readFile p).
Proof.
  intros w r w' H. unfold readFile in H.
  destruct (fs w !! p); injection H as _ <-; reflexivity.
Qed.

Lemma keeps_writeFile (p : str) (c : bytes) : keeps_ocr (writeFile p c).
Proof. intros w r w' [= _ <-]. reflexivity. Qed.

Lemma keeps_query (env : Env) (s : Statement) : keeps_ocr (query env s).
Proof. unfold query. destruct (db_fails env s); [apply keeps_throw | apply keeps_ret]. Qed.

Lemma keeps_insert_document (env : Env) (mk : N -> Document) :
  keeps_ocr (insert_document env mk).
Proof.
  apply keeps_bind; [apply keeps_query|]. intros _ w r w' [= _ <-]. reflexivity.
Qed.

Lemma insert_ocr_inv (env : Env) (r : OcrRow) (w : World) (res : Error + unit)
    (w' : World) :
  insert_ocr env r w = (res, w') ->
  (res = inl DbError /\ w' = w) \/
  (res = inr tt /\ ocr_results w' = ocr_results w ++ [r]).
Proof.
  unfold insert_ocr, bind, query. destruct (db_fails env InsertOcr); cbn.
  - intros [= <- <-]. left. split; reflexivity.
  - intros [= <- <-]. right. split; reflexivity.
Qed.

Lemma keeps_update_usage (env : Env) (delta : Z) (userId : N) :
  keeps_ocr (update_usage env delta userId).
Proof.
  apply keeps_bind; [apply keeps_query|]. intros _ w r w' [= _ <-]. reflexivity.
Qed.

Lemma keeps_link_tag (documentId : N) (norm : str) : keeps_ocr (link_tag documentId norm).
Proof. intros w r w' [= _ <-]. reflexivity. Qed.

Lemma keeps_uploadSchema (body : UploadBody) : keeps_ocr (uploadSchema body).
Proof.
  intros w r w' H. destruct (body_ok body) eqn:E.
  - rewrite (uploadSchema_valid body w E) in H. injection H as _ <-. reflexivity.
  - rewrite (uploadSchema_invalid body w E) in H. injection H as _ <-. reflexivity.
Qed.

Section OcrRecord.

Variable scryptSync : bytes -> bytes -> nat -> bytes.
Variable FILE_ENC_SECRET : option bytes.
Variable inferTags : str -> option str -> str -> bool -> list str.
Variable normalizeTagName : str -> str.

Lemma keeps_encrypt (env : Env) (buffer : bytes) (userId : N) :
  keeps_ocr (encrypt scryptSync FILE_ENC_SECRET env buffer userId).
Proof.
  unfold encrypt. destruct (encryptBuffer _ _ _ _ _); [apply keeps_ret | apply keeps_throw].
Qed.

Lemma keeps_link_tags (documentId : N) (existingTags : list TagRow) (inferred : list str) :
  keeps_ocr (link_tags normalizeTagName documentId existingTags inferred).
Proof.
  induction inferred as [|t rest IH]; cbn [link_tags].
  - apply keeps_ret.
  - apply keeps_bind; [apply keeps_link_tag | intros _; exact IH].
Qed.

Lemma keeps_auto_tag (env : Env) (documentId : N) (ocrText : str)
    (provider : option str) (f : File) :
  keeps_ocr (auto_tag inferTags normalizeTagName env documentId ocrText provider f).
Proof.
  unfold auto_tag. apply keeps_bind; [apply keeps_query | intros _].
  apply keeps_bind; [intros w r w' [= _ <-]; reflexivity | intros existing].
  apply keeps_link_tags.
Qed.

(** The OCR text of a request: what the worker recognized for an image,
    the empty text otherwise or when the worker failed. *)
Definition ocr_text_of (env : Env) (f : File) : str :=
  fst (if isImage f then processOCR env else ([], None)).

(** A run of the handler stores at most one OCR record, and its text is
    [stored_ocr_text] of the request's OCR text. *)
Lemma upload_ocr_record (env : Env) (user : User) (file : option File)
    (body : UploadBody) (w : World) :
  let w' := snd (upload scryptSync FILE_ENC_SECRET inferTags normalizeTagName
                   env user file body w) in
  ocr_results w' = ocr_results w \/
  exists f r,
    file = Some f /\
    ocr_results w' = ocr_results w ++ [r] /\
    o_text r = stored_ocr_text (isImage f) (ocr_text_of env f).
Proof.
  cbv zeta. destruct file as [f|]; [|left; reflexivity].
  unfold upload.
  destruct (upload_try _ _ _ _ _ _ _ _ w) as [res w1] eqn:Htry.
  assert (Hcatch : forall w2, ocr_results (snd (attempt (unlink (path f)) w2)) = ocr_results w2).
  { intros w2. destruct (attempt (unlink (path f)) w2) as [r2 w3] eqn:E.
    exact (keeps_attempt _ (keeps_unlink _) _ _ _ E). }
  assert (Hgoal : ocr_results w1 = ocr_results w \/
                  exists r, ocr_results w1 = ocr_results w ++ [r] /\
                            o_text r = stored_ocr_text (isImage f) (ocr_text_of env f)).
  { unfold upload_try in Htry.
    apply bind_inv in Htry. destruct Htry as [(e & H & _) | (meta & w2 & Hs & Htry)].
    { left. exact (keeps_uploadSchema _ _ _ _ H). }
    apply keeps_uploadSchema in Hs.
    destruct (storageUsed user + size f >? storageLimit user).
    { left. rewrite <- Hs. revert Htry.
      apply (keeps_bind _ _ (keeps_unlink _)). intros _. apply keeps_ret. }
    unfold ocr_text_of.
    destruct (if isImage f then processOCR env else ([], None)) as [ocrText ocrJson].
    cbn [fst].
    apply bind_inv in Htry. destruct Htry as [(e & H & _) | (buf & w3 & H3 & Htry)].
    { left. rewrite <- Hs. exact (keeps_readFile _ _ _ _ H). }
    apply keeps_readFile in H3.
    apply bind_inv in Htry. destruct Htry as [(e & H & _) | ([[enc iv] tag] & w4 & H4 & Htry)].
    { left. rewrite <- Hs, <- H3. exact (keeps_encrypt _ _ _ _ _ _ H). }
    apply keeps_encrypt in H4.
    apply bind_inv in Htry. destruct Htry as [(e & H & _) | (? & w5 & H5 & Htry)].
    { left. rewrite <- Hs, <- H3, <- H4. exact (keeps_writeFile _ _ _ _ _ H). }
    apply keeps_writeFile in H5.
    apply bind_inv in Htry. destruct Htry as [(e & H & _) | (? & w6 & H6 & Htry)].
    { left. rewrite <- Hs, <- H3, <- H4, <- H5. exact (keeps_unlink _ _ _ _ H). }
    apply keeps_unlink in H6.
    apply bind_inv in Htry. destruct Htry as [(e & H & _) | (docId & w7 & H7 & Htry)].
    { left. rewrite <- Hs, <- H3, <- H4, <- H5, <- H6.
      exact (keeps_insert_document _ _ _ _ _ H). }
    apply keeps_insert_document in H7.
    assert (H07 : ocr_results w7 = ocr_results w) by congruence.
    apply bind_inv in Htry. destruct Htry as [(e & H & _) | (? & w8 & H8 & Htry)].
    { left. apply insert_ocr_inv in H. destruct H as [[_ ->] | [H _]]; [exact H07 | discriminate]. }
    apply insert_ocr_inv in H8. destruct H8 as [[H8 _] | [_ H8]]; [discriminate|].
    right.
    exists {| o_document_id := docId; o_text := stored_ocr_text (isImage f) ocrText;
              o_json := ocrJson |}.
    split; [|reflexivity].
    rewrite <- H07, <- H8.
    revert Htry.
    apply keeps_bind; [apply keeps_attempt, keeps_auto_tag | intros _].
    apply keeps_bind; [apply keeps_update_usage | intros _; apply keeps_ret]. }
  destruct res as [e | response]; cbn [snd].
  - rewrite Hcatch. destruct Hgoal as [H | (r & H1 & H2)].
    + left; exact H.
    + right. exists f, r. repeat split; assumption.
  - destruct Hgoal as [H | (r & H1 & H2)].
    + left; exact H.
    + right. exists f, r. repeat split; assumption.
Qed.

End OcrRecord.

(** ** Concrete requests *)

Definition no_tags (_ : str) (_ : option str) (_ : str) (_ : bool) : list str := [].
Definition keep_name (s : str) : str := s.

(** The tenant of the specification's scenario: nothing used, a limit of
    1000 bytes. *)
Definition tenant : User := {| id := 7; storageUsed := 0; storageLimit := 1000 |}.

Definition storage : Storage :=
  {| uploadDir := lit "/srv/uploads/7/2024/03"; uniqueSuffix := lit "1710500000000-42" |}.

Definition empty_world : World :=
  {| fs := ∅; documents := []; ocr_results := []; tags := []; document_tags := [];
     storage_used := {[ 7%N := 0 ]}; next_document_id := 1; next_tag_id := 1 |}.

(** A 2048-byte image. *)
Definition big_image : Part :=
  {| p_originalname := lit "ticket.png"; p_mimetype := lit "image/png";
     p_content := repeat x00 2048 |}.

(** A 12-byte image. *)
Definition small_image : Part :=
  {| p_originalname := lit "factura.png"; p_mimetype := lit "image/png";
     p_content := utf8 "not-a-bitmap" |}.

Definition on_disk (p : Part) (w : World) : World :=
  set_fs (insert (path (stored_file storage p)) (p_content p)) w.

Definition calm (text : option str) : Env :=
  {| random_iv := bytes_of_N 12 7; recognize := text; db_fails := fun _ => false |}.

Definition insert_rejected : Env :=
  {| random_iv := bytes_of_N 12 7; recognize := None;
     db_fails := fun s => match s with InsertDocument => true | _ => false end |}.

Definition nested_provider : UploadBody :=
  {| b_provider := Some FNested; b_invoiceNumber := None; b_currency := None;
     b_amount := None; b_issueDate := None |}.

Lemma on_disk_present (p : Part) (w : World) :
  fs (on_disk p w) !! path (stored_file storage p) = Some (p_content p).
Proof. unfold on_disk. cbn [fs set_fs]. apply lookup_insert_eq. Qed.

(** ** Quota rejection after the upload was read *)

(** C3, as stated, fails: the 2048-byte upload under the 1000-byte limit is
    answered 400, not 413, when a metadata field is not a string; the
    schema check comes first. *)
Lemma over_quota_invalid_metadata_is_400 :
  ~ (forall (env : Env) (user : User) (f : File) (body : UploadBody) (w : World)
            (content : bytes),
        fs w !! path f = Some content ->
        storageUsed user + size f > storageLimit user ->
        status (fst (upload toy_kdf None no_tags keep_name env user (Some f) body w))
          = 413).
Proof.
  intros H.
  specialize (H (calm None) tenant (stored_file storage big_image) nested_provider
                (on_disk big_image empty_world) (p_content big_image)
                (on_disk_present big_image empty_world)).
  rewrite (upload_invalid toy_kdf None no_tags keep_name (calm None) tenant
             (stored_file storage big_image) nested_provider
             (on_disk big_image empty_world) (p_content big_image)
             (on_disk_present big_image empty_world) eq_refl) in H.
  cbn [fst status] in H.
  assert (Hover : storageUsed tenant + size (stored_file storage big_image)
                  > storageLimit tenant) by (vm_compute; reflexivity).
  specialize (H Hover). discriminate.
Qed.

(** C3 (amended): for every upload whose true size added to the tenant's
    current usage exceeds the limit, the handler answers 413 when the
    metadata fields pass the schema (400 when one does not), deletes the
    uploaded file, persists no Document row and no other row, and leaves the
    recorded storage usage unchanged. *)
Theorem upload_quota_rejection
    (scryptSync : bytes -> bytes -> nat -> bytes) (FILE_ENC_SECRET : option bytes)
    (inferTags : str -> option str -> str -> bool -> list str)
    (normalizeTagName : str -> str)
    (env : Env) (user : User) (f : File) (body : UploadBody) (w : World)
    (content : bytes) :
  fs w !! path f = Some content ->
  storageUsed user + size f > storageLimit user ->
  let '(response, w') :=
    upload scryptSync FILE_ENC_SECRET inferTags normalizeTagName env user (Some f) body w in
  status response = (if body_ok body then 413 else 400) /\
  (body_ok body = true ->
   response = LimitExceeded (storageUsed user) (storageLimit user) (size f)
                (storageLimit user - storageUsed user)) /\
  fs w' = delete (path f) (fs w) /\
  documents w' = documents w /\
  ocr_results w' = ocr_results w /\
  tags w' = tags w /\
  document_tags w' = document_tags w /\
  storage_used w' = storage_used w.
Proof.
  intros Hfile Hover. destruct (body_ok body) eqn:Hbody.
  - rewrite (upload_over_quota _ _ _ _ _ _ _ _ _ _ Hfile Hbody Hover).
    repeat split; reflexivity.
  - rewrite (upload_invalid _ _ _ _ _ _ _ _ _ _ Hfile Hbody).
    repeat split; try reflexivity. discriminate.
Qed.

(** The scenario of the specification: 2048 bytes, 0 used, limit 1000. *)
Lemma upload_quota_rejection_witness :
  fs (on_disk big_image empty_world) !! path (stored_file storage big_image)
    = Some (p_content big_image) /\
  storageUsed tenant + size (stored_file storage big_image) > storageLimit tenant /\
  let '(response, w') :=
    upload toy_kdf None no_tags keep_name (calm None) tenant
      (Some (stored_file storage big_image)) empty_body (on_disk big_image empty_world) in
  status response = 413 /\
  fs w' = delete (path (stored_file storage big_image)) (fs (on_disk big_image empty_world)) /\
  documents w' = [] /\
  storage_used w' = {[ 7%N := 0 ]}.
Proof.
  split; [apply on_disk_present|]. split; [vm_compute; reflexivity|].
  pose proof (upload_quota_rejection toy_kdf None no_tags keep_name (calm None) tenant
                (stored_file storage big_image) empty_body (on_disk big_image empty_world)
                (p_content big_image) (on_disk_present big_image empty_world)
                ltac:(vm_compute; reflexivity)) as H.
  destruct (upload toy_kdf None no_tags keep_name (calm None) tenant
              (Some (stored_file storage big_image)) empty_body
              (on_disk big_image empty_world)) as [response w'].
  destruct H as (Hs & _ & Hfs & Hd & _ & _ & _ & Hu).
  split; [exact Hs|]. split; [exact Hfs|]. split; [exact Hd | exact Hu].
Defined.

(** ** Persistence failure after encryption *)

(** C4 (what the code does): when the Document INSERT fails, for an upload
    with valid metadata within quota whose blob path differs from the
    upload's path, the handler answers 500 and persists no Document row, but
    the encrypted blob written during the attempt stays on disk: the catch
    block unlinks only the upload's own path, which is already gone. *)
Theorem upload_persistence_failure_leaves_blob
    (scryptSync : bytes -> bytes -> nat -> bytes) (FILE_ENC_SECRET : option bytes)
    (inferTags : str -> option str -> str -> bool -> list str)
    (normalizeTagName : str -> str)
    (env : Env) (user : User) (f : File) (body : UploadBody) (w : World)
    (content : bytes) :
  (forall password salt n, List.length (scryptSync password salt n) = n) ->
  List.length (random_iv env) = 12%nat ->
  fs w !! path f = Some content ->
  body_ok body = true ->
  storageUsed user + size f <= storageLimit user ->
  db_fails env InsertDocument = true ->
  encryptedFilePath f <> path f ->
  let '(response, w') :=
    upload scryptSync FILE_ENC_SECRET inferTags normalizeTagName env user (Some f) body w in
  response = InternalError /\
  documents w' = documents w /\
  storage_used w' = storage_used w /\
  fs w' !! path f = None /\
  exists encrypted authTag,
    encryptBuffer scryptSync FILE_ENC_SECRET (random_iv env) content (id user)
      = Some (encrypted, random_iv env, authTag) /\
    fs w' !! encryptedFilePath f = Some encrypted.
Proof.
  intros Hkdf Hiv Hfile Hbody Hquota Hdb Hpaths.
  destruct (encryptBuffer_succeeds scryptSync FILE_ENC_SECRET (random_iv env) content
              (id user) Hkdf Hiv) as (encrypted & authTag & Henc & _).
  rewrite (upload_insert_fails _ _ inferTags normalizeTagName _ _ _ _ _ _ _ _ _
             Hfile Hbody Hquota Henc Hdb).
  split; [reflexivity|]. split; [reflexivity|]. split; [reflexivity|].
  cbn [fs set_fs]. split; [apply lookup_delete_eq|].
  exists encrypted, authTag. split; [exact Henc|].
  rewrite lookup_delete_ne by (intros E; apply Hpaths; symmetry; exact E).
  apply lookup_insert_eq.
Qed.

Lemma small_image_paths :
  encryptedFilePath (stored_file storage small_image) <> path (stored_file storage small_image).
Proof. intros H. vm_compute in H. discriminate. Qed.

(** The failing attempt: a 12-byte image, the INSERT rejected. *)
Lemma upload_persistence_failure_leaves_blob_witness :
  let f := stored_file storage small_image in
  let '(response, w') :=
    upload toy_kdf None no_tags keep_name insert_rejected tenant (Some f) empty_body
      (on_disk small_image empty_world) in
  response = InternalError /\
  documents w' = [] /\
  fs w' !! path f = None /\
  exists encrypted, fs w' !! encryptedFilePath f = Some encrypted.
Proof.
  cbv zeta.
  pose proof (upload_persistence_failure_leaves_blob toy_kdf None no_tags keep_name
                insert_rejected tenant (stored_file storage small_image) empty_body
                (on_disk small_image empty_world) (p_content small_image)
                toy_kdf_length eq_refl (on_disk_present small_image empty_world)
                eq_refl ltac:(vm_compute; discriminate) eq_refl small_image_paths) as H.
  destruct (upload toy_kdf None no_tags keep_name insert_rejected tenant
              (Some (stored_file storage small_image)) empty_body
              (on_disk small_image empty_world)) as [response w'].
  destruct H as (Hr & Hd & _ & Hp & encrypted & _ & _ & He).
  split; [exact Hr|]. split; [exact Hd|]. split; [exact Hp|].
  exists encrypted. exact He.
Defined.

(** ** The pre-upload check *)



(** ** The stored OCR text *)

Lemma stored_ocr_text_image (text : str) :
  let trimmed := trim (collapse_spaces text) in
  (stored_ocr_text true text = [] <-> (List.length trimmed < 20)%nat) /\
  ((20 <= List.length trimmed)%nat -> stored_ocr_text true text = text).
Proof.
  cbv zeta. unfold stored_ocr_text. cbn [andb].
  destruct (20 <=? List.length (trim (collapse_spaces text)))%nat eqn:E; cbn [negb].
  - apply Nat.leb_le in E. split; [|intros _; reflexivity].
    split; [|lia]. intros ->. cbn in E. lia.
  - apply Nat.leb_gt in E. split; [|lia]. split; [intros _; exact E | reflexivity].
Qed.

End Upload.

(* ===================================================================== *)
(** * Stored documents: what an upload leaves, download, preview, delete *)
(* ===================================================================== *)

Module Documents.

Import Crypto Tags Upload.
Local Open Scope Z_scope.

(** ** What the tagging block cannot touch *)

(** Files, documents, OCR records, usage counters and the document id
    counter. *)
Definition core (w : World)
    : gmap str bytes * list Document * list OcrRow * gmap N Z * N :=
  (fs w, documents w, ocr_results w, storage_used w, next_document_id w).

Definition keeps_core {A : Type} (m : M A) : Prop :=
  forall w r w', m w = (r, w') -> core w' = core w.

Lemma keeps_core_ret {A : Type} (a : A) : keeps_core (ret a).
Proof. intros w r w' [= _ <-]. reflexivity. Qed.

Lemma keeps_core_throw {A : Type} (e : Error) : keeps_core (@throw A e).
Proof. intros w r w' [= _ <-]. reflexivity. Qed.

Lemma keeps_core_bind {A B : Type} (m : M A) (k : A -> M B) :
  keeps_core m -> (forall a, keeps_core (k a)) -> keeps_core (bind m k).
Proof.
  intros Hm Hk w r w' H. apply bind_inv in H.
  destruct H as [(e & H & _) | (a & w1 & H1 & H2)].
  - exact (Hm _ _ _ H).
  - rewrite (Hk a _ _ _ H2). exact (Hm _ _ _ H1).
Qed.

Lemma keeps_core_query (env : Env) (s : Statement) : keeps_core (query env s).
Proof.
  unfold query. destruct (db_fails env s); [apply keeps_core_throw | apply keeps_core_ret].
Qed.

Lemma keeps_core_link_tag (documentId : N) (norm : str) :
  keeps_core (link_tag documentId norm).
Proof. intros w r w' [= _ <-]. reflexivity. Qed.

Lemma keeps_core_link_tags (normalizeTagName : str -> str) (documentId : N)
    (existingTags : list TagRow) (inferred : list str) :
  keeps_core (link_tags normalizeTagName documentId existingTags inferred).
Proof.
  induction inferred as [|t rest IH]; cbn [link_tags].
  - apply keeps_core_ret.
  - apply keeps_core_bind; [apply keeps_core_link_tag | intros _; exact IH].
Qed.

Lemma keeps_core_auto_tag (inferTags : str -> option str -> str -> bool -> list str)
    (normalizeTagName : str -> str) (env : Env) (documentId : N) (ocrText : str)
    (provider : option str) (f : File) :
  keeps_core (auto_tag inferTags normalizeTagName env documentId ocrText provider f).
Proof.
  unfold auto_tag. apply keeps_core_bind; [apply keeps_core_query | intros _].
  apply keeps_core_bind; [intros w r w' [= _ <-]; reflexivity | intros existing].
  apply keeps_core_link_tags.
Qed.

(** The tagging block never fails the request and leaves the core alone. *)
Lemma attempt_auto_tag (inferTags : str -> option str -> str -> bool -> list str)
    (normalizeTagName : str -> str) (env : Env) (documentId : N) (ocrText : str)
    (provider : option str) (f : File) (w : World) :
  exists w',
    attempt (auto_tag inferTags normalizeTagName env documentId ocrText provider f) w
      = (inr tt, w') /\
    core w' = core w.
Proof.
  unfold attempt.
  destruct (auto_tag inferTags normalizeTagName env documentId ocrText provider f w)
    as [[e | []] w'] eqn:E; exists w'; (split; [reflexivity|]);
    exact (keeps_core_auto_tag _ _ _ _ _ _ _ _ _ _ E).
Qed.

(** ** A successful upload *)

(** The row that the handler inserts for an upload. *)
Definition document_row (user : User) (f : File) (meta : Metadata)
    (iv authTag : bytes) (ocrJson : option Fields.ExtractedData) (i : N) : Document :=
  {| d_id := i; d_user_id := id user; d_filename := originalname f;
     d_mime_type := mimetype f; d_byte_size := size f;
     d_storage_path := encryptedFilePath f; d_iv := iv; d_auth_tag := authTag;
     d_status := lit "ready";
     d_provider := or_null (m_provider meta);
     d_invoice_number := or_null (m_invoiceNumber meta);
     d_currency := match or_null (m_currency meta) with
                   | Some c => c
                   | None => lit "EUR"
                   end;
     d_amount := or_null (m_amount meta);
     d_issue_date := or_null (m_issueDate meta);
     d_meta := ocrJson |}.

(** The OCR text and extracted fields of a request. *)
Definition ocr_of (env : Env) (f : File) : str * option Fields.ExtractedData :=
  if isImage f then processOCR env else ([], None).

Section Created.

Variable scryptSync : bytes -> bytes -> nat -> bytes.
Variable FILE_ENC_SECRET : option bytes.
Variable inferTags : str -> option str -> str -> bool -> list str.
Variable normalizeTagName : str -> str.

Local Abbreviation handler :=
  (upload scryptSync FILE_ENC_SECRET inferTags normalizeTagName).

(** The run of the handler when nothing fails up to the tagging block:
    the response and the core of the world afterwards. *)
Lemma upload_created (env : Env) (user : User) (f : File) (body : UploadBody)
    (w : World) (content encrypted iv authTag : bytes) :
  fs w !! path f = Some content ->
  body_ok body = true ->
  storageUsed user + size f <= storageLimit user ->
  encryptBuffer scryptSync FILE_ENC_SECRET (random_iv env) content (id user)
    = Some (encrypted, iv, authTag) ->
  db_fails env InsertDocument = false ->
  db_fails env InsertOcr = false ->
  db_fails env UpdateUsage = false ->
  exists w',
    handler env user (Some f) body w
      = (Created (next_document_id w) (originalname f) (size f) (fst (ocr_of env f)), w') /\
    fs w' = delete (path f) (insert (encryptedFilePath f) encrypted (fs w)) /\
    documents w' =
      documents w ++
      [document_row user f (metadata_of body) iv authTag (snd (ocr_of env f))
         (next_document_id w)] /\
    ocr_results w' =
      ocr_results w ++
      [{| o_document_id := next_document_id w;
          o_text := stored_ocr_text (isImage f) (fst (ocr_of env f));
          o_json := snd (ocr_of env f) |}] /\
    storage_used w' = alter (Z.add (size f)) (id user) (storage_used w) /\
    next_document_id w' = N.succ (next_document_id w).
Proof.
  intros Hfile Hbody Hquota Henc Hdoc Hocr Husage.
  unfold upload, upload_try, bind, ocr_of.
  rewrite (uploadSchema_valid body w Hbody).
  replace (storageUsed user + size f >? storageLimit user) with false
    by (symmetry; rewrite Z.gtb_ltb; apply Z.ltb_ge; lia).
  destruct (if isImage f then processOCR env else ([], None)) as [ocrText ocrJson].
  unfold readFile. rewrite Hfile. unfold encrypt. rewrite Henc. unfold ret, writeFile.
  assert (Hstill : fs (set_fs (insert (encryptedFilePath f) encrypted) w) !! path f
                   = Some (if decide (encryptedFilePath f = path f) then encrypted else content)).
  { cbn [fs set_fs]. rewrite lookup_insert. destruct (decide _); [reflexivity | exact Hfile]. }
  rewrite (unlink_present _ _ _ Hstill).
  unfold insert_document, insert_ocr, bind, query. rewrite Hdoc, Hocr. unfold ret.
  match goal with
  | |- context [attempt (auto_tag ?i ?n ?e ?d ?t ?p ?f0) ?w0] =>
      destruct (attempt_auto_tag i n e d t p f0 w0) as (w6 & -> & Hcore)
  end.
  unfold update_usage, bind, query. rewrite Husage. unfold ret.
  eexists. split; [reflexivity|].
  cbn [fs documents ocr_results storage_used next_document_id fst snd].
  unfold core in Hcore. cbn [fs documents ocr_results storage_used next_document_id set_fs]
    in Hcore.
  injection Hcore as -> -> -> -> ->.
  repeat split; reflexivity.
Qed.

(** A 201 is answered only at the end of the handler: every step before
    it has succeeded. *)
Lemma upload_created_inv (env : Env) (user : User) (f : File) (body : UploadBody)
    (w : World) :
  status (fst (handler env user (Some f) body w)) = 201 ->
  exists content encrypted iv authTag,
    fs w !! path f = Some content /\
    body_ok body = true /\
    storageUsed user + size f <= storageLimit user /\
    encryptBuffer scryptSync FILE_ENC_SECRET (random_iv env) content (id user)
      = Some (encrypted, iv, authTag) /\
    db_fails env InsertDocument = false /\
    db_fails env InsertOcr = false /\
    db_fails env UpdateUsage = false.
Proof.
  unfold upload, upload_try, bind. intros H.
  destruct (body_ok body) eqn:B;
    [|rewrite (uploadSchema_invalid body w B) in H; cbn [fst status] in H; discriminate H].
  rewrite (uploadSchema_valid body w B) in H.
  destruct (storageUsed user + size f >? storageLimit user) eqn:Q.
  { unfold unlink, ret in H. destruct (fs w !! path f); cbn [fst status] in H;
      discriminate H. }
  rewrite Z.gtb_ltb in Q. apply Z.ltb_ge in Q.
  destruct (if isImage f then processOCR env else ([], None)) as [ocrText ocrJson].
  unfold readFile in H.
  destruct (fs w !! path f) as [content|] eqn:F; [|cbn [fst status] in H; discriminate H].
  unfold encrypt in H.
  destruct (encryptBuffer scryptSync FILE_ENC_SECRET (random_iv env) content (id user))
    as [[[encrypted iv] authTag]|] eqn:E;
    [|unfold throw in H; cbn [fst status] in H; discriminate H].
  unfold ret, writeFile in H.
  assert (Hstill : fs (set_fs (insert (encryptedFilePath f) encrypted) w) !! path f
                   = Some (if decide (encryptedFilePath f = path f) then encrypted else content)).
  { cbn [fs set_fs]. rewrite lookup_insert. destruct (decide _); [reflexivity | exact F]. }
  rewrite (unlink_present _ _ _ Hstill) in H.
  unfold insert_document, insert_ocr, bind, query in H.
  destruct (db_fails env InsertDocument) eqn:D1;
    [unfold throw in H; cbn [fst status] in H; discriminate H|].
  unfold ret in H.
  destruct (db_fails env InsertOcr) eqn:D2;
    [unfold throw in H; cbn [fst status] in H; discriminate H|].
  unfold ret in H.
  match type of H with
  | context [attempt (auto_tag ?i ?n ?e ?d ?t ?p ?f0) ?w0] =>
      destruct (attempt_auto_tag i n e d t p f0 w0) as (w6 & Ht & _); rewrite Ht in H
  end.
  unfold update_usage, bind, query in H.
  destruct (db_fails env UpdateUsage) eqn:D3;
    [unfold throw in H; cbn [fst status] in H; discriminate H|].
  exists content, encrypted, iv, authTag. repeat split; assumption.
Qed.

End Created.

(** ** The stored OCR text *)

(** C10: for every image upload that the handler answers with 201, one OCR
    record is stored for the new document, and it holds the empty string
    exactly when the OCR text, with white space collapsed and trimmed, is
    shorter than 20 characters; otherwise it holds the OCR text
    unmodified.  No run of the handler stores any other OCR record; and
    the answer is 201 whenever the upload is on disk, the metadata is
    valid, the file fits the quota, and the two inserts and the usage
    update do not fail. *)
Theorem image_ocr_text_stored
    (scryptSync : bytes -> bytes -> nat -> bytes) (FILE_ENC_SECRET : option bytes)
    (inferTags : str -> option str -> str -> bool -> list str)
    (normalizeTagName : str -> str)
    (env : Env) (user : User) (f : File) (body : UploadBody) (w : World) :
  isImage f = true ->
  let ocrText := fst (processOCR env) in
  let trimmedOcr := trim (collapse_spaces ocrText) in
  let '(response, w') :=
    upload scryptSync FILE_ENC_SECRET inferTags normalizeTagName env user (Some f) body w in
  (status response = 201 ->
   exists r,
     ocr_results w' = ocr_results w ++ [r] /\
     o_document_id r = next_document_id w /\
     (o_text r = [] <-> (List.length trimmedOcr < 20)%nat) /\
     ((20 <= List.length trimmedOcr)%nat -> o_text r = ocrText)) /\
  (ocr_results w' = ocr_results w \/
   exists r,
     ocr_results w' = ocr_results w ++ [r] /\
     (o_text r = [] <-> (List.length trimmedOcr < 20)%nat) /\
     ((20 <= List.length trimmedOcr)%nat -> o_text r = ocrText)) /\
  (forall content,
      (forall password salt n, List.length (scryptSync password salt n) = n) ->
      List.length (random_iv env) = 12%nat ->
      fs w !! path f = Some content ->
      body_ok body = true ->
      storageUsed user + size f <= storageLimit user ->
      db_fails env InsertDocument = false ->
      db_fails env InsertOcr = false ->
      db_fails env UpdateUsage = false ->
      status response = 201).
Proof.
  intros Himage. cbv zeta.
  pose proof (upload_created_inv scryptSync FILE_ENC_SECRET inferTags normalizeTagName
                env user f body w) as Hinv.
  pose proof (upload_ocr_record scryptSync FILE_ENC_SECRET inferTags normalizeTagName
                env user (Some f) body w) as Hany.
  pose proof (fun content encrypted iv authTag =>
                upload_created scryptSync FILE_ENC_SECRET inferTags normalizeTagName
                  env user f body w content encrypted iv authTag) as Hrun.
  cbv zeta in Hany.
  destruct (upload scryptSync FILE_ENC_SECRET inferTags normalizeTagName env user (Some f)
              body w) as [response w'].
  cbn [fst snd] in Hinv, Hany.
  assert (Htext : forall r,
             o_text r = stored_ocr_text (isImage f) (fst (ocr_of env f)) ->
             (o_text r = [] <->
              (List.length (trim (collapse_spaces (fst (processOCR env)))) < 20)%nat) /\
             ((20 <= List.length (trim (collapse_spaces (fst (processOCR env)))))%nat ->
              o_text r = fst (processOCR env))).
  { intros r ->. unfold ocr_of. rewrite Himage. apply stored_ocr_text_image. }
  split; [|split].
  - intros H201. destruct (Hinv H201)
      as (content & encrypted & iv & authTag & Hf & Hb & Hq & He & D1 & D2 & D3).
    destruct (Hrun content encrypted iv authTag Hf Hb Hq He D1 D2 D3)
      as (w'' & Hup & _ & _ & Hocr & _).
    injection Hup as _ <-.
    eexists. split; [exact Hocr|]. split; [reflexivity|].
    apply Htext. reflexivity.
  - destruct Hany as [H | (f' & r & Hf & Hrows & Ht)]; [left; exact H|].
    right. injection Hf as <-. exists r. split; [exact Hrows|].
    apply Htext. exact Ht.
  - intros content Hkdf Hiv Hf Hb Hq D1 D2 D3.
    destruct (encryptBuffer_succeeds scryptSync FILE_ENC_SECRET (random_iv env) content
                (id user) Hkdf Hiv) as (encrypted & authTag & He & _).
    destruct (Hrun content encrypted (random_iv env) authTag Hf Hb Hq He D1 D2 D3)
      as (w'' & Hup & _).
    injection Hup as -> _. reflexivity.
Qed.

(** Two image uploads: the invoice line is stored as recognized, a few
    stray characters are stored as the empty string. *)
Lemma image_ocr_text_stored_witness :
  let f := stored_file storage small_image in
  let run text :=
    upload toy_kdf None no_tags keep_name (calm (Some text)) tenant (Some f)
      empty_body (on_disk small_image empty_world) in
  isImage f = true /\
  status (fst (run Fields.invoice_line)) = 201 /\
  map o_text (ocr_results (snd (run Fields.invoice_line))) = [Fields.invoice_line] /\
  status (fst (run (lit "  ~ .  l1 "))) = 201 /\
  map o_text (ocr_results (snd (run (lit "  ~ .  l1 ")))) = [[]] /\
  exists r,
    ocr_results (snd (run Fields.invoice_line)) = [] ++ [r] /\
    o_document_id r = 1%N /\
    o_text r = Fields.invoice_line.
Proof.
  cbv zeta. split; [reflexivity|].
  pose proof (image_ocr_text_stored toy_kdf None no_tags keep_name
                (calm (Some Fields.invoice_line)) tenant (stored_file storage small_image)
                empty_body (on_disk small_image empty_world) eq_refl) as H.
  cbv zeta in H.
  destruct (upload toy_kdf None no_tags keep_name (calm (Some Fields.invoice_line)) tenant
              (Some (stored_file storage small_image)) empty_body
              (on_disk small_image empty_world)) as [response w'] eqn:E.
  destruct H as (Hstored & _ & Hcreated).
  assert (H201 : status response = 201).
  { apply (Hcreated (p_content small_image) toy_kdf_length eq_refl
             (on_disk_present small_image empty_world) eq_refl);
      [vm_compute; discriminate | reflexivity | reflexivity | reflexivity]. }
  destruct (Hstored H201) as (r & Hrows & Hid & _ & Hlong).
  cbn [fst snd].
  split; [exact H201|].
  split; [rewrite Hrows; cbn [map app ocr_results on_disk set_fs empty_world];
          rewrite Hlong; [reflexivity | vm_compute; lia]|].
  split; [vm_compute; reflexivity|].
  split; [vm_compute; reflexivity|].
  exists r. split; [exact Hrows|]. split; [exact Hid|].
  apply Hlong. vm_compute. lia.
Defined.

(** ** Download and preview *)

Inductive FileResponse : Type :=
| Sent (contentType : str) (name : str) (body : bytes)
| DocumentNotFound
| FileNotFound
| ServerError.

(** [SELECT ... FROM documents WHERE id = ? AND user_id = ?] *)
Definition select_document (w : World) (documentId userId : N) : list Document :=
  List.filter (fun d => (d_id d =? documentId)%N && (d_user_id d =? userId)%N) (documents w).

(** [doc.mime_type || 'application/octet-stream'] *)
Definition content_type (d : Document) : str :=
  match d_mime_type d with
  | [] => lit "application/octet-stream"
  | m => m
  end.

Section Serve.

Variable scryptSync : bytes -> bytes -> nat -> bytes.
Variable FILE_ENC_SECRET : option bytes.

(** The part both routes share: read the blob, decrypt, send. *)
Definition serve (w : World) (userId : N) (d : Document) : FileResponse :=
  match fs w !! d_storage_path d with
  | None => ServerError
  | Some encrypted =>
      match decryptBuffer scryptSync FILE_ENC_SECRET encrypted (d_iv d) (d_auth_tag d) userId with
      | Some decrypted => Sent (content_type d) (d_filename d) decrypted
      | None => ServerError
      end
  end.

(** [GET /:id/download]; [select_fails] tells whether the query throws. *)
Definition download (select_fails : bool) (w : World) (userId documentId : N)
    : FileResponse :=
  if select_fails then ServerError
  else match select_document w documentId userId with
       | [] => DocumentNotFound
       | d :: _ => serve w userId d
       end.

(** [GET /:id/preview]: as download, after [fs.access(doc.storage_path)]. *)
Definition preview (select_fails : bool) (w : World) (userId documentId : N)
    : FileResponse :=
  if select_fails then ServerError
  else match select_document w documentId userId with
       | [] => DocumentNotFound
       | d :: _ =>
           match fs w !! d_storage_path d with
           | None => FileNotFound
           | Some _ => serve w userId d
           end
       end.

End Serve.

(** ** Delete *)

Inductive DeleteStatement : Type :=
| SelectDocument
| DeleteDocument
| DecrementUsage.

Inductive DeleteResponse : Type :=
| Deleted
| NotFound
| DeleteError.

(** [DELETE FROM documents WHERE id = ?]; the rows of [ocr_results] and
    [document_tags] that belong to the document go with it ("cascade will
    handle related records"). *)
Definition delete_rows (documentId : N) (w : World) : World :=
  {| fs := fs w;
     documents := List.filter (fun d => negb (d_id d =? documentId)%N) (documents w);
     ocr_results := List.filter (fun r => negb (o_document_id r =? documentId)%N) (ocr_results w);
     tags := tags w;
     document_tags := List.filter (fun l => negb (fst l =? documentId)%N) (document_tags w);
     storage_used := storage_used w;
     next_document_id := next_document_id w; next_tag_id := next_tag_id w |}.

(** [UPDATE users SET storage_used = storage_used - ? WHERE id = ?] on the
    [BIGINT UNSIGNED] column of the migration: a result below zero is out of
    range and the statement fails. *)
Definition decrement_usage (delta : Z) (userId : N) (w : World) : option World :=
  match storage_used w !! userId with
  | Some used =>
      if used - delta <? 0 then None
      else Some
        {| fs := fs w; documents := documents w; ocr_results := ocr_results w;
           tags := tags w; document_tags := document_tags w;
           storage_used := <[userId := used - delta]> (storage_used w);
           next_document_id := next_document_id w; next_tag_id := next_tag_id w |}
  | None => Some w
  end.

(** [DELETE /:id] *)
Definition delete_document (fails : DeleteStatement -> bool) (userId documentId : N)
    (w : World) : DeleteResponse * World :=
  if fails SelectDocument then (DeleteError, w)
  else match select_document w documentId userId with
       | [] => (NotFound, w)
       | d :: _ =>
           let w1 := snd (attempt (unlink (d_storage_path d)) w) in
           if fails DeleteDocument then (DeleteError, w1)
           else
             let w2 := delete_rows documentId w1 in
             if fails DecrementUsage then (DeleteError, w2)
             else match decrement_usage (d_byte_size d) userId w2 with
                  | Some w3 => (Deleted, w3)
                  | None => (DeleteError, w2)
                  end
       end.

(** ** Upload, then download *)

Lemma select_document_fresh (docs : list Document) (d : Document) (i u : N) :
  d_id d = i -> d_user_id d = u ->
  Forall (fun x => d_id x <> i) docs ->
  List.filter (fun x => (d_id x =? i)%N && (d_user_id x =? u)%N) (docs ++ [d]) = [d].
Proof.
  intros <- <- Hfresh. rewrite List.filter_app.
  assert (Hold : List.filter
                   (fun x => (d_id x =? d_id d)%N && (d_user_id x =? d_user_id d)%N) docs
                 = []).
  { induction Hfresh as [|x l Hx _ IH]; [reflexivity|]. cbn [List.filter].
    destruct (N.eqb_spec (d_id x) (d_id d)); [contradiction | exact IH]. }
  rewrite Hold. cbn [app List.filter]. rewrite !N.eqb_refl. reflexivity.
Qed.



Lemma select_document_owned (w : World) (documentId userId : N) (d : Document)
    (rest : list Document) :
  select_document w documentId userId = d :: rest ->
  In d (documents w) /\ d_id d = documentId /\ d_user_id d = userId.
Proof.
  intros H.
  assert (Hin : In d (select_document w documentId userId)) by (rewrite H; left; reflexivity).
  unfold select_document in Hin. apply List.filter_In in Hin. destruct Hin as [Hin Hb].
  apply andb_true_iff in Hb. destruct Hb as [Hi Hu].
  apply N.eqb_eq in Hi, Hu. repeat split; assumption.
Qed.

Lemma serve_sent
    (scryptSync : bytes -> bytes -> nat -> bytes) (FILE_ENC_SECRET : option bytes)
    (w : World) (userId : N) (d : Document) (contentType name : str) (body : bytes) :
  serve scryptSync FILE_ENC_SECRET w userId d = Sent contentType name body ->
  name = d_filename d /\
  exists encrypted,
    fs w !! d_storage_path d = Some encrypted /\
    decryptBuffer scryptSync FILE_ENC_SECRET encrypted (d_iv d) (d_auth_tag d) userId
      = Some body.
Proof.
  unfold serve. destruct (fs w !! d_storage_path d) as [encrypted|]; [|discriminate].
  destruct (decryptBuffer _ _ _ _ _ _) as [decrypted|] eqn:E; [|discriminate].
  intros [= _ <- <-]. split; [reflexivity|]. exists encrypted. split; [reflexivity | exact E].
Qed.

(** X2: download and preview send content only for a document row that the
    caller owns, and what they send is the decryption, under the caller's
    key, of the blob that row points to. *)
Theorem content_only_for_owner
    (scryptSync : bytes -> bytes -> nat -> bytes) (FILE_ENC_SECRET : option bytes)
    (select_fails : bool) (w : World) (userId documentId : N)
    (contentType name : str) (body : bytes) :
  download scryptSync FILE_ENC_SECRET select_fails w userId documentId
    = Sent contentType name body \/
  preview scryptSync FILE_ENC_SECRET select_fails w userId documentId
    = Sent contentType name body ->
  exists d encrypted,
    In d (documents w) /\ d_id d = documentId /\ d_user_id d = userId /\
    name = d_filename d /\
    fs w !! d_storage_path d = Some encrypted /\
    decryptBuffer scryptSync FILE_ENC_SECRET encrypted (d_iv d) (d_auth_tag d) userId
      = Some body.
Proof.
  intros H.
  assert (Hserve : exists d rest,
             select_document w documentId userId = d :: rest /\
             serve scryptSync FILE_ENC_SECRET w userId d = Sent contentType name body).
  { destruct H as [H | H].
    - unfold download in H. destruct select_fails; [discriminate|].
      destruct (select_document w documentId userId) as [|d rest]; [discriminate|].
      exists d, rest. split; [reflexivity | exact H].
    - unfold preview in H. destruct select_fails; [discriminate|].
      destruct (select_document w documentId userId) as [|d rest]; [discriminate|].
      exists d, rest. split; [reflexivity|].
      destruct (fs w !! d_storage_path d); [exact H | discriminate]. }
  destruct Hserve as (d & rest & Hsel & Hs).
  apply select_document_owned in Hsel. destruct Hsel as (Hin & Hi & Hu).
  apply serve_sent in Hs. destruct Hs as (Hn & encrypted & Hf & Hd).
  exists d, encrypted. repeat split; assumption.
Qed.

(** The world after the upload of the 12-byte image by tenant 7. *)
Definition after_small_upload : World :=
  snd (upload toy_kdf None no_tags keep_name (calm None) tenant
         (Some (stored_file storage small_image)) empty_body
         (on_disk small_image empty_world)).

(** Tenant 7 reads document 1; the row found belongs to tenant 7. *)
Lemma content_only_for_owner_witness :
  download toy_kdf None false after_small_upload 7 1
    = Sent (lit "image/png") (lit "factura.png") (utf8 "not-a-bitmap") /\
  download toy_kdf None false after_small_upload 8 1 = DocumentNotFound /\
  exists d, In d (documents after_small_upload) /\ d_id d = 1%N /\ d_user_id d = 7%N.
Proof.
  assert (H : download toy_kdf None false after_small_upload 7 1
              = Sent (lit "image/png") (lit "factura.png") (utf8 "not-a-bitmap"))
    by (vm_compute; reflexivity).
  split; [exact H|]. split; [vm_compute; reflexivity|].
  destruct (content_only_for_owner toy_kdf None false after_small_upload 7 1
              (lit "image/png") (lit "factura.png") (utf8 "not-a-bitmap") (or_introl H))
    as (d & _ & Hin & Hi & Hu & _).
  exists d. repeat split; assumption.
Defined.

(** ** An upload whose blob path is its own path *)

(** X3: when the path computed for the encrypted blob is the path of the
    upload itself (the stored name already ends in ".encrypted"), the handler
    overwrites the upload with the blob and then unlinks it: it answers 201
    and records a ready document whose storage path does not exist, so that
    download answers 500 and preview 404. *)
Theorem upload_onto_own_path_loses_blob
    (scryptSync : bytes -> bytes -> nat -> bytes) (FILE_ENC_SECRET : option bytes)
    (inferTags : str -> option str -> str -> bool -> list str)
    (normalizeTagName : str -> str)
    (env : Env) (user : User) (f : File) (body : UploadBody) (w : World)
    (content : bytes) :
  (forall password salt n, List.length (scryptSync password salt n) = n) ->
  List.length (random_iv env) = 12%nat ->
  fs w !! path f = Some content ->
  body_ok body = true ->
  storageUsed user + size f <= storageLimit user ->
  (forall s, db_fails env s = false) ->
  encryptedFilePath f = path f ->
  Forall (fun d => d_id d <> next_document_id w) (documents w) ->
  let '(response, w') :=
    upload scryptSync FILE_ENC_SECRET inferTags normalizeTagName env user (Some f) body w in
  status response = 201 /\
  (exists d, documents w' = documents w ++ [d] /\
             d_status d = lit "ready" /\ fs w' !! d_storage_path d = None) /\
  download scryptSync FILE_ENC_SECRET false w' (id user) (next_document_id w) = ServerError /\
  preview scryptSync FILE_ENC_SECRET false w' (id user) (next_document_id w) = FileNotFound.
Proof.
  intros Hkdf Hiv Hfile Hbody Hquota Hdb Hpaths Hfresh.
  destruct (encryptBuffer_succeeds scryptSync FILE_ENC_SECRET (random_iv env) content
              (id user) Hkdf Hiv) as (encrypted & authTag & Henc & Hrun).
  destruct (upload_created scryptSync FILE_ENC_SECRET inferTags normalizeTagName env user f
              body w content encrypted (random_iv env) authTag Hfile Hbody Hquota Henc
              (Hdb _) (Hdb _) (Hdb _)) as (w' & -> & Hfs & Hdocs & _).
  set (row := document_row user f (metadata_of body) (random_iv env) authTag
                (snd (ocr_of env f)) (next_document_id w)) in *.
  assert (Hgone : fs w' !! d_storage_path row = None).
  { change (d_storage_path row) with (encryptedFilePath f).
    rewrite Hfs, Hpaths. apply lookup_delete_eq. }
  split; [reflexivity|].
  split; [exists row; repeat split; [exact Hdocs | exact Hgone]|].
  unfold download, preview, select_document. rewrite Hdocs.
  rewrite (select_document_fresh (documents w) row (next_document_id w) (id user)
             eq_refl eq_refl Hfresh).
  unfold serve. rewrite Hgone. split; reflexivity.
Qed.

(** A file sent under the name "backup.encrypted". *)
Definition encrypted_named : Part :=
  {| p_originalname := lit "backup.encrypted"; p_mimetype := lit "application/octet-stream";
     p_content := utf8 "0123456789" |}.

Lemma upload_onto_own_path_loses_blob_witness :
  let f := stored_file storage encrypted_named in
  encryptedFilePath f = path f /\
  let '(response, w') :=
    upload toy_kdf None no_tags keep_name (calm None) tenant (Some f) empty_body
      (on_disk encrypted_named empty_world) in
  status response = 201 /\
  download toy_kdf None false w' 7 1 = ServerError /\
  preview toy_kdf None false w' 7 1 = FileNotFound.
Proof.
  cbv zeta. split; [vm_compute; reflexivity|].
  pose proof (upload_onto_own_path_loses_blob toy_kdf None no_tags keep_name (calm None)
                tenant (stored_file storage encrypted_named) empty_body
                (on_disk encrypted_named empty_world) (p_content encrypted_named)
                toy_kdf_length eq_refl (on_disk_present encrypted_named empty_world)
                eq_refl ltac:(vm_compute; discriminate) (fun _ => eq_refl)
                ltac:(vm_compute; reflexivity) (List.Forall_nil _)) as H.
  destruct (upload toy_kdf None no_tags keep_name (calm None) tenant
              (Some (stored_file storage encrypted_named)) empty_body
              (on_disk encrypted_named empty_world)) as [response w'].
  destruct H as (Hs & _ & Hd & Hp). repeat split; assumption.
Defined.

(** ** Failures after the document row is in *)

Section Partial.

Variable scryptSync : bytes -> bytes -> nat -> bytes.
Variable FILE_ENC_SECRET : option bytes.
Variable inferTags : str -> option str -> str -> bool -> list str.
Variable normalizeTagName : str -> str.

Local Abbreviation handler :=
  (upload scryptSync FILE_ENC_SECRET inferTags normalizeTagName).

(** The OCR insert throws: the catch block has nothing to undo with. *)
Lemma upload_ocr_insert_fails (env : Env) (user : User) (f : File) (body : UploadBody)
    (w : World) (content encrypted iv authTag : bytes) :
  fs w !! path f = Some content ->
  body_ok body = true ->
  storageUsed user + size f <= storageLimit user ->
  encryptBuffer scryptSync FILE_ENC_SECRET (random_iv env) content (id user)
    = Some (encrypted, iv, authTag) ->
  db_fails env InsertDocument = false ->
  db_fails env InsertOcr = true ->
  exists w',
    handler env user (Some f) body w = (InternalError, w') /\
    fs w' = delete (path f) (insert (encryptedFilePath f) encrypted (fs w)) /\
    documents w' =
      documents w ++
      [document_row user f (metadata_of body) iv authTag (snd (ocr_of env f))
         (next_document_id w)] /\
    ocr_results w' = ocr_results w /\
    storage_used w' = storage_used w.
Proof.
  intros Hfile Hbody Hquota Henc Hdoc Hocr.
  unfold upload, upload_try, bind, ocr_of.
  rewrite (uploadSchema_valid body w Hbody).
  replace (storageUsed user + size f >? storageLimit user) with false
    by (symmetry; rewrite Z.gtb_ltb; apply Z.ltb_ge; lia).
  destruct (if isImage f then processOCR env else ([], None)) as [ocrText ocrJson].
  unfold readFile. rewrite Hfile. unfold encrypt. rewrite Henc. unfold ret, writeFile.
  assert (Hstill : fs (set_fs (insert (encryptedFilePath f) encrypted) w) !! path f
                   = Some (if decide (encryptedFilePath f = path f) then encrypted else content)).
  { cbn [fs set_fs]. rewrite lookup_insert. destruct (decide _); [reflexivity | exact Hfile]. }
  rewrite (unlink_present _ _ _ Hstill).
  unfold insert_document, insert_ocr, bind, query. rewrite Hdoc, Hocr. unfold ret, throw.
  rewrite unlink_absent by (cbn [fs set_fs]; apply lookup_delete_eq).
  eexists. split; [reflexivity|]. repeat split; reflexivity.
Qed.

(** The usage update throws, after documents, OCR record and tags. *)
Lemma upload_usage_update_fails (env : Env) (user : User) (f : File) (body : UploadBody)
    (w : World) (content encrypted iv authTag : bytes) :
  fs w !! path f = Some content ->
  body_ok body = true ->
  storageUsed user + size f <= storageLimit user ->
  encryptBuffer scryptSync FILE_ENC_SECRET (random_iv env) content (id user)
    = Some (encrypted, iv, authTag) ->
  db_fails env InsertDocument = false ->
  db_fails env InsertOcr = false ->
  db_fails env UpdateUsage = true ->
  exists w',
    handler env user (Some f) body w = (InternalError, w') /\
    fs w' = delete (path f) (insert (encryptedFilePath f) encrypted (fs w)) /\
    documents w' =
      documents w ++
      [document_row user f (metadata_of body) iv authTag (snd (ocr_of env f))
         (next_document_id w)] /\
    storage_used w' = storage_used w.
Proof.
  intros Hfile Hbody Hquota Henc Hdoc Hocr Husage.
  unfold upload, upload_try, bind, ocr_of.
  rewrite (uploadSchema_valid body w Hbody).
  replace (storageUsed user + size f >? storageLimit user) with false
    by (symmetry; rewrite Z.gtb_ltb; apply Z.ltb_ge; lia).
  destruct (if isImage f then processOCR env else ([], None)) as [ocrText ocrJson].
  unfold readFile. rewrite Hfile. unfold encrypt. rewrite Henc. unfold ret, writeFile.
  assert (Hstill : fs (set_fs (insert (encryptedFilePath f) encrypted) w) !! path f
                   = Some (if decide (encryptedFilePath f = path f) then encrypted else content)).
  { cbn [fs set_fs]. rewrite lookup_insert. destruct (decide _); [reflexivity | exact Hfile]. }
  rewrite (unlink_present _ _ _ Hstill).
  unfold insert_document, insert_ocr, bind, query. rewrite Hdoc, Hocr. unfold ret.
  match goal with
  | |- context [attempt (auto_tag ?i ?n ?e ?d ?t ?p ?f0) ?w0] =>
      destruct (attempt_auto_tag i n e d t p f0 w0) as (w6 & -> & Hcore)
  end.
  unfold update_usage, bind, query. rewrite Husage. unfold throw.
  unfold core in Hcore. cbn [fs documents ocr_results storage_used next_document_id set_fs]
    in Hcore.
  injection Hcore as Hfs Hdocs Hocrs Hused Hnext.
  rewrite unlink_absent by (rewrite Hfs; apply lookup_delete_eq).
  exists w6. split; [reflexivity|]. repeat split; assumption.
Qed.

End Partial.

(** X4: for an upload that multer has put on disk, with valid metadata,
    within the quota, with a 12-byte IV and a key derivation that returns
    keys of the length asked for, whose encrypted blob goes to a path
    other than the path of the upload itself (so the original name does
    not end in ".encrypted"), and whose document insert succeeds: when the
    OCR insert or the usage update throws, the handler answers 500
    although the document row is already inserted and its blob written:
    the row stays, with status ready, the blob stays on disk, and the
    tenant's recorded usage does not include it. *)
Theorem upload_late_failure_keeps_document
    (scryptSync : bytes -> bytes -> nat -> bytes) (FILE_ENC_SECRET : option bytes)
    (inferTags : str -> option str -> str -> bool -> list str)
    (normalizeTagName : str -> str)
    (env : Env) (user : User) (f : File) (body : UploadBody) (w : World)
    (content : bytes) :
  (forall password salt n, List.length (scryptSync password salt n) = n) ->
  List.length (random_iv env) = 12%nat ->
  fs w !! path f = Some content ->
  body_ok body = true ->
  storageUsed user + size f <= storageLimit user ->
  db_fails env InsertDocument = false ->
  db_fails env InsertOcr = true \/ db_fails env UpdateUsage = true ->
  encryptedFilePath f <> path f ->
  let '(response, w') :=
    upload scryptSync FILE_ENC_SECRET inferTags normalizeTagName env user (Some f) body w in
  status response = 500 /\
  (exists d, documents w' = documents w ++ [d] /\
             d_id d = next_document_id w /\ d_user_id d = id user /\
             d_status d = lit "ready" /\ d_byte_size d = size f /\
             exists encrypted, fs w' !! d_storage_path d = Some encrypted) /\
  storage_used w' = storage_used w.
Proof.
  intros Hkdf Hiv Hfile Hbody Hquota Hdoc Hlate Hpaths.
  destruct (encryptBuffer_succeeds scryptSync FILE_ENC_SECRET (random_iv env) content
              (id user) Hkdf Hiv) as (encrypted & authTag & Henc & _).
  assert (Hrun : exists w',
             upload scryptSync FILE_ENC_SECRET inferTags normalizeTagName env user (Some f)
               body w = (InternalError, w') /\
             fs w' = delete (path f) (insert (encryptedFilePath f) encrypted (fs w)) /\
             documents w' =
               documents w ++
               [document_row user f (metadata_of body) (random_iv env) authTag
                  (snd (ocr_of env f)) (next_document_id w)] /\
             storage_used w' = storage_used w).
  { destruct (db_fails env InsertOcr) eqn:Hocr.
    - destruct (upload_ocr_insert_fails scryptSync FILE_ENC_SECRET inferTags normalizeTagName
                  env user f body w content encrypted (random_iv env) authTag
                  Hfile Hbody Hquota Henc Hdoc Hocr) as (w' & H1 & H2 & H3 & _ & H5).
      exists w'. repeat split; assumption.
    - destruct Hlate as [Hlate | Husage]; [discriminate|].
      exact (upload_usage_update_fails scryptSync FILE_ENC_SECRET inferTags normalizeTagName
               env user f body w content encrypted (random_iv env) authTag
               Hfile Hbody Hquota Henc Hdoc Hocr Husage). }
  destruct Hrun as (w' & -> & Hfs & Hdocs & Hused).
  split; [reflexivity|]. split; [|exact Hused].
  eexists. split; [exact Hdocs|]. cbn [document_row d_id d_user_id d_status d_byte_size
                                         d_storage_path].
  repeat split. exists encrypted. rewrite Hfs.
  rewrite lookup_delete_ne by (intros E; apply Hpaths; symmetry; exact E).
  apply lookup_insert_eq.
Qed.

Definition ocr_insert_rejected : Env :=
  {| random_iv := bytes_of_N 12 7; recognize := None;
     db_fails := fun s => match s with InsertOcr => true | _ => false end |}.

Lemma upload_late_failure_keeps_document_witness :
  let f := stored_file storage small_image in
  let '(response, w') :=
    upload toy_kdf None no_tags keep_name ocr_insert_rejected tenant (Some f) empty_body
      (on_disk small_image empty_world) in
  status response = 500 /\
  List.length (documents w') = 1%nat /\
  storage_used w' = {[ 7%N := 0 ]}.
Proof.
  cbv zeta.
  pose proof (upload_late_failure_keeps_document toy_kdf None no_tags keep_name
                ocr_insert_rejected tenant (stored_file storage small_image) empty_body
                (on_disk small_image empty_world) (p_content small_image)
                toy_kdf_length eq_refl (on_disk_present small_image empty_world)
                eq_refl ltac:(vm_compute; discriminate) eq_refl (or_introl eq_refl)
                small_image_paths) as H.
  destruct (upload toy_kdf None no_tags keep_name ocr_insert_rejected tenant
              (Some (stored_file storage small_image)) empty_body
              (on_disk small_image empty_world)) as [response w'].
  destruct H as (Hs & (d & Hd & _) & Hu).
  split; [exact Hs|]. split; [rewrite Hd; reflexivity | exact Hu].
Defined.

(** ** Delete *)

Lemma attempt_unlink_fs (p : str) (w : World) :
  snd (attempt (unlink p) w) = set_fs (delete p) w.
Proof.
  unfold attempt, unlink. destruct (fs w !! p) eqn:E; cbn [snd]; [reflexivity|].
  destruct w. unfold set_fs. cbn in *. rewrite (delete_id _ _ E). reflexivity.
Qed.

Definition no_failure (_ : DeleteStatement) : bool := false.

(** The run of the delete handler on a document the caller owns when no
    statement throws. *)
Lemma delete_document_run (userId documentId : N) (w : World) (d : Document)
    (rest : list Document) :
  select_document w documentId userId = d :: rest ->
  delete_document no_failure userId documentId w =
    match decrement_usage (d_byte_size d) userId
            (delete_rows documentId (set_fs (delete (d_storage_path d)) w)) with
    | Some w3 => (Deleted, w3)
    | None => (DeleteError, delete_rows documentId (set_fs (delete (d_storage_path d)) w))
    end.
Proof.
  intros Hsel. unfold delete_document, no_failure. rewrite Hsel.
  rewrite attempt_unlink_fs. reflexivity.
Qed.

(** X5: deleting a document the caller owns removes its blob (whether or
    not the file was still there), removes every row with that id, keeps the
    other documents, and lowers the tenant's recorded usage by the row's
    byte size. *)
Theorem delete_removes_document (userId documentId : N) (w : World) (d : Document)
    (rest : list Document) (used : Z) :
  select_document w documentId userId = d :: rest ->
  storage_used w !! userId = Some used ->
  d_byte_size d <= used ->
  let '(response, w') := delete_document no_failure userId documentId w in
  response = Deleted /\
  fs w' = delete (d_storage_path d) (fs w) /\
  Forall (fun x => d_id x <> documentId) (documents w') /\
  (forall x, In x (documents w) -> d_id x <> documentId -> In x (documents w')) /\
  storage_used w' = <[userId := used - d_byte_size d]> (storage_used w).
Proof.
  intros Hsel Hused Hle. rewrite (delete_document_run _ _ _ _ _ Hsel).
  unfold decrement_usage. cbn [storage_used delete_rows set_fs]. rewrite Hused.
  replace (used - d_byte_size d <? 0) with false by (symmetry; apply Z.ltb_ge; lia).
  cbn [fs documents storage_used].
  split; [reflexivity|]. split; [reflexivity|]. split; [|split; [|reflexivity]].
  - apply List.Forall_forall. intros x Hx. apply List.filter_In in Hx. destruct Hx as [_ Hx].
    apply negb_true_iff, N.eqb_neq in Hx. exact Hx.
  - intros x Hin Hne. apply List.filter_In. split; [exact Hin|].
    apply negb_true_iff, N.eqb_neq. exact Hne.
Qed.

Lemma delete_removes_document_witness :
  let '(response, w') := delete_document no_failure 7 1 after_small_upload in
  response = Deleted /\ documents w' = [] /\ storage_used w' = {[ 7%N := 0 ]} /\
  fs w' = ∅.
Proof.
  assert (Hsel : exists d, select_document after_small_upload 1 7 = [d] /\
                           d_byte_size d = 12 /\
                           d_storage_path d = encryptedFilePath (stored_file storage small_image)).
  { eexists. split; [vm_compute; reflexivity|]. split; reflexivity. }
  destruct Hsel as (d & Hsel & Hsize & Hpath).
  pose proof (delete_removes_document 7 1 after_small_upload d [] 12 Hsel
                ltac:(vm_compute; reflexivity) ltac:(rewrite Hsize; lia)) as H.
  destruct (delete_document no_failure 7 1 after_small_upload) as [response w'] eqn:E.
  destruct H as (Hr & _).
  split; [exact Hr|].
  assert (Hw : w' = snd (delete_document no_failure 7 1 after_small_upload))
    by (rewrite E; reflexivity).
  rewrite Hw. repeat split; vm_compute; reflexivity.
Defined.

(** X6: a caller who owns no row with the given id cannot delete anything:
    whatever statements fail, the handler does not answer "deleted" and
    leaves files, rows and usage as they were. *)
Theorem delete_requires_ownership (fails : DeleteStatement -> bool)
    (userId documentId : N) (w : World) :
  (forall d, In d (documents w) -> d_id d = documentId -> d_user_id d <> userId) ->
  let '(response, w') := delete_document fails userId documentId w in
  response <> Deleted /\ w' = w.
Proof.
  intros Hforeign.
  assert (Hsel : select_document w documentId userId = []).
  { unfold select_document.
    destruct (List.filter _ (documents w)) as [|d rest] eqn:E; [reflexivity|].
    assert (Hin : In d (List.filter
                          (fun d => (d_id d =? documentId)%N && (d_user_id d =? userId)%N)
                          (documents w))) by (rewrite E; left; reflexivity).
    apply List.filter_In in Hin. destruct Hin as [Hin Hb].
    apply andb_true_iff in Hb. destruct Hb as [Hi Hu].
    apply N.eqb_eq in Hi, Hu. exfalso. exact (Hforeign d Hin Hi Hu). }
  unfold delete_document. rewrite Hsel.
  destruct (fails SelectDocument); split; (discriminate || reflexivity).
Qed.

Lemma delete_requires_ownership_witness :
  let '(response, w') := delete_document no_failure 8 1 after_small_upload in
  response = NotFound /\ w' = after_small_upload.
Proof.
  pose proof (delete_requires_ownership no_failure 8 1 after_small_upload) as H.
  assert (Hforeign : forall d, In d (documents after_small_upload) -> d_id d = 1%N ->
                               d_user_id d <> 8%N).
  { intros d Hin _.
    assert (Hdocs : map d_user_id (documents after_small_upload) = [7%N])
      by (vm_compute; reflexivity).
    apply (in_map d_user_id) in Hin. rewrite Hdocs in Hin.
    destruct Hin as [<- | []]. discriminate. }
  specialize (H Hforeign).
  destruct (delete_document no_failure 8 1 after_small_upload) as [response w'] eqn:E.
  destruct H as [_ Hw]. split; [|exact Hw].
  assert (Hr : response = fst (delete_document no_failure 8 1 after_small_upload))
    by (rewrite E; reflexivity).
  rewrite Hr. vm_compute. reflexivity.
Defined.

(** X7: when the row's byte size exceeds the tenant's recorded usage (the
    column is unsigned, so the decrement is out of range), the delete handler
    answers 500 after it has removed the blob and the row; the usage stays as
    it was. *)
Theorem delete_usage_underflow (userId documentId : N) (w : World) (d : Document)
    (rest : list Document) (used : Z) :
  select_document w documentId userId = d :: rest ->
  storage_used w !! userId = Some used ->
  used < d_byte_size d ->
  let '(response, w') := delete_document no_failure userId documentId w in
  response = DeleteError /\
  fs w' = delete (d_storage_path d) (fs w) /\
  Forall (fun x => d_id x <> documentId) (documents w') /\
  storage_used w' = storage_used w.
Proof.
  intros Hsel Hused Hlt. rewrite (delete_document_run _ _ _ _ _ Hsel).
  unfold decrement_usage. cbn [storage_used delete_rows set_fs]. rewrite Hused.
  replace (used - d_byte_size d <? 0) with true by (symmetry; apply Z.ltb_lt; lia).
  cbn [fs documents storage_used delete_rows set_fs].
  split; [reflexivity|]. split; [reflexivity|]. split; [|reflexivity].
  apply List.Forall_forall. intros x Hx. apply List.filter_In in Hx. destruct Hx as [_ Hx].
  apply negb_true_iff, N.eqb_neq in Hx. exact Hx.
Qed.

(** The world after an upload whose usage update was rejected: the document
    is in, the usage still 0. *)
Definition usage_update_rejected : Env :=
  {| random_iv := bytes_of_N 12 7; recognize := None;
     db_fails := fun s => match s with UpdateUsage => true | _ => false end |}.

Definition after_unaccounted_upload : World :=
  snd (upload toy_kdf None no_tags keep_name usage_update_rejected tenant
         (Some (stored_file storage small_image)) empty_body
         (on_disk small_image empty_world)).

Lemma delete_usage_underflow_witness :
  let '(response, w') := delete_document no_failure 7 1 after_unaccounted_upload in
  response = DeleteError /\ documents w' = [] /\ storage_used w' = {[ 7%N := 0 ]}.
Proof.
  assert (Hsel : exists d, select_document after_unaccounted_upload 1 7 = [d] /\
                           d_byte_size d = 12).
  { eexists. split; [vm_compute; reflexivity | reflexivity]. }
  destruct Hsel as (d & Hsel & Hsize).
  pose proof (delete_usage_underflow 7 1 after_unaccounted_upload d [] 0 Hsel
                ltac:(vm_compute; reflexivity) ltac:(rewrite Hsize; lia)) as H.
  destruct (delete_document no_failure 7 1 after_unaccounted_upload) as [response w'] eqn:E.
  destruct H as (Hr & _ & _ & Hu).
  split; [exact Hr|].
  assert (Hw : w' = snd (delete_document no_failure 7 1 after_unaccounted_upload))
    by (rewrite E; reflexivity).
  split; [rewrite Hw; vm_compute; reflexivity|].
  rewrite Hu. vm_compute. reflexivity.
Defined.

(** X8: an upload followed by the deletion of the document it created gives
    back what the upload took: the documents and the tenant's recorded usage
    are as before the upload, and neither the upload nor the blob is on
    disk. *)
Theorem upload_then_delete
    (scryptSync : bytes -> bytes -> nat -> bytes) (FILE_ENC_SECRET : option bytes)
    (inferTags : str -> option str -> str -> bool -> list str)
    (normalizeTagName : str -> str)
    (env : Env) (user : User) (f : File) (body : UploadBody) (w : World)
    (content : bytes) (used : Z) :
  (forall password salt n, List.length (scryptSync password salt n) = n) ->
  List.length (random_iv env) = 12%nat ->
  fs w !! path f = Some content ->
  body_ok body = true ->
  storageUsed user + size f <= storageLimit user ->
  (forall s, db_fails env s = false) ->
  Forall (fun d => d_id d <> next_document_id w) (documents w) ->
  storage_used w !! id user = Some used ->
  0 <= used ->
  let '(response, w1) :=
    upload scryptSync FILE_ENC_SECRET inferTags normalizeTagName env user (Some f) body w in
  let '(deleted, w2) := delete_document no_failure (id user) (next_document_id w) w1 in
  status response = 201 /\
  deleted = Deleted /\
  documents w2 = documents w /\
  storage_used w2 = storage_used w /\
  fs w2 = delete (encryptedFilePath f) (delete (path f) (fs w)).
Proof.
  intros Hkdf Hiv Hfile Hbody Hquota Hdb Hfresh Hused Hnonneg.
  destruct (encryptBuffer_succeeds scryptSync FILE_ENC_SECRET (random_iv env) content
              (id user) Hkdf Hiv) as (encrypted & authTag & Henc & _).
  destruct (upload_created scryptSync FILE_ENC_SECRET inferTags normalizeTagName env user f
              body w content encrypted (random_iv env) authTag Hfile Hbody Hquota Henc
              (Hdb _) (Hdb _) (Hdb _)) as (w1 & -> & Hfs & Hdocs & _ & Husage & _).
  set (row := document_row user f (metadata_of body) (random_iv env) authTag
                (snd (ocr_of env f)) (next_document_id w)) in *.
  assert (Hsel : select_document w1 (next_document_id w) (id user) = [row]).
  { unfold select_document. rewrite Hdocs.
    apply select_document_fresh; [reflexivity | reflexivity | exact Hfresh]. }
  rewrite (delete_document_run _ _ _ _ _ Hsel).
  unfold decrement_usage. cbn [storage_used delete_rows set_fs].
  rewrite Husage, lookup_alter_eq, Hused. cbn [fmap option_fmap option_map].
  change (d_byte_size row) with (size f). change (d_storage_path row) with (encryptedFilePath f).
  replace (size f + used - size f <? 0) with false by (symmetry; apply Z.ltb_ge; lia).
  cbn [fs documents storage_used delete_rows set_fs].
  split; [reflexivity|]. split; [reflexivity|].
  split; [|split].
  - rewrite Hdocs, List.filter_app. cbn [List.filter d_id row document_row].
    rewrite N.eqb_refl. cbn [negb]. rewrite app_nil_r.
    clear -Hfresh. induction Hfresh as [|x l Hx _ IH]; [reflexivity|].
    cbn [List.filter]. destruct (N.eqb_spec (d_id x) (next_document_id w)); [contradiction|].
    cbn [negb]. rewrite IH. reflexivity.
  - rewrite insert_alter_eq. replace (size f + used - size f) with used by lia.
    apply insert_id, Hused.
  - rewrite Hfs, delete_delete, delete_insert_eq. apply delete_delete.
Qed.

Lemma upload_then_delete_witness :
  let f := stored_file storage small_image in
  let '(response, w1) :=
    upload toy_kdf None no_tags keep_name (calm None) tenant (Some f) empty_body
      (on_disk small_image empty_world) in
  let '(deleted, w2) := delete_document no_failure 7 1 w1 in
  status response = 201 /\ deleted = Deleted /\
  documents w2 = [] /\ storage_used w2 = {[ 7%N := 0 ]}.
Proof.
  cbv zeta.
  pose proof (upload_then_delete toy_kdf None no_tags keep_name (calm None) tenant
                (stored_file storage small_image) empty_body
                (on_disk small_image empty_world) (p_content small_image) 0
                toy_kdf_length eq_refl (on_disk_present small_image empty_world) eq_refl
                ltac:(vm_compute; discriminate) (fun _ => eq_refl) (List.Forall_nil _)
                ltac:(vm_compute; reflexivity) ltac:(lia)) as H.
  change (id tenant) with 7%N in H.
  change (next_document_id (on_disk small_image empty_world)) with 1%N in H.
  destruct (upload toy_kdf None no_tags keep_name (calm None) tenant
              (Some (stored_file storage small_image)) empty_body
              (on_disk small_image empty_world)) as [response w1].
  destruct (delete_document no_failure 7 1 w1) as [deleted w2].
  destruct H as (H1 & H2 & H3 & H4 & _). repeat split; assumption.
Defined.

End Documents.

(* ===================================================================== *)
(** * Mail sanitising ([escapeHtml], contact, support and early-access
      routers) *)
(* ===================================================================== *)

Module Contact.

(** The replacement table [map] of [escapeHtml]: ampersand, less-than,
    greater-than, double quote and single quote have an entity; any other
    code unit is outside the class of the [replace] and stays. *)
Definition entity (c : N) : str :=
  if c =? 38 then lit "&amp;"
  else if c =? 60 then lit "&lt;"
  else if c =? 62 then lit "&gt;"
  else if c =? 34 then lit "&quot;"
  else if c =? 39 then lit "&#039;"
  else [c].

(** [text.replace(/[...]/g, (m) => map[m])], the class holding the five
    code units of the table. *)
Definition escapeHtml (text : str) : str := flat_map entity text.

(** [s.replace(/\n/g, '<br>')] *)
Definition line_break (c : N) : str := if c =? 10 then lit "<br>" else [c].

(** [sanitizedMessage] of the contact and support handlers. *)
Definition sanitizedMessage (message : str) : str :=
  flat_map line_break (escapeHtml message).

(** The code units that open or close markup or an attribute value. *)
Definition markup (c : N) : bool :=
  (c =? 60) || (c =? 62) || (c =? 34) || (c =? 39).

(** Reading entities back, used to show that escaping loses nothing. *)
Fixpoint unescape (s : str) : str :=
  match s with
  | [] => []
  | c :: s1 =>
      if c =? 38 then
        match s1 with
        | 97 :: 109 :: 112 :: 59 :: r => 38 :: unescape r
        | 108 :: 116 :: 59 :: r => 60 :: unescape r
        | 103 :: 116 :: 59 :: r => 62 :: unescape r
        | 113 :: 117 :: 111 :: 116 :: 59 :: r => 34 :: unescape r
        | 35 :: 48 :: 51 :: 57 :: 59 :: r => 39 :: unescape r
        | _ => c :: unescape s1
        end
      else c :: unescape s1
  end.

Lemma entity_plain (c : N) :
  c <> 38 -> markup c = false -> entity c = [c].
Proof.
  unfold markup, entity. intros H M.
  apply orb_false_iff in M as [M M4]. apply orb_false_iff in M as [M M3].
  apply orb_false_iff in M as [M1 M2].
  apply N.eqb_neq in H. rewrite H, M1, M2, M3, M4. reflexivity.
Qed.

Lemma entity_cases (c : N) :
  (c = 38 \/ c = 60 \/ c = 62 \/ c = 34 \/ c = 39) \/
  (c <> 38 /\ markup c = false).
Proof.
  unfold markup.
  destruct (N.eqb_spec c 38); [left; auto|].
  destruct (N.eqb_spec c 60); [left; auto|].
  destruct (N.eqb_spec c 62); [left; auto|].
  destruct (N.eqb_spec c 34); [left; auto 6|].
  destruct (N.eqb_spec c 39); [left; auto 6|].
  right. split; [assumption | reflexivity].
Qed.

Lemma entity_no_markup (c : N) : forallb (fun d => negb (markup d)) (entity c) = true.
Proof.
  destruct (entity_cases c) as [[-> | [-> | [-> | [-> | ->]]]] | [H M]];
    try reflexivity.
  rewrite entity_plain by assumption. cbn. rewrite M. reflexivity.
Qed.

Lemma unescape_entity (c : N) (s : str) :
  unescape (entity c ++ s) = c :: unescape s.
Proof.
  destruct (entity_cases c) as [[-> | [-> | [-> | [-> | ->]]]] | [H M]];
    try reflexivity.
  rewrite entity_plain by assumption. cbn [app unescape].
  apply N.eqb_neq in H. rewrite H. reflexivity.
Qed.

Lemma unescape_escapeHtml (text : str) : unescape (escapeHtml text) = text.
Proof.
  induction text as [|c text IH]; [reflexivity|].
  unfold escapeHtml in *. cbn [flat_map]. rewrite unescape_entity, IH. reflexivity.
Qed.

Lemma escapeHtml_plain (text : str) :
  Forall (fun c => markup c = false) (escapeHtml text).
Proof.
  apply List.Forall_forall. intros d Hd.
  unfold escapeHtml in Hd. apply in_flat_map in Hd as (c & _ & Hd).
  pose proof (entity_no_markup c) as F.
  rewrite forallb_forall in F. specialize (F d Hd).
  apply negb_true_iff in F. exact F.
Qed.

(** X9: whatever the text, the escaped text contains none of the four
    code units that open or close a tag or an attribute value: no
    less-than sign, no greater-than sign, no double and no single quote. *)
Theorem escapeHtml_no_markup (text : str) :
  Forall (fun c => c <> 60 /\ c <> 62 /\ c <> 34 /\ c <> 39) (escapeHtml text).
Proof.
  eapply List.Forall_impl; [|apply escapeHtml_plain].
  intros d F. cbv beta in F. unfold markup in F.
  apply orb_false_iff in F as [F F4]. apply orb_false_iff in F as [F F3].
  apply orb_false_iff in F as [F1 F2].
  apply N.eqb_neq in F1, F2, F3, F4. auto.
Qed.

(** X10: escaping loses no information: two texts with the same escaped
    form are the same text. *)
Theorem escapeHtml_injective (a b : str) :
  escapeHtml a = escapeHtml b -> a = b.
Proof.
  intros H. rewrite <- (unescape_escapeHtml a), <- (unescape_escapeHtml b), H.
  reflexivity.
Qed.

Lemma escapeHtml_injective_witness :
  escapeHtml (lit "a<b") = lit "a&lt;b" /\ lit "a<b" = unescape (lit "a&lt;b").
Proof.
  split; [reflexivity|].
  apply (escapeHtml_injective (lit "a<b") (unescape (lit "a&lt;b"))).
  reflexivity.
Defined.

(** X11: in the message body that the contact and support mails embed,
    the only markup is the line break the handler itself puts in: the
    body is a sequence of pieces, each either the tag [<br>] or text
    without any less-than sign, greater-than sign or quote. *)
Theorem sanitizedMessage_only_line_breaks (message : str) :
  exists pieces : list str,
    sanitizedMessage message = concat pieces /\
    Forall (fun p => p = lit "<br>" \/ Forall (fun c => markup c = false) p) pieces.
Proof.
  unfold sanitizedMessage.
  pose proof (escapeHtml_plain message) as F.
  induction (escapeHtml message) as [|c s IH].
  - exists []. split; [reflexivity | constructor].
  - inversion F as [|? ? Hc Hs]; subst.
    destruct (IH Hs) as (pieces & E & P).
    exists (line_break c :: pieces). split.
    + cbn [flat_map concat]. rewrite E. reflexivity.
    + constructor; [|assumption].
      unfold line_break. destruct (c =? 10); [left; reflexivity|].
      right. constructor; [assumption | constructor].
Qed.

End Contact.

(* ===================================================================== *)
(** * What the patterns of the field parser accept

    [matches r u] says that the pattern [r] accepts exactly the text [u].
    The matcher [exec] finds a match if and only if there is one, so the
    fields of [extractDocumentData] can be described by the texts their
    patterns accept. *)
(* ===================================================================== *)

Module Patterns.

Inductive matches : regex -> str -> Prop :=
| matches_eps : matches Eps []
| matches_cls (p : N -> bool) (c : N) : p c = true -> matches (Cls p) [c]
| matches_cat (a b : regex) (u v : str) :
    matches a u -> matches b v -> matches (Cat a b) (u ++ v)
| matches_alt_l (a b : regex) (u : str) : matches a u -> matches (Alt a b) u
| matches_alt_r (a b : regex) (u : str) : matches b u -> matches (Alt a b) u
| matches_star_nil (a : regex) : matches (Star a) []
| matches_star_cons (a : regex) (u v : str) :
    matches a u -> matches (Star a) v -> matches (Star a) (u ++ v).

(** [s] has an occurrence of [m] after [pre]. *)
Definition occurs_at (pre m s : str) : Prop := exists post, s = pre ++ m ++ post.

(** The repetition loop of [exec], named. *)
Definition star_loop (a : regex) (k : str -> option str) : nat -> str -> option str :=
  fix loop (fuel : nat) (s : str) {struct fuel} : option str :=
    match fuel with
    | O => k s
    | S fuel' =>
        match exec a s (fun s1 =>
                if (List.length s1 <? List.length s)%nat then loop fuel' s1 else None) with
        | Some t => Some t
        | None => k s
        end
    end.

Lemma exec_star (a : regex) (s : str) (k : str -> option str) :
  exec (Star a) s k = star_loop a k (List.length s) s.
Proof. reflexivity. Qed.

Lemma star_loop_S (a : regex) (k : str -> option str) (fuel : nat) (s : str) :
  star_loop a k (S fuel) s =
  match exec a s (fun s1 =>
          if (List.length s1 <? List.length s)%nat then star_loop a k fuel s1 else None) with
  | Some t => Some t
  | None => k s
  end.
Proof. reflexivity. Qed.

(** ** The matcher only reports matches *)

Lemma exec_sound (r : regex) :
  forall (s : str) (k : str -> option str) (t : str),
    exec r s k = Some t ->
    exists u v, s = u ++ v /\ matches r u /\ k v = Some t.
Proof.
  induction r as [|p|a IHa b IHb|a IHa b IHb|a IHa]; intros s k t H.
  - exists [], s. repeat split; [constructor | exact H].
  - cbn [exec] in H. destruct s as [|c s']; [discriminate|].
    destruct (p c) eqn:P; [|discriminate].
    exists [c], s'. repeat split; [constructor; exact P | exact H].
  - cbn [exec] in H. apply IHa in H as (u1 & v1 & -> & M1 & H).
    apply IHb in H as (u2 & v2 & -> & M2 & H).
    exists (u1 ++ u2), v2. rewrite <- app_assoc.
    repeat split; [constructor; assumption | exact H].
  - cbn [exec] in H. destruct (exec a s k) eqn:E.
    + injection H as ->. apply IHa in E as (u & v & -> & M & K).
      exists u, v. repeat split; [apply matches_alt_l; exact M | exact K].
    + apply IHb in H as (u & v & -> & M & K).
      exists u, v. repeat split; [apply matches_alt_r; exact M | exact K].
  - rewrite exec_star in H. revert H.
    generalize (List.length s). intros fuel. revert s.
    induction fuel as [|fuel IH]; intros s H.
    + exists [], s. repeat split; [constructor | exact H].
    + rewrite star_loop_S in H.
      destruct (exec a s _) eqn:E.
      * injection H as ->. apply IHa in E as (u1 & v1 & -> & M1 & K1).
        destruct (List.length v1 <? List.length (u1 ++ v1))%nat; [|discriminate].
        apply IH in K1 as (u2 & v2 & -> & M2 & K2).
        exists (u1 ++ u2), v2. rewrite <- app_assoc.
        repeat split; [constructor; assumption | exact K2].
      * exists [], s. repeat split; [constructor | exact H].
Qed.

(** ** The matcher misses no match *)

Lemma star_loop_ext (a : regex) (k1 k2 : str -> option str)
    (E : forall s k k', (forall x, k x = k' x) -> exec a s k = exec a s k') :
  (forall x, k1 x = k2 x) ->
  forall fuel s, star_loop a k1 fuel s = star_loop a k2 fuel s.
Proof.
  intros K fuel. induction fuel as [|fuel IH]; intros s.
  - apply K.
  - rewrite !star_loop_S.
    rewrite (E s _ (fun s1 =>
      if (List.length s1 <? List.length s)%nat then star_loop a k2 fuel s1 else None)).
    + rewrite K. reflexivity.
    + intros x. destruct (List.length x <? List.length s)%nat; [apply IH | reflexivity].
Qed.

Lemma exec_ext (r : regex) :
  forall (s : str) (k k' : str -> option str),
    (forall x, k x = k' x) -> exec r s k = exec r s k'.
Proof.
  induction r as [|p|a IHa b IHb|a IHa b IHb|a IHa]; intros s k k' K.
  - apply K.
  - cbn [exec]. destruct s as [|c s']; [reflexivity|]. rewrite K. reflexivity.
  - cbn [exec]. apply IHa. intros x. apply IHb, K.
  - cbn [exec]. rewrite (IHa s k k' K), (IHb s k k' K). reflexivity.
  - rewrite !exec_star. apply star_loop_ext; assumption.
Qed.

Lemma exec_none (r : regex) :
  forall (s : str) (k : str -> option str),
    (forall x, k x = None) -> exec r s k = None.
Proof.
  intros s k K. destruct (exec r s k) as [t|] eqn:E; [|reflexivity].
  apply exec_sound in E as (u & v & _ & _ & E). rewrite K in E. discriminate.
Qed.

(** Each iteration of a repetition consumes something, so any fuel that
    covers the length of the text gives the same run. *)
Lemma star_loop_fuel (a : regex) (k : str -> option str) :
  forall (f1 f2 : nat) (s : str),
    (List.length s <= f1)%nat -> (List.length s <= f2)%nat ->
    star_loop a k f1 s = star_loop a k f2 s.
Proof.
  assert (Z0 : forall f s, List.length s = O -> star_loop a k f s = k s).
  { intros [|f] s L; [reflexivity|]. rewrite star_loop_S.
    rewrite exec_none; [reflexivity|].
    intros x. rewrite L. replace (List.length x <? 0)%nat with false; [reflexivity|].
    symmetry. apply Nat.ltb_ge. lia. }
  induction f1 as [|f1 IH]; intros f2 s L1 L2.
  - rewrite !Z0 by lia. reflexivity.
  - destruct f2 as [|f2]; [rewrite !Z0 by lia; reflexivity|].
    rewrite !star_loop_S.
    rewrite (exec_ext a s _ (fun s1 =>
      if (List.length s1 <? List.length s)%nat then star_loop a k f2 s1 else None)).
    + reflexivity.
    + intros x. destruct (List.length x <? List.length s)%nat eqn:Lx; [|reflexivity].
      apply Nat.ltb_lt in Lx. apply IH; lia.
Qed.

Lemma exec_complete (r : regex) (u : str) :
  matches r u ->
  forall (v : str) (k : str -> option str) (t : str),
    k v = Some t -> exists t', exec r (u ++ v) k = Some t'.
Proof.
  induction 1 as [|p c P|a b u1 u2 M1 IH1 M2 IH2|a b u M IH|a b u M IH
                  |a|a u1 u2 M1 IH1 M2 IH2]; intros v k t K.
  - exists t. exact K.
  - exists t. cbn [exec app]. rewrite P. exact K.
  - cbn [exec]. rewrite <- app_assoc.
    destruct (IH2 v k t K) as [t2 E2].
    apply (IH1 (u2 ++ v) (fun s1 => exec b s1 k) t2 E2).
  - cbn [exec]. destruct (IH v k t K) as [t' E]. rewrite E. exists t'. reflexivity.
  - cbn [exec]. destruct (exec a (u ++ v) k) as [t1|]; [exists t1; reflexivity|].
    apply (IH v k t K).
  - rewrite exec_star. cbn [app].
    destruct (List.length v) as [|f]; [exists t; exact K|].
    rewrite star_loop_S. destruct (exec a v _) as [t1|]; [exists t1; reflexivity|].
    exists t. exact K.
  - destruct u1 as [|c u1]; [apply (IH2 v k t K)|].
    destruct (IH2 v k t K) as [t2 E2]. rewrite exec_star in E2.
    rewrite exec_star. rewrite <- app_assoc.
    cbn [app List.length]. rewrite star_loop_S.
    destruct (IH1 (u2 ++ v)
                (fun s1 =>
                   if (List.length s1 <? List.length (c :: u1 ++ u2 ++ v))%nat
                   then star_loop a k (List.length (u1 ++ u2 ++ v)) s1 else None) t2)
      as [t1 E1].
    + replace (List.length (u2 ++ v) <? List.length (c :: u1 ++ u2 ++ v))%nat with true.
      * rewrite <- E2. apply star_loop_fuel; [|lia].
        rewrite !length_app. lia.
      * symmetry. apply Nat.ltb_lt. cbn [List.length]. rewrite !length_app. lia.
    + cbn [app] in E1. rewrite E1. exists t1. reflexivity.
Qed.

(** ** Anchored and leftmost matches *)

Lemma match_here_sound (r : regex) (s m rest : str) :
  match_here r s = Some (m, rest) -> s = m ++ rest /\ matches r m.
Proof.
  unfold match_here. destruct (exec r s Some) as [t|] eqn:E; [|discriminate].
  intros H. injection H as <- <-.
  apply exec_sound in E as (u & v & -> & M & K). injection K as ->.
  rewrite length_app, Nat.add_sub, firstn_app, Nat.sub_diag, firstn_all.
  cbn [firstn]. rewrite app_nil_r. split; [reflexivity | exact M].
Qed.

Lemma match_here_complete (r : regex) (u v : str) :
  matches r u -> match_here r (u ++ v) <> None.
Proof.
  intros M. unfold match_here.
  destruct (exec_complete r u M v Some v eq_refl) as [t E]. rewrite E. discriminate.
Qed.

Lemma match_here_none (r : regex) (s u v : str) :
  match_here r s = None -> s = u ++ v -> ~ matches r u.
Proof.
  intros H -> M. exact (match_here_complete r u v M H).
Qed.

(** The result of [match_first] is accepted by the pattern and occurs in
    the text, and no accepted text starts earlier. *)
Lemma match_first_sound (r : regex) (s m : str) :
  match_first r s = Some m ->
  matches r m /\
  exists pre, occurs_at pre m s /\
    forall pre' m', occurs_at pre' m' s -> matches r m' ->
                    (List.length pre <= List.length pre')%nat.
Proof.
  revert m. induction s as [|c s IH]; intros m H.
  - cbn [match_first] in H. destruct (match_here r []) as [[m0 rest]|] eqn:E; [|discriminate].
    injection H as ->. apply match_here_sound in E as [E M].
    split; [exact M|]. exists []. split; [exists rest; exact E|]. intros; cbn; lia.
  - cbn [match_first] in H. destruct (match_here r (c :: s)) as [[m0 rest]|] eqn:E.
    + injection H as ->. apply match_here_sound in E as [E M].
      split; [exact M|]. exists []. split; [exists rest; exact E|]. intros; cbn; lia.
    + apply IH in H as (M & pre & [post O] & Least).
      split; [exact M|]. exists (c :: pre). split; [exists post; rewrite O; reflexivity|].
      intros pre' m' [post' O'] M'.
      destruct pre' as [|c' pre'].
      * exfalso. exact (match_here_none r _ m' post' E O' M').
      * cbn [app] in O'. injection O' as _ O'. cbn [List.length].
        apply le_n_S. apply (Least pre' m'); [exists post'; exact O' | exact M'].
Qed.

Lemma match_first_complete (r : regex) (s pre m : str) :
  occurs_at pre m s -> matches r m -> match_first r s <> None.
Proof.
  intros [post ->] M. induction pre as [|c pre IH].
  - cbn [app]. destruct (m ++ post) eqn:E; cbn [match_first];
      pose proof (match_here_complete r m post M) as C; rewrite E in C;
      destruct (match_here r _) as [[? ?]|]; congruence.
  - cbn [app match_first]. destruct (match_here r _) as [[? ?]|]; [discriminate|].
    exact IH.
Qed.

End Patterns.

(* ===================================================================== *)
(** * The form of the parsed fields ([extractDocumentData]) *)
(* ===================================================================== *)

Module FieldShapes.

Import Fields Patterns.

Definition digits (s : str) : Prop := Forall (fun c => is_digit c = true) s.
Definition spaces (s : str) : Prop := Forall (fun c => is_space c = true) s.

(** ** Reading a pattern back from an accepted text *)

Lemma matches_eps_inv (u : str) : matches Eps u -> u = [].
Proof. inversion 1; reflexivity. Qed.

Lemma matches_cls_inv (p : N -> bool) (u : str) :
  matches (Cls p) u -> exists c, u = [c] /\ p c = true.
Proof. inversion 1; subst. eexists; split; [reflexivity | assumption]. Qed.

Lemma matches_cat_inv (a b : regex) (u : str) :
  matches (Cat a b) u ->
  exists u1 u2, u = u1 ++ u2 /\ matches a u1 /\ matches b u2.
Proof. inversion 1; subst. eexists _, _; repeat split; assumption. Qed.

Lemma matches_alt_inv (a b : regex) (u : str) :
  matches (Alt a b) u -> matches a u \/ matches b u.
Proof. inversion 1; subst; [left | right]; assumption. Qed.

Lemma matches_opt_chr (c : N) (u : str) :
  matches (Opt (Chr c)) u -> u = [] \/ u = [c].
Proof.
  intros M. apply matches_alt_inv in M as [M | M].
  - apply matches_cls_inv in M as (d & -> & E). apply N.eqb_eq in E. subst. right; reflexivity.
  - left. apply matches_eps_inv, M.
Qed.

Lemma matches_star_cls (p : N -> bool) (u : str) :
  matches (Star (Cls p)) u -> Forall (fun c => p c = true) u.
Proof.
  intros M. remember (Star (Cls p)) as r eqn:R.
  induction M as [| | | | | |a u v M1 _ M2 IH2]; try discriminate.
  - constructor.
  - injection R as ->. apply matches_cls_inv in M1 as (c & -> & P).
    constructor; [exact P | apply IH2; reflexivity].
Qed.

Lemma matches_plus_cls (p : N -> bool) (u : str) :
  matches (Plus (Cls p)) u ->
  u <> [] /\ Forall (fun c => p c = true) u.
Proof.
  intros M. apply matches_cat_inv in M as (u1 & u2 & -> & M1 & M2).
  apply matches_cls_inv in M1 as (c & -> & P). apply matches_star_cls in M2.
  split; [discriminate | constructor; assumption].
Qed.

Lemma matches_upto_cls (p : N -> bool) (extra : nat) :
  forall u, matches (upto extra (Cls p)) u ->
            Forall (fun c => p c = true) u /\ (List.length u <= extra)%nat.
Proof.
  induction extra as [|n IH]; intros u M; cbn [upto] in M.
  - apply matches_eps_inv in M as ->. split; [constructor | cbn; lia].
  - apply matches_alt_inv in M as [M | M].
    + apply matches_cat_inv in M as (u1 & u2 & -> & M1 & M2).
      apply matches_cls_inv in M1 as (c & -> & P). apply IH in M2 as [F L].
      split; [constructor; assumption | cbn; lia].
    + apply matches_eps_inv in M as ->. split; [constructor | cbn; lia].
Qed.

Lemma matches_times_cls (p : N -> bool) (lo extra : nat) :
  forall u, matches (times lo extra (Cls p)) u ->
            Forall (fun c => p c = true) u /\
            (lo <= List.length u <= lo + extra)%nat.
Proof.
  induction lo as [|n IH]; intros u M; cbn [times] in M.
  - apply matches_upto_cls in M as [F L]. split; [exact F | lia].
  - apply matches_cat_inv in M as (u1 & u2 & -> & M1 & M2).
    apply matches_cls_inv in M1 as (c & -> & P). apply IH in M2 as [F L].
    split; [constructor; assumption | cbn; lia].
Qed.

(** A literal word accepts itself only; with the [i] flag, any text with
    the same lower-case form. *)
Lemma matches_word_exact (l u : str) :
  matches (fold_right (fun c r => Cat (unit_re false c) r) Eps l) u -> u = l.
Proof.
  revert u. induction l as [|c l IH]; intros u M; cbn [fold_right] in M.
  - apply matches_eps_inv, M.
  - apply matches_cat_inv in M as (u1 & u2 & -> & M1 & M2).
    apply matches_cls_inv in M1 as (d & -> & E). apply N.eqb_eq in E. subst d.
    rewrite (IH _ M2). reflexivity.
Qed.

Lemma matches_word_icase (l u : str) :
  matches (fold_right (fun c r => Cat (unit_re true c) r) Eps l) u ->
  toLowerCase u = toLowerCase l.
Proof.
  revert u. induction l as [|c l IH]; intros u M; cbn [fold_right] in M.
  - apply matches_eps_inv in M as ->. reflexivity.
  - apply matches_cat_inv in M as (u1 & u2 & -> & M1 & M2).
    apply matches_cls_inv in M1 as (d & -> & E). apply N.eqb_eq in E.
    cbn [app toLowerCase map]. rewrite E. f_equal. apply (IH _ M2).
Qed.

(** Every code unit of an accepted text passes one of the classes of the
    pattern. *)
Fixpoint units (P : N -> Prop) (r : regex) : Prop :=
  match r with
  | Eps => True
  | Cls p => forall c, p c = true -> P c
  | Cat a b | Alt a b => units P a /\ units P b
  | Star a => units P a
  end.

Lemma matches_units (P : N -> Prop) (r : regex) (u : str) :
  matches r u -> units P r -> Forall P u.
Proof.
  induction 1 as [|p c H|a b u v _ IH1 _ IH2|a b u _ IH|a b u _ IH
                  |a|a u v _ IH1 _ IH2]; cbn [units]; intros U.
  - constructor.
  - constructor; [apply U, H | constructor].
  - apply Forall_app. split; [apply IH1, U | apply IH2, U].
  - apply IH, U.
  - apply IH, U.
  - constructor.
  - apply Forall_app. split; [apply IH1, U | apply IH2, U].
Qed.

(** ** Facts about the classes *)

Ltac class_cases :=
  repeat match goal with
         | H : (_ && _) = true |- _ => apply andb_true_iff in H; destruct H
         | H : (_ <=? _) = true |- _ => apply N.leb_le in H
         | H : (_ =? _) = true |- _ => apply N.eqb_eq in H
         end;
  repeat match goal with
         | |- context [?a <=? ?b] => destruct (N.leb_spec a b); try lia
         | |- context [?a =? ?b] => destruct (N.eqb_spec a b); try lia
         end;
  try reflexivity; try lia.

Lemma digit_not_comma (c : N) : is_digit c = true -> c <> 44.
Proof. unfold is_digit, in_range. intros H. class_cases. Qed.

Lemma space_not_comma (c : N) : is_space c = true -> c <> 44.
Proof. intros H ->. discriminate H. Qed.

Lemma upper_not_separator (c : N) :
  is_upper c = true -> is_space c || (c =? 58) = false.
Proof.
  unfold is_upper, is_space, in_range. intros H. class_cases.
Qed.

Lemma lower_unit_digit (c : N) :
  is_digit (lower_unit c) = false -> is_digit c = false.
Proof.
  unfold lower_unit, is_upper, is_digit, in_range.
  destruct ((65 <=? c) && (c <=? 90)) eqn:U; [|trivial].
  intros _. class_cases.
Qed.

Lemma separator_not_digit (c : N) :
  is_space c || (c =? 35) || (c =? 58) = true -> is_digit c = false.
Proof.
  destruct (is_digit c) eqn:D; [|reflexivity].
  intros H. rewrite <- H. symmetry.
  unfold is_digit, in_range in D. unfold is_space, in_range. clear H.
  class_cases.
Qed.

(** ** Facts about the rewriting steps *)

Lemma replace_first_skip (a b : N) (pre s : str) :
  Forall (fun c => c <> a) pre ->
  replace_first a b (pre ++ s) = pre ++ replace_first a b s.
Proof.
  induction 1 as [|c pre H _ IH]; [reflexivity|].
  cbn [app replace_first]. apply N.eqb_neq in H. rewrite H, IH. reflexivity.
Qed.

Lemma replace_first_absent (a b : N) (s : str) :
  Forall (fun c => c <> a) s -> replace_first a b s = s.
Proof.
  intros F. rewrite <- (app_nil_r s) at 1.
  rewrite (replace_first_skip a b s [] F). apply app_nil_r.
Qed.

Lemma filter_none (p : N -> bool) (s : str) :
  Forall (fun c => p c = false) s -> List.filter p s = [].
Proof.
  induction 1 as [|c s H _ IH]; [reflexivity|]. cbn [List.filter]. rewrite H. exact IH.
Qed.

Lemma filter_all (p : N -> bool) (s : str) :
  Forall (fun c => p c = true) s -> List.filter p s = s.
Proof.
  induction 1 as [|c s H _ IH]; [reflexivity|]. cbn [List.filter]. rewrite H, IH. reflexivity.
Qed.

(** A greedy run over a class takes all of it. *)
Lemma star_cls_greedy (p : N -> bool) (run rest : str) :
  Forall (fun c => p c = true) run ->
  (forall c rest', rest = c :: rest' -> p c = false) ->
  exec (Star (Cls p)) (run ++ rest) Some = Some rest.
Proof.
  intros F Stop. rewrite exec_star.
  assert (G : forall fuel, (List.length (run ++ rest) <= fuel)%nat ->
                           star_loop (Cls p) Some fuel (run ++ rest) = Some rest).
  { induction F as [|c run P _ IH]; intros fuel L.
    - cbn [app] in *. destruct fuel as [|fuel]; [reflexivity|].
      rewrite star_loop_S. cbn [exec].
      destruct rest as [|c rest']; [reflexivity|].
      rewrite (Stop c rest' eq_refl). reflexivity.
    - cbn [app List.length] in *. destruct fuel as [|fuel]; [lia|].
      rewrite star_loop_S. cbn [exec]. rewrite P.
      rewrite IH by lia.
      destruct (Nat.ltb_spec (List.length (run ++ rest)) (List.length (c :: run ++ rest)))
        as [_ | Bad]; [reflexivity | cbn [List.length] in Bad; lia]. }
  apply G. lia.
Qed.

(** [m.replace(/[^\d]/g, '')] keeps the digits and drops the rest. *)
Lemma keep_digits_none (s : list N) :
  Forall (fun c => is_digit c = false) s -> filter is_digit s = [].
Proof.
  induction 1 as [|c s H _ IH]; [reflexivity|].
  rewrite (filter_cons_False (fun c => Is_true (is_digit c))); [exact IH|].
  rewrite H. exact id.
Qed.

Lemma keep_digits_all (s : list N) : digits s -> filter is_digit s = s.
Proof.
  induction 1 as [|c s H _ IH]; [reflexivity|].
  rewrite (filter_cons_True (fun c => Is_true (is_digit c)));
    [f_equal; exact IH|].
  rewrite H. exact I.
Qed.

Lemma keyword_no_digit (w : str) :
  forall kw, toLowerCase kw = w ->
             Forall (fun c => is_digit c = false) w ->
             Forall (fun c => is_digit c = false) kw.
Proof.
  induction w as [|d w IH]; intros [|c kw] E F; try discriminate; [constructor|].
  cbn [toLowerCase map] in E. injection E as E1 E2. inversion F as [|? ? Hd Hw]; subst.
  constructor; [apply lower_unit_digit, Hd | apply (IH kw eq_refl Hw)].
Qed.

Lemma one_of_inv (s : string) (c : N) :
  existsb (N.eqb c) (lit s) = true -> In c (lit s).
Proof.
  intros H. apply existsb_exists in H as (x & Hx & E).
  apply N.eqb_eq in E. subst. exact Hx.
Qed.

(** ** The four fields *)

Definition keywords : list str :=
  [lit "factura"; lit "invoice"; lit "ticket"; lit "recibo"].

Definition prepositions : list str := [lit "de"; lit "from"; lit "para"; lit "to"].

Lemma matches_keywords (icase : bool) (ws : list string) (u : str) :
  matches (Words icase ws) u ->
  exists w, In w ws /\ matches (Word icase w) u.
Proof.
  destruct ws as [|w ws]; cbn [Words].
  - intros M. apply matches_cls_inv in M as (c & _ & F). discriminate.
  - revert w. induction ws as [|w' ws IH]; intros w M; cbn [fold_left] in M.
    + exists w. split; [left; reflexivity | exact M].
    + assert (G : forall r, matches (fold_left (fun r w0 => Alt r (Word icase w0)) ws r) u ->
                            matches r u \/ exists w0, In w0 ws /\ matches (Word icase w0) u).
      { clear. induction ws as [|x ws IH]; intros r M; cbn [fold_left] in M.
        - left. exact M.
        - apply IH in M as [M | (w0 & I0 & M)].
          + apply matches_alt_inv in M as [M | M]; [left; exact M|].
            right. exists x. split; [left; reflexivity | exact M].
          + right. exists w0. split; [right; exact I0 | exact M]. }
      apply G in M as [M | (w0 & I0 & M)].
      * apply matches_alt_inv in M as [M | M].
        -- exists w. split; [left; reflexivity | exact M].
        -- exists w'. split; [right; left; reflexivity | exact M].
      * exists w0. split; [right; right; exact I0 | exact M].
Qed.

(** X12: an amount that [extractDocumentData] sets is text of the form
    digits, a period, two digits, white space, and at most one euro sign;
    it is an occurrence in the OCR text with the decimal separator, period
    or comma there, written as a period.  So the field never holds a
    comma, and never a number. *)
Theorem amount_shape (text : str) (v : jsval) :
  amount (extractDocumentData text) = Some v ->
  exists whole sep cents gap sign pre,
    v = JStr (whole ++ 46 :: cents ++ gap ++ sign) /\
    whole <> [] /\ digits whole /\
    List.length cents = 2%nat /\ digits cents /\
    spaces gap /\ (sign = [] \/ sign = [euro]) /\
    (sep = 46 \/ sep = 44) /\
    occurs_at pre (whole ++ sep :: cents ++ gap ++ sign) text.
Proof.
  unfold extractDocumentData; cbn [amount].
  destruct (match_first amountRegex text) as [m|] eqn:E; [|discriminate].
  intros H. injection H as <-.
  apply match_first_sound in E as (M & pre & O & _). unfold amountRegex in M.
  apply matches_cat_inv in M as (body & tail & -> & Mb & Mt).
  apply matches_cat_inv in Mb as (whole & frac & -> & Mw & Mf).
  apply matches_plus_cls in Mw as [Wne Wd].
  apply matches_cat_inv in Mf as (sepu & cents & -> & Ms & Mc).
  apply matches_cls_inv in Ms as (sep & -> & Ps).
  apply matches_times_cls in Mc as [Cd Cl].
  apply matches_cat_inv in Mt as (gap & sign & -> & Mg & Msg).
  apply matches_star_cls in Mg. apply matches_opt_chr in Msg.
  apply one_of_inv in Ps. cbn in Ps.
  assert (Sep : sep = 46 \/ sep = 44) by (destruct Ps as [<- | [<- | []]]; auto).
  assert (Tail : Forall (fun c => c <> 44) (cents ++ gap ++ sign)).
  { apply Forall_app. split.
    - eapply List.Forall_impl; [|exact Cd]. apply digit_not_comma.
    - apply Forall_app. split.
      + eapply List.Forall_impl; [|exact Mg]. apply space_not_comma.
      + destruct Msg as [-> | ->]; repeat constructor. discriminate. }
  rewrite <- !app_assoc in O |- *. cbn [app] in O |- *.
  exists whole, sep, cents, gap, sign, pre.
  split.
  - f_equal. rewrite replace_first_skip
      by (eapply List.Forall_impl; [|exact Wd]; apply digit_not_comma).
    f_equal. cbn [replace_first].
    destruct Sep as [-> | ->]; cbn [N.eqb Pos.eqb]; [|reflexivity].
    rewrite replace_first_absent by exact Tail. reflexivity.
  - repeat split; try assumption. lia.
Qed.

Lemma amount_shape_witness :
  exists whole sep cents gap sign pre,
    JStr (lit "45.67" ++ [euro]) = JStr (whole ++ 46 :: cents ++ gap ++ sign) /\
    whole <> [] /\ digits whole /\
    List.length cents = 2%nat /\ digits cents /\
    spaces gap /\ (sign = [] \/ sign = [euro]) /\
    (sep = 46 \/ sep = 44) /\
    occurs_at pre (whole ++ sep :: cents ++ gap ++ sign) invoice_line.
Proof.
  apply (amount_shape invoice_line (JStr (lit "45.67" ++ [euro]))).
  vm_compute. reflexivity.
Defined.

(** X13: an issue date that [extractDocumentData] sets is an occurrence
    in the OCR text of one or two digits, a separator, one or two digits,
    a separator, and two to four digits, each separator a slash, a hyphen
    or a period.  Nothing else is checked: the two separators may differ
    and the numbers need not name a day or a month. *)
Theorem issueDate_shape (text : str) (v : jsval) :
  issueDate (extractDocumentData text) = Some v ->
  exists d s1 m s2 y pre,
    v = JStr (d ++ s1 :: m ++ s2 :: y) /\
    digits d /\ (1 <= List.length d <= 2)%nat /\
    digits m /\ (1 <= List.length m <= 2)%nat /\
    digits y /\ (2 <= List.length y <= 4)%nat /\
    In s1 (lit "/-.") /\ In s2 (lit "/-.") /\
    occurs_at pre (d ++ s1 :: m ++ s2 :: y) text.
Proof.
  unfold extractDocumentData; cbn [issueDate].
  destruct (match_first dateRegex text) as [w|] eqn:E; [|discriminate].
  intros H. injection H as <-.
  apply match_first_sound in E as (M & pre & O & _). unfold dateRegex in M.
  apply matches_cat_inv in M as (d & r1 & -> & Md & M).
  apply matches_cat_inv in M as (u1 & r2 & -> & M1 & M).
  apply matches_cat_inv in M as (m & r3 & -> & Mm & M).
  apply matches_cat_inv in M as (u2 & y & -> & M2 & My).
  apply matches_cls_inv in M1 as (s1 & -> & P1).
  apply matches_cls_inv in M2 as (s2 & -> & P2).
  apply matches_times_cls in Md as [Dd Dl].
  apply matches_times_cls in Mm as [Dm Ml].
  apply matches_times_cls in My as [Dy Yl].
  apply one_of_inv in P1, P2.
  cbn [app] in O |- *.
  exists d, s1, m, s2, y, pre. repeat split; try assumption; lia.
Qed.

Lemma issueDate_shape_witness :
  exists d s1 m s2 y pre,
    JStr (lit "15/03/2024") = JStr (d ++ s1 :: m ++ s2 :: y) /\
    digits d /\ (1 <= List.length d <= 2)%nat /\
    digits m /\ (1 <= List.length m <= 2)%nat /\
    digits y /\ (2 <= List.length y <= 4)%nat /\
    In s1 (lit "/-.") /\ In s2 (lit "/-.") /\
    occurs_at pre (d ++ s1 :: m ++ s2 :: y) invoice_line.
Proof.
  apply (issueDate_shape invoice_line (JStr (lit "15/03/2024"))).
  vm_compute. reflexivity.
Defined.

(** X14: an invoice number that [extractDocumentData] sets is a
    non-empty run of digits, and the OCR text has it right after one of
    the words factura, invoice, ticket or recibo (in any letter case) and
    a possibly empty run of white space, hash signs and colons. *)
Theorem invoiceNumber_shape (text : str) (v : jsval) :
  invoiceNumber (extractDocumentData text) = Some v ->
  exists number keyword gap pre,
    v = JStr number /\ number <> [] /\ digits number /\
    In (toLowerCase keyword) keywords /\
    Forall (fun c => is_space c || (c =? 35) || (c =? 58) = true) gap /\
    occurs_at pre (keyword ++ gap ++ number) text.
Proof.
  unfold extractDocumentData; cbn [invoiceNumber].
  destruct (match_first invoiceRegex text) as [w|] eqn:E; [|discriminate].
  intros H. injection H as <-.
  apply match_first_sound in E as (M & pre & O & _). unfold invoiceRegex in M.
  apply matches_cat_inv in M as (keyword & r1 & -> & Mk & M).
  apply matches_cat_inv in M as (gap & number & -> & Mg & Mn).
  apply matches_star_cls in Mg. apply matches_plus_cls in Mn as [Nne Nd].
  apply matches_keywords in Mk as (w & Iw & Mk).
  apply matches_word_icase in Mk.
  assert (K : In (toLowerCase keyword) keywords).
  { rewrite Mk. cbn [In] in Iw.
    destruct Iw as [<- | [<- | [<- | [<- | []]]]]; vm_compute; auto. }
  assert (Kd : Forall (fun c => is_digit c = false) keyword).
  { apply (keyword_no_digit (toLowerCase keyword) keyword eq_refl).
    unfold keywords in K. cbn [In] in K.
    destruct K as [<- | [<- | [<- | [<- | []]]]];
      apply List.Forall_forall; intros c Hc; cbn in Hc;
      repeat (destruct Hc as [<- | Hc]; [reflexivity|]); destruct Hc. }
  exists number, keyword, gap, pre. repeat split; try assumption.
  f_equal. rewrite !(filter_app (fun c => Is_true (is_digit c))).
  rewrite (keep_digits_none keyword Kd), (keep_digits_all number Nd).
  rewrite keep_digits_none; [reflexivity|].
  eapply List.Forall_impl; [|exact Mg]. apply separator_not_digit.
Qed.

Lemma invoiceNumber_shape_witness :
  exists number keyword gap pre,
    JStr (lit "4521") = JStr number /\ number <> [] /\ digits number /\
    In (toLowerCase keyword) keywords /\
    Forall (fun c => is_space c || (c =? 35) || (c =? 58) = true) gap /\
    occurs_at pre (keyword ++ gap ++ number) invoice_line.
Proof.
  apply (invoiceNumber_shape invoice_line (JStr (lit "4521"))).
  vm_compute. reflexivity.
Defined.

(** The name part of [providerRegex]: capitalised words, white space
    between them. *)
Definition providerName : regex :=
  Cat capitalized (Star (Cat (Plus space) capitalized)).

Ltac eval_lits :=
  repeat match goal with
         | |- context [lit ?w] =>
             let x := eval vm_compute in (lit w) in change (lit w) with x
         end.

Ltac eval_tests :=
  repeat match goal with
         | |- context [lower_unit ?a =? lower_unit ?b] =>
             let x := eval vm_compute in (lower_unit a =? lower_unit b) in
             change (lower_unit a =? lower_unit b) with x
         end.

(** The alternation of [providerPrefix] on a text that starts with one of
    its words: the word is consumed, whatever follows. *)
Lemma exec_prepositions (w s : str) (k : str -> option str) :
  In w prepositions ->
  exec (Words true ["de"; "from"; "para"; "to"]%string) (w ++ s) k = k s.
Proof.
  unfold prepositions. cbn [In].
  intros [<- | [<- | [<- | [<- | []]]]];
    unfold Words, Word; cbn [fold_left]; eval_lits;
    cbn [fold_right exec unit_re app]; eval_tests; cbv beta iota;
    try reflexivity; destruct (k s); reflexivity.
Qed.

Lemma strip_preposition (w gap : str) (first : N) (rest : str) :
  In w prepositions ->
  gap <> [] -> Forall (fun c => is_space c || (c =? 58) = true) gap ->
  is_upper first = true ->
  strip_prefix providerPrefix (w ++ gap ++ first :: rest) = first :: rest.
Proof.
  intros Iw Gne G U.
  assert (Run : exec (Plus space_or_colon) (gap ++ first :: rest) Some =
                Some (first :: rest)).
  { destruct G as [|g gap Pg G]; [congruence|].
    unfold Plus, space_or_colon. cbn [exec app]. rewrite Pg.
    apply star_cls_greedy; [exact G|].
    intros c rest' E. injection E as <- _. apply upper_not_separator, U. }
  assert (E : exec providerPrefix (w ++ gap ++ first :: rest) Some =
              Some (first :: rest)).
  { unfold providerPrefix. cbn [exec].
    rewrite (exec_prepositions w _ _ Iw). exact Run. }
  unfold strip_prefix, match_here. rewrite E. reflexivity.
Qed.

(** X15: a provider that [extractDocumentData] sets is a sequence of
    capitalised words (an upper-case ASCII letter, then lower-case ASCII
    letters) with white space between them, and the OCR text has it right
    after one of the words de, from, para or to (in lower case) and a
    non-empty run of white space and colons. *)
Theorem provider_shape (text : str) (v : jsval) :
  provider (extractDocumentData text) = Some v ->
  exists name preposition gap pre,
    v = JStr name /\ matches providerName name /\
    (exists first rest, name = first :: rest /\ is_upper first = true) /\
    Forall (fun c => is_upper c || is_lower c || is_space c = true) name /\
    In preposition prepositions /\
    gap <> [] /\ Forall (fun c => is_space c || (c =? 58) = true) gap /\
    occurs_at pre (preposition ++ gap ++ name) text.
Proof.
  unfold extractDocumentData; cbn [provider].
  destruct (match_first providerRegex text) as [w|] eqn:E; [|discriminate].
  intros H. injection H as <-.
  apply match_first_sound in E as (M & pre & O & _). unfold providerRegex in M.
  apply matches_cat_inv in M as (prep & r1 & -> & Mp & M).
  apply matches_cat_inv in M as (gap & name & -> & Mg & Mn).
  apply matches_plus_cls in Mg as [Gne G].
  apply matches_keywords in Mp as (w & Iw & Mp).
  apply matches_word_exact in Mp. subst prep.
  assert (P : In (lit w) prepositions).
  { cbn [In] in Iw. destruct Iw as [<- | [<- | [<- | [<- | []]]]]; cbn; auto. }
  change (matches providerName name) in Mn.
  assert (F : exists first rest, name = first :: rest /\ is_upper first = true).
  { pose proof Mn as Mn'. unfold providerName, capitalized in Mn'.
    apply matches_cat_inv in Mn' as (u1 & u2 & -> & M1 & _).
    apply matches_cat_inv in M1 as (u3 & u4 & -> & M3 & _).
    apply matches_cls_inv in M3 as (c & -> & U).
    eexists c, _. split; [reflexivity | exact U]. }
  destruct F as (first & rest & -> & U).
  exists (first :: rest), (lit w), gap, pre.
  split; [f_equal; apply strip_preposition; assumption|].
  split; [exact Mn|].
  split; [exists first, rest; split; [reflexivity | exact U]|].
  split; [|repeat split; assumption].
  apply (matches_units _ _ _ Mn). cbn [units providerName capitalized Plus space].
  repeat split; intros c Hc; rewrite Hc; cbn; rewrite ?orb_true_r; reflexivity.
Qed.

Lemma provider_shape_witness :
  exists name preposition gap pre,
    JStr (lit "Repsol") = JStr name /\ matches providerName name /\
    (exists first rest, name = first :: rest /\ is_upper first = true) /\
    Forall (fun c => is_upper c || is_lower c || is_space c = true) name /\
    In preposition prepositions /\
    gap <> [] /\ Forall (fun c => is_space c || (c =? 58) = true) gap /\
    occurs_at pre (preposition ++ gap ++ name) invoice_line.
Proof.
  apply (provider_shape invoice_line (JStr (lit "Repsol"))).
  vm_compute. reflexivity.
Defined.

(** [m] is accepted by [r], occurs in [text], and no accepted text starts
    earlier in [text]. *)
Definition leftmost (r : regex) (text m : str) : Prop :=
  matches r m /\
  exists pre, occurs_at pre m text /\
    forall pre' m', occurs_at pre' m' text -> matches r m' ->
                    (List.length pre <= List.length pre')%nat.

Lemma match_first_cases (r : regex) (text : str) :
  match match_first r text with
  | Some m => leftmost r text m
  | None => forall pre m, occurs_at pre m text -> ~ matches r m
  end.
Proof.
  destruct (match_first r text) as [m|] eqn:E.
  - apply match_first_sound, E.
  - intros pre m O M. exact (match_first_complete r text pre m O M E).
Qed.

(** X16: each field of [extractDocumentData] is set exactly when the OCR
    text contains a text its pattern accepts, and is then computed from
    an occurrence at the leftmost position where the pattern accepts
    anything; when the text contains no such occurrence the field is
    absent. *)
Theorem fields_from_leftmost_match (text : str) :
  let d := extractDocumentData text in
  match amount d with
  | Some v => exists m, leftmost amountRegex text m /\ v = JStr (replace_first 44 46 m)
  | None => forall pre m, occurs_at pre m text -> ~ matches amountRegex m
  end /\
  match issueDate d with
  | Some v => exists m, leftmost dateRegex text m /\ v = JStr m
  | None => forall pre m, occurs_at pre m text -> ~ matches dateRegex m
  end /\
  match invoiceNumber d with
  | Some v => exists m, leftmost invoiceRegex text m /\ v = JStr (filter is_digit m)
  | None => forall pre m, occurs_at pre m text -> ~ matches invoiceRegex m
  end /\
  match provider d with
  | Some v => exists m, leftmost providerRegex text m /\
                        v = JStr (strip_prefix providerPrefix m)
  | None => forall pre m, occurs_at pre m text -> ~ matches providerRegex m
  end.
Proof.
  cbv zeta. unfold extractDocumentData. cbn [amount issueDate invoiceNumber provider].
  repeat split.
  - pose proof (match_first_cases amountRegex text) as C.
    destruct (match_first amountRegex text) as [m|]; [exists m; split; [exact C | reflexivity] | exact C].
  - pose proof (match_first_cases dateRegex text) as C.
    destruct (match_first dateRegex text) as [m|]; [exists m; split; [exact C | reflexivity] | exact C].
  - pose proof (match_first_cases invoiceRegex text) as C.
    destruct (match_first invoiceRegex text) as [m|]; [exists m; split; [exact C | reflexivity] | exact C].
  - pose proof (match_first_cases providerRegex text) as C.
    destruct (match_first providerRegex text) as [m|]; [exists m; split; [exact C | reflexivity] | exact C].
Qed.

End FieldShapes.

(* ===================================================================== *)
(** * The cipher helpers once more: a forged tag, and the helpers with
      one key for all files ([utils/crypto.ts]) *)
(* ===================================================================== *)

Module Sealing.

Import Crypto.

(** X17: the helpers of the documents router authenticate the tag: with
    the cipher text and iv that [encryptBuffer] returned, [decryptBuffer]
    throws for every 16-byte tag other than the one [encryptBuffer]
    returned. *)
Theorem decrypt_rejects_other_tag
    (scryptSync : bytes -> bytes -> nat -> bytes) (FILE_ENC_SECRET : option bytes)
    (iv buffer encrypted authTag forged : bytes) (userId : N) :
  encryptBuffer scryptSync FILE_ENC_SECRET iv buffer userId
    = Some (encrypted, iv, authTag) ->
  List.length forged = 16%nat ->
  forged <> authTag ->
  decryptBuffer scryptSync FILE_ENC_SECRET encrypted iv forged userId = None.
Proof.
  unfold encryptBuffer, decryptBuffer, cipher_run, decipher_run.
  destruct (negb (List.length _ =? 32)%nat); [discriminate|].
  destruct (List.length iv =? 0)%nat; [discriminate|].
  intros [= <- <-] L Ne. rewrite L.
  cbn [valid_tag_length negb Nat.eqb Nat.leb orb andb].
  rewrite firstn_all2 by (rewrite gcm_tag_length; lia).
  destruct (bytes_eqb _ forged) eqn:E; [|reflexivity].
  apply bytes_eqb_eq in E. congruence.
Qed.

(** The four bytes of "hola" for tenant 42, read back with a tag of
    sixteen zero bytes. *)
Lemma decrypt_rejects_other_tag_witness :
  match encryptBuffer toy_kdf None (bytes_of_N 12 7) (utf8 "hola") 42 with
  | Some (encrypted, iv, authTag) =>
      iv = bytes_of_N 12 7 /\ repeat x00 16 <> authTag /\
      decryptBuffer toy_kdf None encrypted iv (repeat x00 16) 42 = None
  | None => False
  end.
Proof.
  destruct (encryptBuffer_succeeds toy_kdf None (bytes_of_N 12 7) (utf8 "hola") 42
              toy_kdf_length eq_refl) as (encrypted & authTag & E & Run).
  rewrite E. split; [reflexivity|].
  assert (Ne : repeat x00 16 <> authTag).
  { vm_compute in Run. injection Run as _ <-. discriminate. }
  split; [exact Ne|].
  exact (decrypt_rejects_other_tag toy_kdf None (bytes_of_N 12 7) (utf8 "hola")
           encrypted authTag (repeat x00 16) 42 E eq_refl Ne).
Defined.

Section GlobalKey.

(** [key]: the decoded [FILE_ENCRYPTION_KEY], or 32 random bytes when the
    variable is not set. *)
Variable key : bytes.

(** [encryptBuffer(plain)]: [{ iv, tag, encrypted }], with [iv] what
    [crypto.randomBytes(12)] returned.  No associated data is set. *)
Definition encryptBuffer (iv plain : bytes) : option (bytes * bytes * bytes) :=
  match cipher_run key iv [] plain with
  | Some (encrypted, tag) => Some (iv, tag, encrypted)
  | None => None
  end.

(** [decryptBuffer(encrypted, iv, tag)] *)
Definition decryptBuffer (encrypted iv tag : bytes) : option bytes :=
  decipher_run key iv [] tag encrypted.

End GlobalKey.

(** X18: the helpers of [utils/crypto.ts] work exactly when the configured
    key has 32 bytes.  Then [decryptBuffer] returns the bytes that were
    given to [encryptBuffer]; with a key of any other length both helpers
    throw on every call. *)
Theorem global_key_helpers (key iv plain : bytes) :
  List.length iv = 12%nat ->
  if (List.length key =? 32)%nat then
    exists tag encrypted,
      encryptBuffer key iv plain = Some (iv, tag, encrypted) /\
      decryptBuffer key encrypted iv tag = Some plain
  else
    encryptBuffer key iv plain = None /\
    forall encrypted tag, decryptBuffer key encrypted iv tag = None.
Proof.
  intros L. destruct (List.length key =? 32)%nat eqn:K.
  - destruct (cipher_run key iv [] plain) as [[ct tag]|] eqn:E.
    + exists tag, ct. unfold encryptBuffer, decryptBuffer. rewrite E.
      split; [reflexivity | apply cipher_decipher, E].
    + exfalso. unfold cipher_run in E. rewrite K, L in E. discriminate.
  - unfold encryptBuffer, decryptBuffer, cipher_run, decipher_run. rewrite K.
    split; [reflexivity | intros; reflexivity].
Qed.

Lemma global_key_helpers_witness :
  exists tag encrypted,
    encryptBuffer (repeat x00 32) (bytes_of_N 12 7) (utf8 "hola")
      = Some (bytes_of_N 12 7, tag, encrypted) /\
    decryptBuffer (repeat x00 32) encrypted (bytes_of_N 12 7) tag = Some (utf8 "hola").
Proof.
  exact (global_key_helpers (repeat x00 32) (bytes_of_N 12 7) (utf8 "hola") eq_refl).
Defined.

End Sealing.

(* ===================================================================== *)
(** * Tag inference ([normalizeTagName], [inferTags], documents router) *)
(* ===================================================================== *)

Module TagEngine.

(** The code units that [normalizeTagName] keeps: [[a-z0-9\s]]. *)
Definition tag_unit (c : N) : bool := is_lower c || is_digit c || is_space c.

(** [\w] *)
Definition word_unit (c : N) : bool :=
  is_lower c || is_upper c || is_digit c || (c =? 95).

(** A literal word, and an alternation of literal words, tried from left
    to right. *)
Definition Lit (w : str) : regex := fold_right (fun c r => Cat (Chr c) r) Eps w.
Definition AnyOf (ws : list str) : regex :=
  fold_right (fun w r => Alt (Lit w) r) (Cls (fun _ => false)) ws.

(** [\b] right after a word character: the text ends here, or goes on
    with a code unit that is not a word character.  Every word of the
    patterns below ends in a letter. *)
Definition boundary (rest : str) : option str :=
  match rest with
  | c :: _ => if word_unit c then None else Some rest
  | [] => Some rest
  end.

(** [/(w1|w2|...)\b/.test(s)] *)
Fixpoint test_word (ws : list str) (s : str) : bool :=
  match exec (AnyOf ws) s boundary with
  | Some _ => true
  | None =>
      match s with
      | [] => false
      | _ :: s' => test_word ws s'
      end
  end.

(** [/w1|w2|.../.test(s)] *)
Definition test (ws : list str) (s : str) : bool :=
  match match_first (AnyOf ws) s with
  | Some _ => true
  | None => false
  end.

(** [Set.prototype.add] on a set kept in insertion order. *)
Definition add (s : str) (tags : list str) : list str :=
  if existsb (str_eqb s) tags then tags else tags ++ [s].

Definition add_if (b : bool) (s : str) (tags : list str) : list str :=
  if b then add s tags else tags.

Definition is_empty (s : str) : bool :=
  match s with
  | [] => true
  | _ :: _ => false
  end.

(** [s || ''] *)
Definition or_empty (s : option str) : str :=
  match s with
  | Some x => x
  | None => []
  end.

(** The accented spelling of the payroll keyword, with U+00F3. *)
Definition nomina_accented : str := lit "n" ++ [243] ++ lit "mina".

Section Unicode.

(** [String.prototype.toLowerCase] and
    [s.normalize('NFD').replace(/\p{Diacritic}/gu, '')], which follow the
    Unicode tables of the runtime. *)
Variable toLowerCase : str -> str.
Variable stripDiacritics : str -> str.

Definition normalizeTagName (name : str) : str :=
  trim (List.filter tag_unit (stripDiacritics (toLowerCase name))).

(** The second loop of [inferTags]: normalise, drop what becomes empty,
    deduplicate. *)
Definition normalize_all (tags : list str) : list str :=
  fold_left (fun normalized tag =>
               let n := normalizeTagName tag in
               if is_empty n then normalized else add n normalized)
            tags [].

(** The first part of [inferTags]: the set [tags]. *)
Definition raw_tags (text : str) (provider : option str) (filename : str)
    (isImage : bool) : list str :=
  let t := toLowerCase text in
  let name := toLowerCase filename in
  let prov := toLowerCase (or_empty provider) in
  let tags := [] in
  let tags :=
    add_if (test_word [lit "factura"; lit "invoice"] t || test [lit "factura"] name)
           (lit "facturas") tags in
  let tags :=
    add_if (test_word [lit "ticket"; lit "recibo"] t || test [lit "ticket"; lit "recibo"] name)
           (lit "tickets") tags in
  let tags :=
    add_if (test_word [lit "nota"; lit "note"] t || test [lit "nota"] name)
           (lit "notas") tags in
  let tags :=
    add_if (test_word [lit "hacienda"; lit "hisenda"; lit "impuesto"; lit "tax"] t)
           (lit "impuestos") tags in
  let tags :=
    add_if (test_word [nomina_accented; lit "nomina"; lit "payroll"] t)
           (lit "nominas") tags in
  let tags :=
    add_if (test_word [lit "banco"; lit "transferencia"; lit "iban"; lit "swift"] t)
           (lit "banco") tags in
  let tags := add_if (negb (is_empty prov)) prov tags in
  let tags := add_if isImage (lit "foto") tags in
  let tags :=
    add_if (negb isImage && (endsWith name (lit ".pdf") || includes t (lit "pdf")))
           (lit "pdf") tags in
  tags.

Definition inferTags (text : str) (provider : option str) (filename : str)
    (isImage : bool) : list str :=
  firstn 10 (normalize_all (raw_tags text provider filename isImage)).

End Unicode.

(** ** Known answers

    The Unicode steps are taken as ASCII lower-casing and as the identity,
    which is what they are on the texts below. *)

Example inferTags_invoice_line :
  inferTags Js.toLowerCase (fun s => s) Fields.invoice_line (Some (lit "Repsol"))
            (lit "scan.PDF") false
  = [lit "facturas"; lit "repsol"; lit "pdf"].
Proof. vm_compute. reflexivity. Qed.

(** A plural is not a match for the text rule ([\b] fails before the s);
    the file name rule has no boundary. *)
Example inferTags_word_boundary :
  inferTags Js.toLowerCase (fun s => s)
            (lit "Facturas emitidas; nota: pago por transferencia") None
            (lit "recibo-1.png") true
  = [lit "tickets"; lit "notas"; lit "banco"; lit "foto"].
Proof. vm_compute. reflexivity. Qed.

Example inferTags_provider_name :
  inferTags Js.toLowerCase (fun s => s) [] (Some (lit "  Gas Natural, S.A. "))
            (lit "x") false
  = [lit "gas natural sa"].
Proof. vm_compute. reflexivity. Qed.

(** ** The form of a normalised name *)

(** No white space at either end. *)
Definition trimmed (s : str) : Prop :=
  (forall c r, s = c :: r -> is_space c = false) /\
  (forall c r, s = r ++ [c] -> is_space c = false).

Definition tag_form (s : str) : Prop :=
  Forall (fun c => tag_unit c = true) s /\ trimmed s.

Lemma trimStart_suffix (s : str) : exists pre, s = pre ++ trimStart s.
Proof.
  induction s as [|c s [pre IH]]; [exists []; reflexivity|].
  cbn [trimStart]. destruct (is_space c).
  - exists (c :: pre). cbn [app]. rewrite <- IH. reflexivity.
  - exists []. reflexivity.
Qed.

Lemma trimStart_head (s : str) (c : N) (r : str) :
  trimStart s = c :: r -> is_space c = false.
Proof.
  induction s as [|d s IH]; cbn [trimStart]; [discriminate|].
  destruct (is_space d) eqn:D; [exact IH|].
  intros [= <- _]. exact D.
Qed.

Lemma trim_sublist (P : N -> Prop) (s : str) : Forall P s -> Forall P (trim s).
Proof.
  intros F. unfold trim.
  destruct (trimStart_suffix s) as [p1 E1].
  destruct (trimStart_suffix (rev (trimStart s))) as [p2 E2].
  rewrite E1 in F. apply Forall_app in F as [_ F].
  apply List.Forall_rev in F. rewrite E2 in F. apply Forall_app in F as [_ F].
  apply List.Forall_rev, F.
Qed.

Lemma trim_trimmed (s : str) : trimmed (trim s).
Proof.
  unfold trim, trimmed.
  destruct (trimStart_suffix (rev (trimStart s))) as [p E].
  split; intros c r H.
  - (* the first unit is the first unit of [trimStart s] *)
    assert (L : trimStart (rev (trimStart s)) = rev r ++ [c]).
    { rewrite <- (rev_involutive (trimStart (rev (trimStart s)))), H. reflexivity. }
    rewrite L in E. rewrite app_assoc in E.
    apply (f_equal (@rev N)) in E. rewrite rev_involutive, rev_app_distr in E.
    cbn [rev app] in E. apply (trimStart_head s c _ E).
  - assert (L : trimStart (rev (trimStart s)) = c :: rev r).
    { rewrite <- (rev_involutive (trimStart (rev (trimStart s)))), H.
      rewrite rev_app_distr. reflexivity. }
    apply (trimStart_head _ c _ L).
Qed.

(** ** Sets in insertion order *)

Lemma add_length (s : str) (tags : list str) :
  (List.length (add s tags) <= S (List.length tags))%nat.
Proof.
  unfold add. destruct (existsb _ tags); [lia|]. rewrite length_app. cbn. lia.
Qed.

Lemma add_if_length (b : bool) (s : str) (tags : list str) :
  (List.length (add_if b s tags) <= S (List.length tags))%nat.
Proof. destruct b; cbn [add_if]; [apply add_length | lia]. Qed.

Lemma existsb_str_eqb (s : str) (tags : list str) :
  existsb (str_eqb s) tags = false -> ~ In s tags.
Proof.
  intros H I. assert (T : existsb (str_eqb s) tags = true).
  { apply existsb_exists. exists s. split; [exact I|].
    unfold str_eqb. apply bool_decide_eq_true. reflexivity. }
  congruence.
Qed.

Lemma add_NoDup (s : str) (tags : list str) :
  List.NoDup tags -> List.NoDup (add s tags).
Proof.
  intros D. unfold add. destruct (existsb _ tags) eqn:E; [exact D|].
  apply existsb_str_eqb in E.
  apply List.NoDup_rev in D. rewrite <- (rev_involutive (tags ++ [s])).
  apply List.NoDup_rev. rewrite rev_app_distr. cbn [rev app].
  constructor; [rewrite <- in_rev; exact E | exact D].
Qed.

Lemma add_In (s x : str) (tags : list str) :
  In x (add s tags) <-> x = s \/ In x tags.
Proof.
  unfold add. destruct (existsb _ tags) eqn:E.
  - split; [auto|]. intros [-> | I]; [|exact I].
    apply existsb_exists in E as (y & I & E). unfold str_eqb in E.
    apply bool_decide_eq_true in E. subst. exact I.
  - rewrite in_app_iff. cbn [In]. intuition congruence.
Qed.

Section Facts.

Variable toLowerCase : str -> str.
Variable stripDiacritics : str -> str.

Local Abbreviation normalize := (normalizeTagName toLowerCase stripDiacritics).

Lemma normalizeTagName_tag_form (name : str) : tag_form (normalize name).
Proof.
  split; [|apply trim_trimmed].
  apply trim_sublist. apply List.Forall_forall. intros c I.
  apply List.filter_In in I. apply I.
Qed.

Definition step (normalized : list str) (tag : str) : list str :=
  let n := normalize tag in
  if is_empty n then normalized else add n normalized.

Lemma normalize_all_fold (tags : list str) :
  normalize_all toLowerCase stripDiacritics tags = fold_left step tags [].
Proof. reflexivity. Qed.

Lemma fold_step_facts (tags : list str) :
  forall acc,
    List.NoDup acc -> Forall (fun n => n <> [] /\ tag_form n) acc ->
    let out := fold_left step tags acc in
    (List.length out <= List.length acc + List.length tags)%nat /\
    List.NoDup out /\ Forall (fun n => n <> [] /\ tag_form n) out.
Proof.
  induction tags as [|tag tags IH]; intros acc D F; cbn [fold_left].
  - cbv zeta. cbn [List.length]. unfold str in *. split; [lia | split; assumption].
  - assert (S1 : (List.length (step acc tag) <= S (List.length acc))%nat).
    { unfold step. destruct (is_empty _); [unfold str; lia | apply add_length]. }
    assert (D1 : List.NoDup (step acc tag)).
    { unfold step. destruct (is_empty _); [exact D | apply add_NoDup, D]. }
    assert (F1 : Forall (fun n => n <> [] /\ tag_form n) (step acc tag)).
    { unfold step. destruct (normalize tag) as [|c r] eqn:E; cbn [is_empty]; [exact F|].
      apply List.Forall_forall. intros x I. apply add_In in I as [-> | I].
      - split; [discriminate|]. rewrite <- E. apply normalizeTagName_tag_form.
      - rewrite List.Forall_forall in F. apply F, I. }
    destruct (IH (step acc tag) D1 F1) as (L & D2 & F2).
    cbv zeta in *. unfold str in *. split; [cbn [List.length]; lia | split; assumption].
Qed.

Lemma fold_step_In (tags : list str) :
  forall acc x,
    (In x acc \/ exists tag, In tag tags /\ normalize tag = x /\ x <> []) ->
    In x (fold_left step tags acc).
Proof.
  induction tags as [|tag tags IH]; intros acc x H; cbn [fold_left].
  - destruct H as [H | (tag & [] & _)]. exact H.
  - apply IH. destruct H as [H | (tag' & [<- | I] & E & Ne)].
    + left. unfold step. destruct (is_empty _); [exact H|]. apply add_In. right. exact H.
    + left. unfold step. rewrite E. destruct x; [congruence|]. cbn [is_empty].
      apply add_In. left. reflexivity.
    + right. exists tag'. repeat split; assumption.
Qed.

Lemma raw_tags_length (text : str) (provider : option str) (filename : str)
    (isImage : bool) :
  (List.length (raw_tags toLowerCase text provider filename isImage) <= 8)%nat.
Proof.
  unfold raw_tags. cbv zeta.
  destruct isImage; cbn [negb andb add_if];
    repeat (eapply Nat.le_trans;
            [first [apply add_if_length | apply add_length] | apply le_n_S]);
    cbn [List.length]; unfold str; lia.
Qed.

(** X19: a name that [normalizeTagName] returns consists of lower-case
    ASCII letters, digits and white space only, and neither starts nor
    ends with white space, whatever the input. *)
Theorem normalizeTagName_form (name : str) :
  let n := normalizeTagName toLowerCase stripDiacritics name in
  Forall (fun c => is_lower c || is_digit c || is_space c = true) n /\
  (forall c r, n = c :: r -> is_space c = false) /\
  (forall c r, n = r ++ [c] -> is_space c = false).
Proof.
  cbv zeta. destruct (normalizeTagName_tag_form name) as [F [H T]].
  split; [exact F | split; assumption].
Qed.

(** X20: [inferTags] returns at most eight names (so its cap of ten never
    cuts anything), without repetition, none of them empty, each in the
    form [normalizeTagName] gives. *)
Theorem inferTags_bounds (text : str) (provider : option str) (filename : str)
    (isImage : bool) :
  let tags := inferTags toLowerCase stripDiacritics text provider filename isImage in
  (List.length tags <= 8)%nat /\
  tags = normalize_all toLowerCase stripDiacritics
           (raw_tags toLowerCase text provider filename isImage) /\
  List.NoDup tags /\
  Forall (fun n => n <> [] /\ tag_form n) tags.
Proof.
  cbv zeta. unfold inferTags.
  pose proof (raw_tags_length text provider filename isImage) as L8.
  destruct (fold_step_facts (raw_tags toLowerCase text provider filename isImage) []
              (List.NoDup_nil _) (List.Forall_nil _)) as (L & D & F).
  cbv zeta in L, D, F. cbn [List.length] in L.
  rewrite normalize_all_fold. unfold str in *.
  rewrite firstn_all2 by lia.
  split; [lia | split; [reflexivity | split; assumption]].
Qed.

(** X21: for an image, [inferTags] always returns the tag foto, provided
    the two Unicode steps leave that ASCII word as it is. *)
Theorem inferTags_image_foto (text : str) (provider : option str) (filename : str) :
  toLowerCase (lit "foto") = lit "foto" ->
  stripDiacritics (lit "foto") = lit "foto" ->
  In (lit "foto") (inferTags toLowerCase stripDiacritics text provider filename true).
Proof.
  intros Hl Hs. unfold inferTags.
  pose proof (raw_tags_length text provider filename true) as L8.
  destruct (fold_step_facts (raw_tags toLowerCase text provider filename true) []
              (List.NoDup_nil _) (List.Forall_nil _)) as (L & _).
  cbv zeta in L. cbn [List.length] in L.
  rewrite normalize_all_fold. unfold str in *. rewrite firstn_all2 by lia.
  apply fold_step_In. right. exists (lit "foto"). split; [|split].
  - unfold raw_tags. cbv zeta. cbn [negb andb add_if]. apply add_In. left. reflexivity.
  - unfold normalizeTagName. rewrite Hl, Hs. vm_compute. reflexivity.
  - discriminate.
Qed.

End Facts.

Lemma inferTags_image_foto_witness :
  In (lit "foto")
     (inferTags Js.toLowerCase (fun s => s) (lit "Total 12,00") None (lit "IMG_1.JPG") true).
Proof.
  apply (inferTags_image_foto Js.toLowerCase (fun s => s) (lit "Total 12,00") None
           (lit "IMG_1.JPG")); reflexivity.
Defined.

End TagEngine.

(* ===================================================================== *)
(** * The tagging block of the upload handler *)
(* ===================================================================== *)

Module Tagging.

Import Crypto Tags Upload Documents.
Local Open Scope Z_scope.

(** Document [documentId] carries the tag named [name]. *)
Definition linked (w : World) (documentId : N) (name : str) : Prop :=
  exists r, In r (tags w) /\ tag_name r = name /\
            In (documentId, tag_id r) (document_tags w).

(** Ids of the [AUTO_INCREMENT] column start at 1. *)
Definition ids_positive (w : World) : Prop :=
  Forall (fun r => tag_id r <> 0%N) (tags w) /\ next_tag_id w <> 0%N.

(** Tags and links are only ever added. *)
Definition grows (w w' : World) : Prop :=
  (exists more, tags w' = tags w ++ more) /\
  (exists more, document_tags w' = document_tags w ++ more).

Lemma grows_refl (w : World) : grows w w.
Proof. split; exists []; symmetry; apply app_nil_r. Qed.

Lemma grows_trans (a b c : World) : grows a b -> grows b c -> grows a c.
Proof.
  intros [[t1 T1] [l1 L1]] [[t2 T2] [l2 L2]]. split.
  - exists (t1 ++ t2). rewrite T2, T1, app_assoc. reflexivity.
  - exists (l1 ++ l2). rewrite L2, L1, app_assoc. reflexivity.
Qed.

Lemma linked_grows (w w' : World) (documentId : N) (name : str) :
  grows w w' -> linked w documentId name -> linked w' documentId name.
Proof.
  intros [[t T] [l L]] (r & I & E & K). exists r.
  rewrite T, L. repeat split; [apply in_or_app; left; exact I | exact E
                               | apply in_or_app; left; exact K].
Qed.

Lemma existsb_link (documentId tagId : N) (links : list (N * N)) :
  existsb (fun l => (fst l =? documentId)%N && (snd l =? tagId)%N) links = true ->
  In (documentId, tagId) links.
Proof.
  intros H. apply existsb_exists in H as ([a b] & I & E).
  apply andb_true_iff in E as [Ea Eb]. apply N.eqb_eq in Ea, Eb.
  cbn [fst snd] in Ea, Eb. subst. exact I.
Qed.

(** One round of the loop: afterwards the document carries the tag. *)
Lemma link_tag_run (documentId : N) (norm : str) (w : World) :
  ids_positive w ->
  exists w',
    link_tag documentId norm w = (inr tt, w') /\
    linked w' documentId norm /\ grows w w' /\ ids_positive w'.
Proof.
  intros [Ids Next]. unfold link_tag. eexists. split; [reflexivity|].
  unfold linked, grows, ids_positive.
  destruct (find (fun r => str_eqb (tag_name r) norm) (tags w)) as [r|] eqn:F.
  - apply find_some in F as [I E]. unfold str_eqb in E. apply bool_decide_eq_true in E.
    assert (Id : tag_id r <> 0%N) by (rewrite List.Forall_forall in Ids; apply Ids, I).
    apply N.eqb_neq in Id. rewrite Id.
    destruct (existsb _ (document_tags w)) eqn:X; cbn [tags document_tags next_tag_id].
    + apply existsb_link in X.
      split; [exists r; repeat split; assumption|].
      split; [split; exists []; symmetry; apply app_nil_r|].
      split; [exact Ids | exact Next].
    + split; [exists r; repeat split;
              [assumption | assumption | apply in_or_app; right; left; reflexivity]|].
      split; [split; [exists []; symmetry; apply app_nil_r | eexists; reflexivity]|].
      split; [exact Ids | exact Next].
  - pose proof Next as Next'. apply N.eqb_neq in Next'. rewrite Next'.
    assert (Ids' : Forall (fun r => tag_id r <> 0%N)
                     (tags w ++ [{| tag_id := next_tag_id w; tag_name := norm |}])).
    { apply Forall_app. split; [exact Ids | repeat constructor; exact Next]. }
    destruct (existsb _ (document_tags w)) eqn:X; cbn [tags document_tags next_tag_id].
    + apply existsb_link in X.
      split; [eexists; repeat split;
              [apply in_or_app; right; left; reflexivity | reflexivity | exact X]|].
      split; [split; [eexists; reflexivity | exists []; symmetry; apply app_nil_r]|].
      split; [exact Ids' | lia].
    + split; [eexists; repeat split;
              [apply in_or_app; right; left; reflexivity | reflexivity
               | apply in_or_app; right; left; reflexivity]|].
      split; [split; eexists; reflexivity|].
      split; [exact Ids' | lia].
Qed.

Section Loop.

Variable scryptSync : bytes -> bytes -> nat -> bytes.
Variable FILE_ENC_SECRET : option bytes.
Variable inferTags : str -> option str -> str -> bool -> list str.
Variable normalizeTagName : str -> str.

(** The whole loop: every inferred name is linked, under the name that
    [pickSimilarExisting] chose against the rows read before the loop. *)
Lemma link_tags_run (documentId : N) (existingTags : list TagRow) (inferred : list str) :
  forall w,
    ids_positive w ->
    exists w',
      link_tags normalizeTagName documentId existingTags inferred w = (inr tt, w') /\
      (forall c, In c inferred ->
                 linked w' documentId
                        (normalizeTagName (pickSimilarExisting existingTags c))) /\
      grows w w' /\ ids_positive w'.
Proof.
  induction inferred as [|c rest IH]; intros w P; cbn [link_tags].
  - exists w. split; [reflexivity|]. split; [intros c []|].
    split; [apply grows_refl | exact P].
  - destruct (link_tag_run documentId
                (normalizeTagName (pickSimilarExisting existingTags c)) w P)
      as (w1 & E1 & L1 & G1 & P1).
    destruct (IH w1 P1) as (w2 & E2 & L2 & G2 & P2).
    exists w2. unfold bind. rewrite E1. split; [exact E2|].
    split; [|split; [exact (grows_trans _ _ _ G1 G2) | exact P2]].
    intros c' [<- | I]; [exact (linked_grows _ _ _ _ G2 L1) | exact (L2 c' I)].
Qed.

Lemma auto_tag_run (env : Env) (documentId : N) (ocrText : str) (provider : option str)
    (f : File) (w : World) :
  ids_positive w ->
  db_fails env SelectTags = false ->
  exists w',
    auto_tag inferTags normalizeTagName env documentId ocrText provider f w = (inr tt, w') /\
    (forall c, In c (inferTags ocrText provider (originalname f) (isImage f)) ->
               linked w' documentId (normalizeTagName (pickSimilarExisting (tags w) c))) /\
    grows w w' /\ ids_positive w'.
Proof.
  intros P Q. unfold auto_tag, bind, query. rewrite Q. unfold ret.
  apply link_tags_run, P.
Qed.

Lemma auto_tag_rejected (env : Env) (documentId : N) (ocrText : str)
    (provider : option str) (f : File) (w : World) :
  db_fails env SelectTags = true ->
  attempt (auto_tag inferTags normalizeTagName env documentId ocrText provider f) w
  = (inr tt, w).
Proof.
  intros Q. unfold attempt, auto_tag, bind, query. rewrite Q. reflexivity.
Qed.

End Loop.

(** An environment in which only the tag query is rejected. *)
Definition tag_query_rejected : Env :=
  {| random_iv := bytes_of_N 12 7; recognize := None;
     db_fails := fun s => match s with SelectTags => true | _ => false end |}.

(** The tag inference of the router with the Unicode steps on ASCII. *)
Definition ascii_inferTags : str -> option str -> str -> bool -> list str :=
  TagEngine.inferTags Js.toLowerCase (fun s => s).
Definition ascii_normalizeTagName : str -> str :=
  TagEngine.normalizeTagName Js.toLowerCase (fun s => s).

Section Handler.

Variable scryptSync : bytes -> bytes -> nat -> bytes.
Variable FILE_ENC_SECRET : option bytes.
Variable inferTags : str -> option str -> str -> bool -> list str.
Variable normalizeTagName : str -> str.

(** X22: after an upload in which no statement fails, the new document
    carries a tag for every name that [inferTags] returned for it: the
    normalised name that [pickSimilarExisting] chose against the tags that
    existed before the upload.  Names inferred for the same upload are
    therefore never merged with each other. *)
Theorem upload_links_inferred_tags (env : Env) (user : User) (f : File)
    (body : UploadBody) (w : World) (content : bytes) :
  (forall password salt n, List.length (scryptSync password salt n) = n) ->
  List.length (random_iv env) = 12%nat ->
  fs w !! path f = Some content ->
  body_ok body = true ->
  storageUsed user + size f <= storageLimit user ->
  (forall s, db_fails env s = false) ->
  ids_positive w ->
  let '(response, w') :=
    upload scryptSync FILE_ENC_SECRET inferTags normalizeTagName env user (Some f) body w in
  status response = 201 /\
  forall c,
    In c (inferTags (fst (ocr_of env f)) (or_null (m_provider (metadata_of body)))
                    (originalname f) (isImage f)) ->
    linked w' (next_document_id w) (normalizeTagName (pickSimilarExisting (tags w) c)).
Proof.
  intros Hkdf Hiv Hfile Hbody Hquota Hdb Hids.
  destruct (encryptBuffer_succeeds scryptSync FILE_ENC_SECRET (random_iv env) content
              (id user) Hkdf Hiv) as (encrypted & authTag & Henc & _).
  unfold upload, upload_try, bind, ocr_of.
  rewrite (uploadSchema_valid body w Hbody).
  replace (storageUsed user + size f >? storageLimit user) with false
    by (symmetry; rewrite Z.gtb_ltb; apply Z.ltb_ge; lia).
  destruct (if isImage f then processOCR env else ([], None)) as [ocrText ocrJson].
  unfold readFile. rewrite Hfile. unfold encrypt. rewrite Henc. unfold ret, writeFile.
  assert (Hstill : fs (set_fs (insert (encryptedFilePath f) encrypted) w) !! path f
                   = Some (if decide (encryptedFilePath f = path f) then encrypted else content)).
  { cbn [fs set_fs]. rewrite lookup_insert. destruct (decide _); [reflexivity | exact Hfile]. }
  rewrite (unlink_present _ _ _ Hstill).
  unfold insert_document, insert_ocr, bind, query. rewrite !Hdb. unfold ret.
  match goal with
  | |- context [attempt (auto_tag ?i ?n ?e ?d ?t ?p ?f0) ?w0] =>
      destruct (auto_tag_run i n e d t p f0 w0) as (w6 & E6 & L6 & G6 & P6)
  end.
  - unfold ids_positive. cbn [tags next_tag_id set_fs]. exact Hids.
  - apply Hdb.
  - unfold attempt. rewrite E6. unfold update_usage, bind, query. rewrite Hdb. unfold ret.
    split; [reflexivity|]. intros c Hc. specialize (L6 c Hc).
    cbn [tags next_document_id set_fs fst] in L6.
    unfold linked in *. cbn [tags document_tags]. exact L6.
Qed.

(** X23: a failure of the tag query does not fail the upload: the
    response is 201, the document row is stored for the caller and the
    usage counter is raised; the document is simply left without tags, and
    the tag tables are as before. *)
Theorem upload_survives_tag_failure (env : Env) (user : User) (f : File)
    (body : UploadBody) (w : World) (content : bytes) :
  (forall password salt n, List.length (scryptSync password salt n) = n) ->
  List.length (random_iv env) = 12%nat ->
  fs w !! path f = Some content ->
  body_ok body = true ->
  storageUsed user + size f <= storageLimit user ->
  db_fails env InsertDocument = false ->
  db_fails env InsertOcr = false ->
  db_fails env UpdateUsage = false ->
  db_fails env SelectTags = true ->
  let '(response, w') :=
    upload scryptSync FILE_ENC_SECRET inferTags normalizeTagName env user (Some f) body w in
  status response = 201 /\
  tags w' = tags w /\ document_tags w' = document_tags w /\
  (exists d, In d (documents w') /\ d_id d = next_document_id w /\
             d_user_id d = id user) /\
  storage_used w' = alter (Z.add (size f)) (id user) (storage_used w).
Proof.
  intros Hkdf Hiv Hfile Hbody Hquota Hdoc Hocr Husage Htags.
  destruct (encryptBuffer_succeeds scryptSync FILE_ENC_SECRET (random_iv env) content
              (id user) Hkdf Hiv) as (encrypted & authTag & Henc & _).
  unfold upload, upload_try, bind, ocr_of.
  rewrite (uploadSchema_valid body w Hbody).
  replace (storageUsed user + size f >? storageLimit user) with false
    by (symmetry; rewrite Z.gtb_ltb; apply Z.ltb_ge; lia).
  destruct (if isImage f then processOCR env else ([], None)) as [ocrText ocrJson].
  unfold readFile. rewrite Hfile. unfold encrypt. rewrite Henc. unfold ret, writeFile.
  assert (Hstill : fs (set_fs (insert (encryptedFilePath f) encrypted) w) !! path f
                   = Some (if decide (encryptedFilePath f = path f) then encrypted else content)).
  { cbn [fs set_fs]. rewrite lookup_insert. destruct (decide _); [reflexivity | exact Hfile]. }
  rewrite (unlink_present _ _ _ Hstill).
  unfold insert_document, insert_ocr, bind, query. rewrite Hdoc, Hocr. unfold ret.
  rewrite (auto_tag_rejected inferTags normalizeTagName env _ _ _ _ _ Htags).
  unfold update_usage, bind, query. rewrite Husage. unfold ret.
  cbn [tags document_tags documents storage_used next_document_id set_fs].
  split; [reflexivity|]. split; [reflexivity|]. split; [reflexivity|].
  split; [|reflexivity].
  eexists. split; [apply in_or_app; right; left; reflexivity|].
  split; reflexivity.
Qed.

End Handler.

Lemma empty_world_ids_positive : ids_positive (on_disk small_image empty_world).
Proof. split; [constructor | discriminate]. Qed.

(** The 12-byte image "factura.png": the names inferred are facturas and
    foto. *)
Lemma upload_links_inferred_tags_witness :
  let f := stored_file storage small_image in
  let '(response, w') :=
    upload toy_kdf None ascii_inferTags ascii_normalizeTagName (calm None) tenant
      (Some f) empty_body (on_disk small_image empty_world) in
  status response = 201 /\
  forall c,
    In c (ascii_inferTags (fst (ocr_of (calm None) f))
            (or_null (m_provider (metadata_of empty_body))) (originalname f) (isImage f)) ->
    linked w' 1 (ascii_normalizeTagName (pickSimilarExisting [] c)).
Proof.
  cbv zeta.
  exact (upload_links_inferred_tags toy_kdf None ascii_inferTags ascii_normalizeTagName
           (calm None) tenant (stored_file storage small_image) empty_body
           (on_disk small_image empty_world) (p_content small_image)
           toy_kdf_length eq_refl (on_disk_present small_image empty_world) eq_refl
           ltac:(vm_compute; discriminate) (fun _ => eq_refl)
           empty_world_ids_positive).
Defined.

Lemma upload_survives_tag_failure_witness :
  let f := stored_file storage small_image in
  let w := on_disk small_image empty_world in
  let '(response, w') :=
    upload toy_kdf None ascii_inferTags ascii_normalizeTagName tag_query_rejected tenant
      (Some f) empty_body w in
  status response = 201 /\
  tags w' = tags w /\ document_tags w' = document_tags w /\
  (exists d, In d (documents w') /\ d_id d = next_document_id w /\ d_user_id d = 7%N) /\
  storage_used w' = alter (Z.add (size f)) 7%N (storage_used w).
Proof.
  cbv zeta.
  exact (upload_survives_tag_failure toy_kdf None ascii_inferTags ascii_normalizeTagName
           tag_query_rejected tenant (stored_file storage small_image) empty_body
           (on_disk small_image empty_world) (p_content small_image)
           toy_kdf_length eq_refl (on_disk_present small_image empty_world) eq_refl
           ltac:(vm_compute; discriminate) eq_refl eq_refl eq_refl eq_refl).
Defined.

(** The tags that the upload of "factura.png" creates in an empty
    vocabulary, and the links of document 1. *)
Example upload_tags_of_small_image :
  let w' := snd (upload toy_kdf None ascii_inferTags ascii_normalizeTagName (calm None)
                   tenant (Some (stored_file storage small_image)) empty_body
                   (on_disk small_image empty_world)) in
  tags w' = [{| tag_id := 1; tag_name := lit "facturas" |};
             {| tag_id := 2; tag_name := lit "foto" |}] /\
  document_tags w' = [(1%N, 1%N); (1%N, 2%N)].
Proof. vm_compute. split; reflexivity. Qed.

End Tagging.

(* ===================================================================== *)
(** * Reading and editing one document ([GET /:id], [PATCH /:id]) *)
(* ===================================================================== *)

Module Update.

Import Crypto Upload Documents.
Local Open Scope Z_scope.

(** The statements of [PATCH /:id], each of which can fail. *)
Inductive UpdateStatement : Type :=
| CheckDocument
| SetFilename
| SetIssueDate
| ReadBack.

(** A row of [documents d LEFT JOIN ocr_results ocr ON d.id =
    ocr.document_id]: the document and its OCR record, if it has one. *)
Definition Detail : Type := (Document * option OcrRow)%type.

Inductive DetailResponse : Type :=
| Found (document : Detail)
| DetailNotFound
| DetailError.

Inductive UpdateResponse : Type :=
| Updated (document : option Detail)
| UpdateNotFound
| UpdateError.

(** [SELECT d.*, ocr.text, ocr.json FROM documents d LEFT JOIN ocr_results
    ocr ON d.id = ocr.document_id WHERE d.id = ? AND d.user_id = ?] *)
Definition details (w : World) (documentId userId : N) : list Detail :=
  flat_map (fun d =>
              match List.filter (fun r => (o_document_id r =? d_id d)%N) (ocr_results w) with
              | [] => [(d, None)]
              | rs => map (fun r => (d, Some r)) rs
              end)
           (select_document w documentId userId).

(** [GET /:id] *)
Definition get_document (select_fails : bool) (w : World) (userId documentId : N)
    : DetailResponse :=
  if select_fails then DetailError
  else match details w documentId userId with
       | [] => DetailNotFound
       | d :: _ => Found d
       end.

Definition rename (name : str) (d : Document) : Document :=
  {| d_id := d_id d; d_user_id := d_user_id d; d_filename := name;
     d_mime_type := d_mime_type d; d_byte_size := d_byte_size d;
     d_storage_path := d_storage_path d; d_iv := d_iv d; d_auth_tag := d_auth_tag d;
     d_status := d_status d; d_provider := d_provider d;
     d_invoice_number := d_invoice_number d; d_currency := d_currency d;
     d_amount := d_amount d; d_issue_date := d_issue_date d; d_meta := d_meta d |}.

Definition redate (date : str) (d : Document) : Document :=
  {| d_id := d_id d; d_user_id := d_user_id d; d_filename := d_filename d;
     d_mime_type := d_mime_type d; d_byte_size := d_byte_size d;
     d_storage_path := d_storage_path d; d_iv := d_iv d; d_auth_tag := d_auth_tag d;
     d_status := d_status d; d_provider := d_provider d;
     d_invoice_number := d_invoice_number d; d_currency := d_currency d;
     d_amount := d_amount d; d_issue_date := Some date; d_meta := d_meta d |}.

(** [UPDATE documents SET ... WHERE id = ?] *)
Definition update_rows (documentId : N) (change : Document -> Document) (w : World)
    : World :=
  {| fs := fs w;
     documents := map (fun d => if (d_id d =? documentId)%N then change d else d)
                      (documents w);
     ocr_results := ocr_results w; tags := tags w; document_tags := document_tags w;
     storage_used := storage_used w;
     next_document_id := next_document_id w; next_tag_id := next_tag_id w |}.

Section Patch.

Variable fails : UpdateStatement -> bool.
Variable userId documentId : N.

(** The last statement and the response. *)
Definition read_back (w : World) : UpdateResponse * World :=
  if fails ReadBack then (UpdateError, w)
  else (Updated (head (details w documentId userId)), w).

(** [if (issueDate) ...] and what follows. *)
Definition patch_issue_date (issueDate : option str) (w : World)
    : UpdateResponse * World :=
  match or_null issueDate with
  | Some date =>
      if fails SetIssueDate then (UpdateError, w)
      else read_back (update_rows documentId (redate date) w)
  | None => read_back w
  end.

(** [PATCH /:id] with the body fields [filename] and [issueDate]. *)
Definition patch (filename issueDate : option str) (w : World)
    : UpdateResponse * World :=
  if fails CheckDocument then (UpdateError, w)
  else match select_document w documentId userId with
       | [] => (UpdateNotFound, w)
       | _ :: _ =>
           match or_null filename with
           | Some name =>
               if fails SetFilename then (UpdateError, w)
               else patch_issue_date issueDate (update_rows documentId (rename name) w)
           | None => patch_issue_date issueDate w
           end
       end.

End Patch.

(** ** What an edit leaves alone *)

(** [d'] is [d] up to the file name and the issue date. *)
Definition same_but_name_and_date (d d' : Document) : Prop :=
  d_id d' = d_id d /\ d_user_id d' = d_user_id d /\
  d_mime_type d' = d_mime_type d /\ d_byte_size d' = d_byte_size d /\
  d_storage_path d' = d_storage_path d /\ d_iv d' = d_iv d /\
  d_auth_tag d' = d_auth_tag d /\ d_status d' = d_status d /\
  d_provider d' = d_provider d /\ d_invoice_number d' = d_invoice_number d /\
  d_currency d' = d_currency d /\ d_amount d' = d_amount d /\ d_meta d' = d_meta d.

(** The documents of [w'] are those of [w], row by row, up to name and
    date, and rows with another id are the same; nothing else differs. *)
Definition edited (documentId : N) (w w' : World) : Prop :=
  fs w' = fs w /\ ocr_results w' = ocr_results w /\ tags w' = tags w /\
  document_tags w' = document_tags w /\ storage_used w' = storage_used w /\
  next_document_id w' = next_document_id w /\ next_tag_id w' = next_tag_id w /\
  Forall2 (fun d d' => same_but_name_and_date d d' /\ (d_id d <> documentId -> d' = d))
          (documents w) (documents w').

Lemma same_refl (d : Document) : same_but_name_and_date d d.
Proof. unfold same_but_name_and_date. repeat split. Qed.

Lemma same_trans (a b c : Document) :
  same_but_name_and_date a b -> same_but_name_and_date b c -> same_but_name_and_date a c.
Proof.
  unfold same_but_name_and_date. intros H1 H2.
  destruct H1 as (?&?&?&?&?&?&?&?&?&?&?&?&?), H2 as (?&?&?&?&?&?&?&?&?&?&?&?&?).
  repeat split; congruence.
Qed.

Lemma edited_refl (documentId : N) (w : World) : edited documentId w w.
Proof.
  unfold edited. repeat split.
  induction (documents w) as [|d l IH]; constructor; [|exact IH].
  split; [apply same_refl | reflexivity].
Qed.

Lemma edited_trans (documentId : N) (a b c : World) :
  edited documentId a b -> edited documentId b c -> edited documentId a c.
Proof.
  unfold edited.
  intros (F1 & O1 & T1 & L1 & S1 & N1 & M1 & D1) (F2 & O2 & T2 & L2 & S2 & N2 & M2 & D2).
  repeat split; try congruence.
  revert D2. generalize (documents c). induction D1 as [|x y l l' [Sxy Exy] _ IH];
    intros l'' D2; inversion D2 as [|? z ? l3 [Syz Eyz] D3]; subst; constructor.
  - split; [exact (same_trans _ _ _ Sxy Syz)|].
    intros Ne. rewrite Eyz; [apply Exy, Ne|].
    destruct Sxy as [Id _]. rewrite Id. exact Ne.
  - apply IH, D3.
Qed.

Lemma update_rows_edited (documentId : N) (change : Document -> Document) (w : World) :
  (forall d, same_but_name_and_date d (change d)) ->
  edited documentId w (update_rows documentId change w).
Proof.
  intros C. unfold edited, update_rows. cbn. repeat split.
  induction (documents w) as [|d l IH]; cbn [map]; constructor; [|exact IH].
  destruct (N.eqb_spec (d_id d) documentId) as [E | Ne].
  - split; [apply C | intros Ne; contradiction].
  - split; [apply same_refl | reflexivity].
Qed.

Lemma rename_same (name : str) (d : Document) : same_but_name_and_date d (rename name d).
Proof. unfold same_but_name_and_date. repeat split. Qed.

Lemma redate_same (date : str) (d : Document) : same_but_name_and_date d (redate date d).
Proof. unfold same_but_name_and_date. repeat split. Qed.

Lemma read_back_world (fails : UpdateStatement -> bool) (userId documentId : N)
    (w : World) :
  snd (read_back fails userId documentId w) = w.
Proof. unfold read_back. destruct (fails ReadBack); reflexivity. Qed.

Lemma patch_issue_date_edited (fails : UpdateStatement -> bool) (userId documentId : N)
    (issueDate : option str) (w : World) :
  edited documentId w (snd (patch_issue_date fails userId documentId issueDate w)).
Proof.
  unfold patch_issue_date. destruct (or_null issueDate) as [date|].
  - destruct (fails SetIssueDate); [apply edited_refl|].
    rewrite read_back_world. apply update_rows_edited, redate_same.
  - rewrite read_back_world. apply edited_refl.
Qed.

(** X24: whatever the request and whichever statement fails, [PATCH /:id]
    changes nothing but the file name and the issue date of documents with
    the id of the request: files, OCR records, tags, usage counters and
    every other column stay as they are; and when the caller owns no
    document with that id the response is 404 or 500 and nothing changes
    at all. *)
Theorem patch_changes_name_and_date_only (fails : UpdateStatement -> bool)
    (userId documentId : N) (filename issueDate : option str) (w : World) :
  let '(response, w') := patch fails userId documentId filename issueDate w in
  edited documentId w w' /\
  (select_document w documentId userId = [] ->
   (response = UpdateNotFound \/ response = UpdateError) /\ w' = w).
Proof.
  destruct (patch fails userId documentId filename issueDate w) as [response w'] eqn:E.
  unfold patch in E.
  destruct (fails CheckDocument).
  { injection E as <- <-. split; [apply edited_refl | intros _; split; [right|]; reflexivity]. }
  destruct (select_document w documentId userId) as [|d rest].
  { injection E as <- <-. split; [apply edited_refl | intros _; split; [left|]; reflexivity]. }
  split; [|discriminate].
  destruct (or_null filename) as [name|].
  - destruct (fails SetFilename); [injection E as <- <-; apply edited_refl|].
    apply (f_equal snd) in E. cbn [snd] in E. rewrite <- E.
    eapply edited_trans; [apply update_rows_edited, rename_same|].
    apply patch_issue_date_edited.
  - apply (f_equal snd) in E. cbn [snd] in E. rewrite <- E.
    apply patch_issue_date_edited.
Qed.

(** ** A successful edit *)

(** What the two [UPDATE] statements together do to a row. *)
Definition apply_edit (filename issueDate : option str) (d : Document) : Document :=
  let d1 := match or_null filename with
            | Some name => rename name d
            | None => d
            end in
  match or_null issueDate with
  | Some date => redate date d1
  | None => d1
  end.

Lemma select_update_rows (documentId userId : N) (change : Document -> Document)
    (w : World) :
  (forall d, same_but_name_and_date d (change d)) ->
  select_document (update_rows documentId change w) documentId userId
  = map change (select_document w documentId userId).
Proof.
  intros C. unfold select_document, update_rows. cbn [documents].
  induction (documents w) as [|d l IH]; [reflexivity|].
  cbn [map List.filter].
  destruct (N.eqb_spec (d_id d) documentId) as [E | Ne].
  - destruct (C d) as (Id & Us & _). rewrite Id, Us.
    destruct (N.eqb_spec (d_id d) documentId); [|contradiction].
    cbn [andb]. destruct (d_user_id d =? userId)%N; cbn [map]; rewrite IH; reflexivity.
  - destruct (N.eqb_spec (d_id d) documentId); [contradiction|].
    cbn [andb]. exact IH.
Qed.

Lemma apply_edit_same (filename issueDate : option str) (d : Document) :
  same_but_name_and_date d (apply_edit filename issueDate d).
Proof.
  unfold apply_edit. destruct (or_null filename), (or_null issueDate);
    unfold same_but_name_and_date; repeat split.
Qed.

(** The run of [PATCH /:id] when the caller owns the document and no
    statement fails. *)
Lemma patch_success (fails : UpdateStatement -> bool) (userId documentId : N)
    (filename issueDate : option str) (w : World) (d : Document) (rest : list Document) :
  (forall s, fails s = false) ->
  select_document w documentId userId = d :: rest ->
  exists w',
    patch fails userId documentId filename issueDate w
      = (Updated (head (details w' documentId userId)), w') /\
    select_document w' documentId userId
      = map (apply_edit filename issueDate) (d :: rest) /\
    fs w' = fs w /\ ocr_results w' = ocr_results w.
Proof.
  intros Ok Sel. unfold patch, patch_issue_date, read_back, apply_edit.
  rewrite !Ok, Sel.
  destruct (or_null filename) as [name|], (or_null issueDate) as [date|];
    eexists; (split; [reflexivity|]).
  - rewrite !select_update_rows by (intros; first [apply redate_same | apply rename_same]).
    rewrite Sel, map_map. repeat split.
  - rewrite select_update_rows by (intros; apply rename_same).
    rewrite Sel. repeat split.
  - rewrite select_update_rows by (intros; apply redate_same).
    rewrite Sel. repeat split.
  - rewrite Sel, map_id. repeat split.
Qed.

Lemma details_head (w : World) (documentId userId : N) (d : Document)
    (rest : list Document) :
  select_document w documentId userId = d :: rest ->
  exists o, head (details w documentId userId) = Some (d, o).
Proof.
  intros Sel. unfold details. rewrite Sel. cbn [flat_map].
  destruct (List.filter _ (ocr_results w)) as [|r rs]; eexists; reflexivity.
Qed.

(** X25: when the caller owns the document and no statement fails,
    [PATCH /:id] answers with the caller's document as it now is: the
    file name is the one of the request if that is a non-empty string,
    and the old one otherwise; likewise the issue date; every other column
    is as before.  An empty file name or date therefore changes nothing. *)
Theorem patch_returns_updated_document (fails : UpdateStatement -> bool)
    (userId documentId : N) (filename issueDate : option str) (w : World)
    (d : Document) (rest : list Document) :
  (forall s, fails s = false) ->
  select_document w documentId userId = d :: rest ->
  let '(response, w') := patch fails userId documentId filename issueDate w in
  exists d' o,
    response = Updated (Some (d', o)) /\
    get_document false w' userId documentId = Found (d', o) /\
    same_but_name_and_date d d' /\
    d_filename d' = match filename with
                    | Some (c :: name) => c :: name
                    | _ => d_filename d
                    end /\
    d_issue_date d' = match issueDate with
                      | Some (c :: date) => Some (c :: date)
                      | _ => d_issue_date d
                      end.
Proof.
  intros Ok Sel.
  destruct (patch_success fails userId documentId filename issueDate w d rest Ok Sel)
    as (w' & -> & Sel' & _).
  cbn [map] in Sel'.
  destruct (details_head w' documentId userId _ _ Sel') as [o Ho].
  exists (apply_edit filename issueDate d), o.
  split; [rewrite Ho; reflexivity|].
  split.
  { unfold get_document. destruct (details w' documentId userId) as [|x l];
      [discriminate | cbn [head] in Ho; injection Ho as ->; reflexivity]. }
  split; [apply apply_edit_same|].
  unfold apply_edit, or_null.
  destruct filename as [[|c name]|], issueDate as [[|c' date]|]; split; reflexivity.
Qed.



(** ** The uploaded image, renamed *)

Definition all_succeed (_ : UpdateStatement) : bool := false.

Lemma patch_returns_updated_document_witness :
  let '(response, w') :=
    patch all_succeed 7 1 (Some (lit "marzo.png")) (Some []) after_small_upload in
  exists d' o,
    response = Updated (Some (d', o)) /\
    get_document false w' 7 1 = Found (d', o) /\
    d_filename d' = lit "marzo.png" /\ d_issue_date d' = None.
Proof.
  assert (Hsel : exists d, select_document after_small_upload 1 7 = [d] /\
                           d_issue_date d = None).
  { eexists. split; [vm_compute; reflexivity | reflexivity]. }
  destruct Hsel as (d & Hsel & Hdate).
  pose proof (patch_returns_updated_document all_succeed 7 1 (Some (lit "marzo.png"))
                (Some []) after_small_upload d [] (fun _ => eq_refl) Hsel) as H.
  destruct (patch all_succeed 7 1 (Some (lit "marzo.png")) (Some []) after_small_upload)
    as [response w'].
  destruct H as (d' & o & H1 & H2 & _ & H4 & H5).
  exists d', o. repeat split; [exact H1 | exact H2 | exact H4 | rewrite H5; exact Hdate].
Defined.


End Update.

(* ===================================================================== *)
(** * Whose documents a search returns ([POST /search]) *)
(* ===================================================================== *)

Module SearchScope.

Import Search.

Lemma In_firstn_list {A : Type} (n : nat) (l : list A) (x : A) :
  In x (firstn n l) -> In x l.
Proof.
  revert l. induction n as [|n IH]; intros [|y l]; cbn [firstn]; try contradiction.
  intros [-> | H]; [left; reflexivity | right; apply IH, H].
Qed.

Lemma In_skipn_list {A : Type} (n : nat) (l : list A) (x : A) :
  In x (skipn n l) -> In x l.
Proof.
  revert l. induction n as [|n IH]; intros [|y l]; cbn [skipn]; try contradiction; auto.
  intros H. right. apply IH, H.
Qed.

Section Scope.

Variable toLowerCase : str -> str.
Variable fl : Q -> Q.
Variable sql_holds : Cond -> StoredDoc -> bool.
Variable sql_match_against : str -> StoredDoc -> Q.

Lemma matching_In (conds : list Cond) (table : list StoredDoc) (d : StoredDoc) :
  In d (matching sql_holds conds table) ->
  In d table /\ forall c, In c conds -> sql_holds c d = true.
Proof.
  unfold matching. intros H. apply list_elem_of_In, list_elem_of_filter in H as [P I].
  apply list_elem_of_In in I. split; [exact I|].
  apply Is_true_true in P. rewrite forallb_forall in P. exact P.
Qed.

Lemma select_page_In (table : list StoredDoc) (q : str) (conds : list Cond) (l o : Z)
    (r : ResultRow) :
  In r (select_page sql_holds sql_match_against table q conds l o) ->
  In (doc r) (matching sql_holds conds table).
Proof.
  unfold select_page. rewrite in_map_iff. intros (d & <- & H). cbn [doc].
  apply In_firstn_list, In_skipn_list in H.
  eapply Permutation_in; [apply sort_perm | exact H].
Qed.

(** X27: every document in a filtered-search response is a stored
    document for which the database holds each condition that the handler
    built true: the one on the caller's id, the text condition on the
    query, and every filter the request set.  With a database for which
    the condition on the user id means ownership, the response therefore
    contains the caller's documents only. *)
Theorem search_within_scope (table : list StoredDoc) (userId : N) (body : Body)
    (documents : list Scored) (pagination : Pagination) :
  (forall u d, sql_holds (UserIs u) d = true -> user_id d = u) ->
  search toLowerCase fl sql_holds sql_match_against table userId body
    = Ok documents pagination ->
  exists q,
    b_query body = Some q /\
    Forall (fun s =>
              In (row s) table /\ user_id (row s) = userId /\
              sql_holds (TextLike q) (row s) = true /\
              forall c,
                In c (whereConditions userId q (or_default no_filters (b_filters body))) ->
                sql_holds c (row s) = true)
           documents.
Proof.
  intros Own Hok. apply search_ok in Hok as (p & Hp & -> & _).
  apply searchSchema_accepts in Hp as (Hq & Hf & _).
  exists (p_query p). split; [exact Hq|]. rewrite <- Hf.
  apply List.Forall_forall. intros s Hs.
  eapply Permutation_in in Hs; [|apply sort_perm].
  apply in_map_iff in Hs as (r & <- & Hr). cbn [process row].
  apply select_page_In, matching_In in Hr as [I C].
  split; [exact I|].
  split; [apply Own, C; left; reflexivity|].
  split; [apply C; right; left; reflexivity | exact C].
Qed.

End Scope.

(** A database for which the condition on the user id is ownership; the
    other conditions hold of every row. *)
Definition own_rows (c : Cond) (d : StoredDoc) : bool :=
  match c with
  | UserIs u => (user_id d =? u)%N
  | _ => true
  end.

Definition doc_c : StoredDoc :=
  {| doc_id := 3; user_id := 8; filename := Some (lit "Repsol-abril.pdf");
     provider := None; invoice_number := None; ocr_text := None;
     created_at := 300 |}.

(** Tenant 7 searches a table that also holds a document of tenant 8. *)
Lemma search_within_scope_witness :
  exists documents pagination,
    search Js.toLowerCase exact own_rows flat_relevance [doc_c; doc_a] 7 (body_of "repsol")
      = Ok documents pagination /\
    map (fun s => doc_id (row s)) documents = [1%N] /\
    Forall (fun s => user_id (row s) = 7%N) documents.
Proof.
  eexists. eexists. split; [vm_compute; reflexivity|]. split; [reflexivity|].
  destruct (search_within_scope Js.toLowerCase exact own_rows flat_relevance [doc_c; doc_a] 7
              (body_of "repsol") _ _
              (fun u d H => proj1 (N.eqb_eq _ _) H) eq_refl) as (q & _ & F).
  eapply List.Forall_impl; [|exact F]. intros s (_ & U & _). exact U.
Defined.

End SearchScope.

(* ===================================================================== *)
(** * Smart search ([analyzeSearchQuery], [POST /search/smart]) *)
(* ===================================================================== *)

Module Smart.

Import Fields Patterns FieldShapes Search.
Local Open Scope Q_scope.

(** A JavaScript number as [parseFloat] returns it here: a finite double,
    by its value, or [Infinity], or [NaN]. *)
Inductive jsnumber : Type :=
| Num : Q -> jsnumber
| Infinity : jsnumber
| NaN : jsnumber.

Record Analysis : Type := {
  a_text : str;
  a_amount : option jsnumber;
  a_date : option str;
  a_provider : option str
}.

(** ** [parseFloat] on a text without sign, white space or exponent *)

(** The leading digits of a text, and what follows them. *)
Fixpoint leading_digits (s : str) : str * str :=
  match s with
  | c :: s' =>
      if is_digit c then (c :: fst (leading_digits s'), snd (leading_digits s'))
      else ([], s)
  | [] => ([], [])
  end.

Definition decimal_value (ds : str) : N :=
  fold_left (fun acc c => (10 * acc + (c - 48))%N) ds 0%N.

Fixpoint pow10 (n : nat) : positive :=
  match n with
  | O => 1%positive
  | S n' => (10 * pow10 n')%positive
  end.

Section Runtime.

(** The Number value of a decimal: the double that the runtime rounds it
    to, [Infinity] when it is beyond the range of the doubles. *)
Variable toNumber : Q -> jsnumber.

(** Digits, then optionally a period and digits; at least one digit.  The
    result is the Number value of the decimal that was read. *)
Definition parseFloat (s : str) : jsnumber :=
  let whole := fst (leading_digits s) in
  let frac :=
    match snd (leading_digits s) with
    | 46%N :: r => fst (leading_digits r)
    | _ => []
    end in
  match whole ++ frac with
  | [] => NaN
  | ds => toNumber (Z.of_N (decimal_value ds) # pow10 (List.length frac))
  end.

(** ** The patterns, all with the flags [g] and [i] *)

(** [[A-Z]] and [[a-z]] under the [i] flag: any ASCII letter. *)
Definition letter : regex := Cls (fun c => is_upper c || is_lower c).
Definition word : regex := Cat letter (Plus letter).

Definition smart_prepositions : list string :=
  ["de"; "from"; "para"; "to"; "en"]%string.

Definition months : list string :=
  ["enero"; "febrero"; "marzo"; "abril"; "mayo"; "junio"; "julio"; "agosto";
   "septiembre"; "octubre"; "noviembre"; "diciembre"]%string.

(** [/(\d+[.,]\d{2})\s*€?|(\d+)\s*(?:euros?|€)/gi] *)
Definition amountRegex : regex :=
  Alt (Cat (Cat (Plus digit) (Cat (one_of ".,") (times 2 0 digit)))
           (Cat (Star space) (Opt (Chr euro))))
      (Cat (Plus digit)
           (Cat (Star space)
                (Alt (Cat (Word true "euro") (Opt (unit_re true 115))) (Chr euro)))).

(** The numeric dates of the field parser, or day, month name, year. *)
Definition dateRegex : regex :=
  Alt Fields.dateRegex
      (Cat (times 1 1 digit)
           (Cat (Plus space)
                (Cat (Words true months) (Cat (Plus space) (times 4 0 digit))))).

(** [/(?:de|from|para|to|en)\s+(W(?:\s+W)* )/gi] with [W = [A-Z][a-z]+] *)
Definition providerName : regex := Cat word (Star (Cat (Plus space) word)).
Definition providerRegex : regex :=
  Cat (Words true smart_prepositions) (Cat (Plus space) providerName).

(** [/^(de|from|para|to|en)\s+/i] *)
Definition providerPrefix : regex :=
  Cat (Words true smart_prepositions) (Plus space).

(** [m.replace(/[^\d.,]/g, '')] keeps these code units. *)
Definition kept (c : N) : bool := is_digit c || (c =? 46)%N || (c =? 44)%N.

Definition analyzeSearchQuery (query : str) : Analysis :=
  {| a_text := query;
     a_amount :=
       match match_first amountRegex query with
       | Some m => Some (parseFloat (replace_first 44 46 (List.filter kept m)))
       | None => None
       end;
     a_date := match_first dateRegex query;
     a_provider :=
       match match_first providerRegex query with
       | Some m => Some (strip_prefix providerPrefix m)
       | None => None
       end |}.

End Runtime.

(** ** The handler *)

(** The conjuncts that the handler pushes on [whereConditions]. *)
Inductive SmartCond : Type :=
| OwnedBy : N -> SmartCond
| AmountIs : jsnumber -> SmartCond
| IssueDateIs : str -> SmartCond
| ProviderContains : str -> SmartCond
| TextContains : str -> SmartCond.

(** [req.body.query]: a string, or some other JSON value. *)
Inductive jsvalue : Type :=
| JString : str -> jsvalue
| JOther : jsvalue.

Record SmartBody : Type := {
  s_query : option jsvalue;
  s_limit : option Z;
  s_offset : option Z
}.

Inductive SmartResponse : Type :=
| SmartOk (documents : list StoredDoc) (queryAnalysis : Analysis) (searchQuery : str)
| SmartBadRequest
| SmartError.

(** [if (queryAnalysis.amount)]: a number other than 0 and [NaN]. *)
Definition truthy_number (v : option jsnumber) : list jsnumber :=
  match v with
  | Some (Num q) => if Qeq_bool q 0 then [] else [Num q]
  | Some Infinity => [Infinity]
  | _ => []
  end.

Definition smartConditions (userId : N) (a : Analysis) : list SmartCond :=
  [OwnedBy userId]
  ++ map AmountIs (truthy_number (a_amount a))
  ++ map IssueDateIs (truthy (a_date a))
  ++ map ProviderContains (truthy (a_provider a))
  ++ map TextContains (truthy (Some (a_text a))).

(** [ORDER BY d.created_at DESC] *)
Definition newer (a b : StoredDoc) : bool := (created_at b <? created_at a)%Z.

Section Handler.

(** What a condition means on a row, and what the database makes of
    [LIMIT ? OFFSET ?] with the two unvalidated values of the body: a part
    of the ordered rows, or an error. *)
Variable toNumber : Q -> jsnumber.
Variable sql_holds : SmartCond -> StoredDoc -> bool.
Variable sql_page : Z -> Z -> list StoredDoc -> option (list StoredDoc).

Definition smart (table : list StoredDoc) (userId : N) (body : SmartBody)
    : SmartResponse :=
  match s_query body with
  | Some (JString (c :: q)) =>
      let searchQuery := c :: q in
      let queryAnalysis := analyzeSearchQuery toNumber searchQuery in
      let conds := smartConditions userId queryAnalysis in
      let rows :=
        sort newer (List.filter (fun d => forallb (fun c => sql_holds c d) conds) table) in
      match sql_page (or_default 20%Z (s_limit body)) (or_default 0%Z (s_offset body)) rows with
      | Some documents => SmartOk documents queryAnalysis searchQuery
      | None => SmartError
      end
  | _ => SmartBadRequest
  end.

End Handler.

(** ** Known answers *)

Example analyze_amount_and_provider (toNumber : Q -> jsnumber) :
  analyzeSearchQuery toNumber (lit "facturas de Repsol de 45,67" ++ [euro])
  = {| a_text := lit "facturas de Repsol de 45,67" ++ [euro];
       a_amount := Some (toNumber (4567 # 100));
       a_date := None;
       a_provider := Some (lit "Repsol de") |}.
Proof. vm_compute. reflexivity. Qed.

Example analyze_date_and_euros (toNumber : Q -> jsnumber) :
  analyzeSearchQuery toNumber (lit "100 Euros el 15 Marzo 2024")
  = {| a_text := lit "100 Euros el 15 Marzo 2024";
       a_amount := Some (toNumber (100 # 1));
       a_date := Some (lit "15 Marzo 2024");
       a_provider := None |}.
Proof. vm_compute. reflexivity. Qed.

End Smart.

(* ===================================================================== *)
(** * What smart search reads out of a query *)
(* ===================================================================== *)

Module SmartFacts.

Import Fields Patterns FieldShapes Search Smart.

Ltac eval_hyp_lits :=
  repeat match goal with
         | H : context [lit ?w] |- _ =>
             let x := eval vm_compute in (lit w) in change (lit w) with x in H
         end.

Ltac eval_closed_tests :=
  repeat match goal with
         | |- context [?a =? lower_unit ?b] =>
             let x := eval vm_compute in (a =? lower_unit b) in
             match x with
             | true => change (a =? lower_unit b) with true
             | false => change (a =? lower_unit b) with false
             end
         end.

(** The alternation of the five prepositions on a text that starts with
    one of them, in any letter case: the word is consumed. *)
Lemma exec_smart_prepositions (prep s : str) (k : str -> option str) :
  In (toLowerCase prep) (map lit smart_prepositions) ->
  exec (Words true smart_prepositions) (prep ++ s) k = k s.
Proof.
  unfold smart_prepositions. cbn [map In]. unfold toLowerCase.
  intros [H | [H | [H | [H | [H | []]]]]]; eval_hyp_lits;
    repeat (destruct prep as [|? prep]; [discriminate H|]; injection H as ? H);
    (destruct prep; [clear H | discriminate H]);
    unfold Words, Word; cbn [fold_left]; eval_lits;
    cbn [fold_right exec unit_re app];
    repeat match goal with
           | H : _ = lower_unit _ |- _ => rewrite <- H; clear H
           end;
    eval_closed_tests; cbv beta iota; try reflexivity; destruct (k s); reflexivity.
Qed.

Lemma letter_not_space (c : N) : is_upper c || is_lower c = true -> is_space c = false.
Proof.
  intros H. apply orb_true_iff in H as [H | H];
    unfold is_upper, is_lower, in_range in H; unfold is_space, in_range; class_cases.
Qed.

Lemma strip_smart_preposition (prep gap : str) (first : N) (rest : str) :
  In (toLowerCase prep) (map lit smart_prepositions) ->
  gap <> [] -> spaces gap ->
  is_upper first || is_lower first = true ->
  strip_prefix Smart.providerPrefix (prep ++ gap ++ first :: rest) = first :: rest.
Proof.
  intros Ip Gne G L.
  assert (Run : exec (Plus space) (gap ++ first :: rest) Some = Some (first :: rest)).
  { destruct G as [|g gap Pg G]; [congruence|].
    unfold Plus, space. cbn [exec app]. rewrite Pg.
    apply star_cls_greedy; [exact G|].
    intros c rest' E. injection E as <- _. apply letter_not_space, L. }
  unfold strip_prefix, match_here, Smart.providerPrefix. cbn [exec].
  rewrite (exec_smart_prepositions prep _ _ Ip), Run. reflexivity.
Qed.

(** ** [parseFloat] on the texts it is given here *)

Section Amounts.

Variable toNumber : Q -> jsnumber.

Lemma leading_digits_app (ds r : str) :
  digits ds ->
  (forall c r', r = c :: r' -> is_digit c = false) ->
  leading_digits (ds ++ r) = (ds, r).
Proof.
  intros D Stop. induction D as [|c ds H _ IH]; cbn [app leading_digits].
  - destruct r as [|c r']; [reflexivity|]. cbn [leading_digits].
    rewrite (Stop c r' eq_refl). reflexivity.
  - rewrite H, IH. reflexivity.
Qed.

Lemma parseFloat_decimal (whole cents : str) :
  whole <> [] -> digits whole -> digits cents ->
  parseFloat toNumber (whole ++ 46 :: cents)
  = toNumber (Z.of_N (decimal_value (whole ++ cents)) # pow10 (List.length cents)).
Proof.
  intros Ne W C. unfold parseFloat.
  rewrite (leading_digits_app whole (46 :: cents) W)
    by (intros c r' [= <- _]; reflexivity).
  cbn [fst snd].
  assert (E : leading_digits cents = (cents, [])).
  { rewrite <- (app_nil_r cents) at 1. apply leading_digits_app; [exact C | discriminate]. }
  rewrite E. cbn [fst].
  destruct whole as [|c w]; [congruence | reflexivity].
Qed.

Lemma parseFloat_integer (ds : str) :
  ds <> [] -> digits ds ->
  parseFloat toNumber ds = toNumber (Z.of_N (decimal_value ds) # 1).
Proof.
  intros Ne D. unfold parseFloat.
  assert (E : leading_digits ds = (ds, [])).
  { rewrite <- (app_nil_r ds) at 1. apply leading_digits_app; [exact D | discriminate]. }
  rewrite E. cbn [fst snd]. rewrite app_nil_r.
  destruct ds as [|c r]; [congruence | reflexivity].
Qed.

(** ** What [replace(/[^\d.,]/g, '')] keeps of an amount *)

Lemma kept_digits (ds : str) : digits ds -> List.filter kept ds = ds.
Proof.
  intros D. apply filter_all. eapply List.Forall_impl; [|exact D].
  intros c H. cbv beta in *. unfold kept. rewrite H. reflexivity.
Qed.

Lemma kept_not_space (c : N) : is_space c = true -> kept c = false.
Proof.
  intros S. destruct (kept c) eqn:K; [|reflexivity].
  rewrite <- S. symmetry. clear S. unfold kept in K.
  apply orb_true_iff in K as [K | K]; [apply orb_true_iff in K as [K | K]|].
  - unfold is_digit, in_range in K. unfold is_space, in_range. class_cases.
  - apply N.eqb_eq in K. subst. reflexivity.
  - apply N.eqb_eq in K. subst. reflexivity.
Qed.

Lemma kept_spaces (gap : str) : spaces gap -> List.filter kept gap = [].
Proof.
  intros S. apply filter_none. eapply List.Forall_impl; [|exact S]. apply kept_not_space.
Qed.

Lemma icase_letter_not_kept (x c : N) :
  is_lower (lower_unit x) = true ->
  (lower_unit c =? lower_unit x) = true -> kept c = false.
Proof.
  intros L E. apply N.eqb_eq in E. rewrite <- E in L. clear E x.
  unfold lower_unit in L. unfold kept, is_digit, in_range.
  destruct (is_upper c) eqn:U.
  - unfold is_upper, in_range in U. clear L. class_cases.
  - unfold is_lower, in_range in L. clear U. class_cases.
Qed.

Lemma euro_word_not_kept (u : str) :
  matches (Cat (Word true "euro") (Opt (unit_re true 115))) u ->
  List.filter kept u = [].
Proof.
  intros M. apply filter_none.
  apply (matches_units (fun c => kept c = false) _ _ M).
  unfold Word, Opt. eval_lits. cbn [fold_right units unit_re].
  repeat split; intros c H; (eapply icase_letter_not_kept; [|exact H]); reflexivity.
Qed.

(** The amount text of an accepted match, after both [replace] calls:
    digits, a period and two digits, or digits only. *)
Lemma amount_text (m : str) :
  matches Smart.amountRegex m ->
  exists whole : str,
    whole <> [] /\ digits whole /\
    ((exists sep cents rest,
         m = whole ++ sep :: cents ++ rest /\
         (sep = 46%N \/ sep = 44%N) /\
         digits cents /\ List.length cents = 2%nat /\
         List.filter kept rest = [] /\
         parseFloat toNumber (replace_first 44 46 (List.filter kept m))
         = toNumber (Z.of_N (decimal_value (whole ++ cents)) # 100)) \/
     (exists rest,
         m = whole ++ rest /\
         List.filter kept rest = [] /\
         parseFloat toNumber (replace_first 44 46 (List.filter kept m))
         = toNumber (Z.of_N (decimal_value whole) # 1))).
Proof.
  unfold Smart.amountRegex. intros M.
  apply matches_alt_inv in M as [M | M].
  - apply matches_cat_inv in M as (body & tail & -> & Mb & Mt).
    apply matches_cat_inv in Mb as (whole & frac & -> & Mw & Mf).
    apply matches_plus_cls in Mw as [Wne Wd].
    apply matches_cat_inv in Mf as (sepu & cents & -> & Ms & Mc).
    apply matches_cls_inv in Ms as (sep & -> & Ps).
    apply matches_times_cls in Mc as [Cd Cl].
    apply matches_cat_inv in Mt as (gap & sign & -> & Mg & Msg).
    apply matches_star_cls in Mg. apply matches_opt_chr in Msg.
    apply one_of_inv in Ps. cbn in Ps.
    assert (Sign : List.filter kept sign = []) by (destruct Msg as [-> | ->]; reflexivity).
    assert (Sep : List.filter kept [sep] = [sep])
      by (destruct Ps as [<- | [<- | []]]; reflexivity).
    assert (Rest : List.filter kept (gap ++ sign) = [])
      by (rewrite List.filter_app, (kept_spaces gap Mg), Sign; reflexivity).
    exists whole. split; [exact Wne|]. split; [exact Wd|]. left.
    exists sep, cents, (gap ++ sign).
    split; [rewrite <- !app_assoc; reflexivity|].
    split; [destruct Ps as [<- | [<- | []]]; auto|].
    split; [exact Cd|]. split; [lia|]. split; [exact Rest|].
    rewrite !List.filter_app, kept_digits by exact Wd.
    rewrite Sep, (kept_digits cents Cd), (kept_spaces gap Mg), Sign, !app_nil_r.
    rewrite replace_first_skip
      by (eapply List.Forall_impl; [|exact Wd]; apply digit_not_comma).
    assert (R : replace_first 44 46 ([sep] ++ cents) = 46 :: cents).
    { cbn [app replace_first]. destruct Ps as [<- | [<- | []]]; cbn [N.eqb Pos.eqb];
        [|reflexivity].
      rewrite replace_first_absent; [reflexivity|].
      eapply List.Forall_impl; [|exact Cd]. apply digit_not_comma. }
    rewrite R, (parseFloat_decimal whole cents Wne Wd Cd).
    replace (List.length cents) with 2%nat by lia. reflexivity.
  - apply matches_cat_inv in M as (ds & tail & -> & Md & Mt).
    apply matches_plus_cls in Md as [Dne Dd].
    apply matches_cat_inv in Mt as (gap & unit & -> & Mg & Mu).
    apply matches_star_cls in Mg.
    assert (U : List.filter kept unit = []).
    { apply matches_alt_inv in Mu as [Mu | Mu]; [apply euro_word_not_kept, Mu|].
      apply matches_cls_inv in Mu as (c & -> & E). apply N.eqb_eq in E. subst.
      reflexivity. }
    assert (Rest : List.filter kept (gap ++ unit) = [])
      by (rewrite List.filter_app, (kept_spaces gap Mg), U; reflexivity).
    exists ds. split; [exact Dne|]. split; [exact Dd|]. right.
    exists (gap ++ unit). split; [reflexivity|]. split; [exact Rest|].
    rewrite !List.filter_app, (kept_digits ds Dd), (kept_spaces gap Mg), U, !app_nil_r.
    rewrite replace_first_absent
      by (eapply List.Forall_impl; [|exact Dd]; apply digit_not_comma).
    apply (parseFloat_integer ds Dne Dd).
Qed.

(** X28: what [analyzeSearchQuery] returns for any query, whatever the
    double is that the runtime rounds a decimal to.  The text slot is the
    whole query, never shortened by what the other slots took.  The amount
    slot, when set, is the Number value of a decimal read off a text that
    the amount pattern accepts in the query: of its digits as a whole
    number, or of its digits, separator and two digits as a number of
    hundredths; so it is the double next to that decimal (and [Infinity]
    for some three hundred digits and more), not the decimal itself.  The
    date slot, when set, is the leftmost date in the query.  The provider
    slot, when set, is one or more words of two or more ASCII letters, in
    any letter case, that follow one of the words de, from, para, to, en
    (in any case, also as the end of a longer word) and white space.  A
    slot is empty only when the query has no text its pattern accepts. *)
Theorem analyzeSearchQuery_slots (query : str) :
  let a := analyzeSearchQuery toNumber query in
  a_text a = query /\
  match a_amount a with
  | Some v =>
      exists m whole : str,
        leftmost Smart.amountRegex query m /\
        whole <> [] /\ digits whole /\
        ((exists sep cents rest,
             m = whole ++ sep :: cents ++ rest /\
             (sep = 46%N \/ sep = 44%N) /\
             digits cents /\ List.length cents = 2%nat /\
             List.filter kept rest = [] /\
             v = toNumber (Z.of_N (decimal_value (whole ++ cents)) # 100)) \/
         (exists rest,
             m = whole ++ rest /\
             List.filter kept rest = [] /\
             v = toNumber (Z.of_N (decimal_value whole) # 1)))
  | None => forall pre m, occurs_at pre m query -> ~ matches Smart.amountRegex m
  end /\
  match a_date a with
  | Some d => leftmost Smart.dateRegex query d
  | None => forall pre m, occurs_at pre m query -> ~ matches Smart.dateRegex m
  end /\
  match a_provider a with
  | Some p =>
      exists prep gap pre,
        matches Smart.providerName p /\
        In (toLowerCase prep) (map lit smart_prepositions) /\
        gap <> [] /\ spaces gap /\
        occurs_at pre (prep ++ gap ++ p) query
  | None => forall pre m, occurs_at pre m query -> ~ matches Smart.providerRegex m
  end.
Proof.
  cbv zeta. unfold analyzeSearchQuery. cbn [a_text a_amount a_date a_provider].
  split; [reflexivity|]. split; [|split].
  - pose proof (match_first_cases Smart.amountRegex query) as C.
    destruct (match_first Smart.amountRegex query) as [m|]; [|exact C].
    destruct (amount_text m (proj1 C)) as (whole & Wne & Wd & T).
    exists m, whole. split; [exact C|]. split; [exact Wne|]. split; [exact Wd|].
    destruct T as [(sep & cents & rest & Em & Es & Cd & Cl & Kr & P)
                  | (rest & Em & Kr & P)]; [left | right].
    + exists sep, cents, rest. repeat split; assumption.
    + exists rest. repeat split; assumption.
  - exact (match_first_cases Smart.dateRegex query).
  - pose proof (match_first_cases Smart.providerRegex query) as C.
    destruct (match_first Smart.providerRegex query) as [m|]; [|exact C].
    destruct C as (M & pre & O & _). unfold Smart.providerRegex in M.
    apply matches_cat_inv in M as (prep & r1 & -> & Mp & M).
    apply matches_cat_inv in M as (gap & name & -> & Mg & Mn).
    apply matches_plus_cls in Mg as [Gne G].
    apply matches_keywords in Mp as (w & Iw & Mp).
    apply matches_word_icase in Mp.
    assert (P : In (toLowerCase prep) (map lit smart_prepositions)).
    { rewrite Mp. unfold smart_prepositions in *. cbn [In] in Iw.
      destruct Iw as [<- | [<- | [<- | [<- | [<- | []]]]]]; vm_compute; auto 6. }
    assert (F : exists first rest, name = first :: rest /\
                                   is_upper first || is_lower first = true).
    { pose proof Mn as Mn'. unfold Smart.providerName, word, letter in Mn'.
      apply matches_cat_inv in Mn' as (u1 & u2 & -> & M1 & _).
      apply matches_cat_inv in M1 as (u3 & u4 & -> & M3 & _).
      apply matches_cls_inv in M3 as (c & -> & U).
      eexists c, _. split; [reflexivity | exact U]. }
    destruct F as (first & rest & -> & U).
    rewrite (strip_smart_preposition prep gap first rest P Gne G U).
    exists prep, gap, pre. repeat split; assumption.
Qed.

End Amounts.

(** A runtime that rounds nothing: every decimal is its own Number value.
    It stands in for the rounding of the doubles where only rows and
    slots other than the amount are looked at. *)
Definition unrounded (q : Q) : jsnumber := Num q.

Section Scope.

Variable toNumber : Q -> jsnumber.
Variable sql_holds : SmartCond -> StoredDoc -> bool.
Variable sql_page : Z -> Z -> list StoredDoc -> option (list StoredDoc).

(** X29: a smart search is answered 400 exactly when the body has no
    non-empty string as query.  Otherwise, with a database for which the
    condition on the user id means ownership and whose paging returns rows
    of the result, every document of a 200 response is a stored document
    of the caller for which the text condition on the whole query holds,
    whatever the slots took out of it; and the analysis in the response is
    the one of the query. *)
Theorem smart_search_scope (table : list StoredDoc) (userId : N) (body : SmartBody) :
  (forall u d, sql_holds (OwnedBy u) d = true -> user_id d = u) ->
  (forall l o rows page, sql_page l o rows = Some page -> incl page rows) ->
  match smart toNumber sql_holds sql_page table userId body with
  | SmartBadRequest =>
      forall c q, s_query body <> Some (JString (c :: q))
  | SmartOk documents queryAnalysis searchQuery =>
      s_query body = Some (JString searchQuery) /\ searchQuery <> [] /\
      queryAnalysis = analyzeSearchQuery toNumber searchQuery /\
      Forall (fun d => In d table /\ user_id d = userId /\
                       sql_holds (TextContains searchQuery) d = true)
             documents
  | SmartError => exists c q, s_query body = Some (JString (c :: q))
  end.
Proof.
  intros Own Page. unfold smart.
  destruct (s_query body) as [[[|c q]|]|]; try (intros; discriminate).
  cbv zeta.
  destruct (sql_page _ _ _) as [documents|] eqn:E; [|exists c, q; reflexivity].
  split; [reflexivity|]. split; [discriminate|]. split; [reflexivity|].
  apply List.Forall_forall. intros d Hd.
  apply (Page _ _ _ _ E) in Hd.
  eapply Permutation_in in Hd; [|apply sort_perm].
  apply List.filter_In in Hd as [I C]. rewrite forallb_forall in C.
  split; [exact I|]. split.
  - apply Own, C. left. reflexivity.
  - apply C. unfold smartConditions. rewrite !in_app_iff. do 4 right.
    cbn [a_text analyzeSearchQuery truthy map In]. left. reflexivity.
Qed.

End Scope.

(** A database for which the condition on the user id is ownership and
    every other condition holds, with [LIMIT] and [OFFSET] as counts. *)
Definition owned_rows (c : SmartCond) (d : StoredDoc) : bool :=
  match c with
  | OwnedBy u => (user_id d =? u)%N
  | _ => true
  end.

Definition page_of (l o : Z) (rows : list StoredDoc) : option (list StoredDoc) :=
  if ((l <? 0) || (o <? 0))%Z then None
  else Some (firstn (Z.to_nat l) (skipn (Z.to_nat o) rows)).

Lemma page_of_incl (l o : Z) (rows page : list StoredDoc) :
  page_of l o rows = Some page -> incl page rows.
Proof.
  unfold page_of. destruct (_ || _)%bool; [discriminate|]. intros [= <-] d H.
  apply SearchScope.In_firstn_list, SearchScope.In_skipn_list in H. exact H.
Qed.

(** Tenant 7 asks for "facturas de Repsol" over a table that also holds a
    document of tenant 8. *)
Lemma smart_search_scope_witness :
  let body := {| s_query := Some (JString (lit "facturas de Repsol"));
                 s_limit := None; s_offset := None |} in
  match smart unrounded owned_rows page_of [SearchScope.doc_c; doc_a] 7 body with
  | SmartOk documents queryAnalysis searchQuery =>
      map doc_id documents = [1%N] /\
      a_provider queryAnalysis = Some (lit "Repsol") /\
      Forall (fun d => user_id d = 7%N) documents
  | _ => False
  end.
Proof.
  cbv zeta.
  pose proof (smart_search_scope unrounded owned_rows page_of [SearchScope.doc_c; doc_a] 7
                {| s_query := Some (JString (lit "facturas de Repsol"));
                   s_limit := None; s_offset := None |}
                (fun u d H => proj1 (N.eqb_eq _ _) H) page_of_incl) as H.
  destruct (smart unrounded owned_rows page_of [SearchScope.doc_c; doc_a] 7 _)
    as [documents queryAnalysis searchQuery| |] eqn:E;
    [|vm_compute in E; discriminate E|vm_compute in E; discriminate E].
  destruct H as (_ & _ & _ & F).
  assert (D : map doc_id documents = [1%N] /\
              a_provider queryAnalysis = Some (lit "Repsol")).
  { vm_compute in E. injection E as <- <- _. split; reflexivity. }
  destruct D as [D1 D2]. split; [exact D1|]. split; [exact D2|].
  eapply List.Forall_impl; [|exact F]. intros d (_ & U & _). exact U.
Defined.

End SmartFacts.

(* ===================================================================== *)
(** * Where the encrypted blob goes (disk storage, [encryptedFilePath]) *)
(* ===================================================================== *)

Module BlobPath.

Import Upload.

Definition no_slash (s : str) : Prop := Forall (fun c => c <> slash) s.
Definition no_dot (s : str) : Prop := Forall (fun c => c <> dot) s.

Lemma existsb_absent (x : N) (s : str) :
  Forall (fun c => c <> x) s -> existsb (N.eqb x) s = false.
Proof.
  induction 1 as [|c s H _ IH]; [reflexivity|]. cbn [existsb].
  rewrite IH, orb_false_r. apply N.eqb_neq. congruence.
Qed.

Lemma existsb_present (x : N) (pre post : str) :
  existsb (N.eqb x) (pre ++ x :: post) = true.
Proof.
  apply existsb_exists. exists x. split; [apply in_elt | apply N.eqb_refl].
Qed.

Lemma absent_existsb (x : N) (s : str) :
  existsb (N.eqb x) s = false -> Forall (fun c => c <> x) s.
Proof.
  induction s as [|c s IH]; [constructor|]. cbn [existsb]. intros H.
  apply orb_false_iff in H as [H1 H2]. apply N.eqb_neq in H1.
  constructor; [congruence | apply IH, H2].
Qed.

(** ** [last_segment] *)

Lemma last_segment_plain (s : str) : no_slash s -> last_segment s = s.
Proof.
  intros H. destruct H as [|c s Hc Hs]; [reflexivity|]. cbn [last_segment].
  rewrite (existsb_absent slash s Hs). apply N.eqb_neq in Hc. rewrite Hc. reflexivity.
Qed.

Lemma last_segment_join (dir name : str) :
  no_slash name -> last_segment (join dir name) = name.
Proof.
  intros H. unfold join. cbn [app]. induction dir as [|c dir IH]; cbn [app last_segment].
  - rewrite (existsb_absent slash name H), N.eqb_refl. reflexivity.
  - rewrite existsb_present. exact IH.
Qed.

Lemma last_segment_no_slash (p : str) : no_slash (last_segment p).
Proof.
  induction p as [|c p IH]; [constructor|]. cbn [last_segment].
  destruct (existsb (N.eqb slash) p) eqn:E; [exact IH|].
  apply absent_existsb in E.
  destruct (N.eqb_spec c slash) as [_ | Ne]; [exact E | constructor; assumption].
Qed.

(** ** [from_last_dot] and [extname] *)

Lemma from_last_dot_none (s : str) : no_dot s -> from_last_dot s = None.
Proof.
  induction 1 as [|c s H _ IH]; [reflexivity|]. cbn [from_last_dot].
  rewrite IH. apply N.eqb_neq in H. rewrite H. reflexivity.
Qed.

Lemma from_last_dot_app (pre t : str) :
  no_dot t -> from_last_dot (pre ++ dot :: t) = Some (dot :: t).
Proof.
  intros H. induction pre as [|c pre IH]; cbn [app from_last_dot].
  - rewrite (from_last_dot_none t H), N.eqb_refl. reflexivity.
  - rewrite IH. reflexivity.
Qed.

Lemma from_last_dot_shape (s e : str) :
  from_last_dot s = Some e ->
  exists pre t, s = pre ++ dot :: t /\ e = dot :: t /\ no_dot t.
Proof.
  revert e. induction s as [|c s IH]; intros e; cbn [from_last_dot]; [discriminate|].
  destruct (from_last_dot s) as [e'|] eqn:E.
  - intros [= <-]. destruct (IH e' eq_refl) as (pre & t & -> & -> & D).
    exists (c :: pre), t. repeat split. exact D.
  - destruct (N.eqb_spec c dot) as [-> | _]; [|discriminate].
    intros [= <-]. exists [], s. repeat split.
    clear IH. induction s as [|d s IH]; [constructor|].
    cbn [from_last_dot] in E. destruct (from_last_dot s); [discriminate|].
    destruct (N.eqb_spec d dot); [discriminate|].
    constructor; [assumption | apply IH; reflexivity].
Qed.

(** An extension is empty, or a period followed by code units that are
    neither periods nor slashes. *)
Definition extension (ext : str) : Prop :=
  ext = [] \/ exists t, ext = dot :: t /\ no_dot t /\ no_slash t.

Lemma extname_extension (p : str) : extension (extname p).
Proof.
  unfold extname. pose proof (last_segment_no_slash p) as S.
  destruct (last_segment p) as [|c rest]; [left; reflexivity|].
  destruct (str_eqb _ _); [left; reflexivity|].
  destruct (from_last_dot rest) as [e|] eqn:E; [|left; reflexivity].
  apply from_last_dot_shape in E as (pre & t & -> & -> & D).
  right. exists t. repeat split; [exact D|].
  inversion S as [|? ? _ S']; subst. apply Forall_app in S' as [_ S'].
  inversion S'; assumption.
Qed.

(** The stored name: the unique suffix, then the extension of the original
    name. *)
Lemma extname_stored (suffix ext : str) :
  suffix <> [] -> no_slash suffix -> no_dot suffix -> extension ext ->
  extname (suffix ++ ext) = ext.
Proof.
  intros Ne S D X. unfold extname.
  assert (Sx : no_slash ext).
  { destruct X as [-> | (t & -> & _ & St)]; [constructor|].
    constructor; [discriminate | exact St]. }
  rewrite last_segment_plain by (apply Forall_app; split; assumption).
  destruct suffix as [|c s]; [congruence|]. cbn [app].
  inversion D as [|? ? Dc Ds]; subst.
  assert (Q : str_eqb (c :: s ++ ext) (lit "..") = false).
  { unfold str_eqb. apply bool_decide_eq_false. intros [= E _]. exact (Dc E). }
  rewrite Q.
  destruct X as [-> | (t & -> & Dt & _)].
  - rewrite app_nil_r, (from_last_dot_none s Ds). reflexivity.
  - rewrite (from_last_dot_app s t Dt). reflexivity.
Qed.

(** ** [basename] and [dirname] *)

Lemma startsWith_app (a b : str) : startsWith (a ++ b) a = true.
Proof.
  induction a as [|c a IH]; [destruct b; reflexivity|].
  cbn [app startsWith]. rewrite N.eqb_refl. exact IH.
Qed.

Lemma basename_stored (suffix ext : str) :
  suffix <> [] -> no_slash (suffix ++ ext) ->
  basename (suffix ++ ext) ext = suffix.
Proof.
  intros Ne S. unfold basename. rewrite (last_segment_plain _ S).
  assert (E : endsWith (suffix ++ ext) ext = true).
  { unfold endsWith. rewrite rev_app_distr. apply startsWith_app. }
  assert (Q : str_eqb (suffix ++ ext) ext = false).
  { unfold str_eqb. apply bool_decide_eq_false. intros H.
    apply (f_equal (@List.length N)) in H. rewrite length_app in H.
    destruct suffix; [congruence | cbn [List.length] in H; lia]. }
  rewrite E, Q. cbn [negb andb].
  rewrite length_app, Nat.add_sub, firstn_app, Nat.sub_diag, firstn_all.
  cbn [firstn]. apply app_nil_r.
Qed.

Lemma dirname_join (dir name : str) :
  dir <> [] -> no_slash name -> dirname (join dir name) = dir.
Proof.
  intros Ne S. unfold dirname. rewrite (last_segment_join dir name S).
  unfold join. change ([slash] ++ name) with (slash :: name).
  rewrite existsb_present.
  replace (List.length (dir ++ slash :: name) - List.length name - 1)%nat
    with (List.length dir) by (rewrite !length_app; cbn [List.length]; lia).
  rewrite firstn_app, Nat.sub_diag, firstn_all. cbn [firstn]. rewrite app_nil_r.
  destruct dir; [congruence | reflexivity].
Qed.

(** X30: for a file that the disk storage of the router has stored:
    in a directory as [path.join] returns it (not empty, no slash at the
    end), under a unique suffix without periods or slashes, followed by
    the extension of the original name, of which multer hands over the
    base name (no slash).  The encrypted blob then goes to
    directory/suffix.encrypted, and that is the path of the upload itself
    exactly when the extension of the original name is ".encrypted"; for
    every other name the blob is a different file in the same directory. *)
Theorem blob_path_collides_iff (st : Storage) (p : Part) :
  uploadDir st <> [] ->
  List.last (uploadDir st) 0%N <> slash ->
  uniqueSuffix st <> [] ->
  Forall (fun c => c <> slash /\ c <> dot) (uniqueSuffix st) ->
  no_slash (p_originalname p) ->
  let f := stored_file st p in
  encryptedFilePath f = join (uploadDir st) (uniqueSuffix st ++ lit ".encrypted") /\
  (encryptedFilePath f = path f <-> extname (p_originalname p) = lit ".encrypted").
Proof.
  intros Dir _ Ne F _. cbv zeta.
  assert (S : no_slash (uniqueSuffix st))
    by (eapply List.Forall_impl; [|exact F]; intros c [H _]; exact H).
  assert (D : no_dot (uniqueSuffix st))
    by (eapply List.Forall_impl; [|exact F]; intros c [_ H]; exact H).
  pose proof (extname_extension (p_originalname p)) as X.
  set (ext := extname (p_originalname p)) in *.
  assert (Sx : no_slash ext).
  { destruct X as [-> | (t & -> & _ & St)]; [constructor|].
    constructor; [discriminate | exact St]. }
  assert (Sn : no_slash (uniqueSuffix st ++ ext)) by (apply Forall_app; split; assumption).
  assert (E : encryptedFilePath (stored_file st p)
              = join (uploadDir st) (uniqueSuffix st ++ lit ".encrypted")).
  { unfold encryptedFilePath, stored_file. cbn [filename path]. fold ext.
    rewrite (dirname_join _ _ Dir Sn), (extname_stored _ _ Ne S D X).
    rewrite (basename_stored _ _ Ne Sn). reflexivity. }
  split; [exact E|]. rewrite E. unfold stored_file. cbn [path]. fold ext.
  unfold join. split.
  - intros H. apply app_inv_head in H. cbn [app] in H. injection H as H.
    apply app_inv_head in H. symmetry. exact H.
  - intros ->. reflexivity.
Qed.

(** The image "factura.png" in the storage of the concrete runs. *)
Lemma blob_path_collides_iff_witness :
  encryptedFilePath (stored_file storage small_image)
    = lit "/srv/uploads/7/2024/03/1710500000000-42.encrypted" /\
  encryptedFilePath (stored_file storage small_image) <> path (stored_file storage small_image).
Proof.
  destruct (blob_path_collides_iff storage small_image
              ltac:(discriminate) ltac:(vm_compute; discriminate) ltac:(discriminate)
              ltac:(repeat constructor; discriminate)
              ltac:(repeat constructor; discriminate)) as [E I].
  split; [rewrite E; reflexivity|].
  intros H. apply I in H. vm_compute in H. discriminate H.
Defined.

End BlobPath.
